(** * SiliconCompiler: the OpenROAD tool adapter and the reporting queries

    A shallow embedding of
    - [siliconcompiler/tools/openroad/openroad.py] (setup, parse_version,
      normalize_version, post_process and the corner helpers), and
    - [siliconcompiler/report/report.py] (get_flowgraph_path and the manifest
      search functions),
    over a model of the chip object they drive.  Python values are
    represented by the inductive type [value]; exceptions by the type [exn];
    the mutable chip by explicit state passing. *)

From Stdlib Require Import ZArith Ascii String List Floats DecimalString Lia.
From stdpp Require Import gmap strings list.

#[local] Set Warnings "-clear-no-such-hyp".
Local Open Scope Z_scope.

(* ===================================================================== *)
(** * Python strings *)
(* ===================================================================== *)

(** A Python [str] is modelled by a Rocq [string]: a sequence of code points
    below 256. *)
Module PyStr.

(** [str.isspace] on one code point below 256: the ASCII separators
    0x09-0x0D and 0x1C-0x20, and the Latin-1 code points 0x85 and 0xA0. *)
Definition is_space (c : ascii) : bool :=
  let n := Ascii.N_of_ascii c in
  ((9 <=? n) && (n <=? 13) || (28 <=? n) && (n <=? 32)
   || (n =? 133) || (n =? 160))%N.

Definition is_empty (s : string) : bool :=
  match s with EmptyString => true | String _ _ => false end.

(** [c in s] for a one-character string [c]. *)
Fixpoint contains_char (c : ascii) (s : string) : bool :=
  match s with
  | EmptyString => false
  | String d s' => if Ascii.eqb d c then true else contains_char c s'
  end.

(** [s.startswith(p)]. *)
Fixpoint starts_with (p s : string) : bool :=
  match p, s with
  | EmptyString, _ => true
  | String _ _, EmptyString => false
  | String a p', String b s' => if Ascii.eqb a b then starts_with p' s' else false
  end.

(** [sub in s]: substring test. *)
Fixpoint contains (sub s : string) : bool :=
  if starts_with sub s then true
  else match s with
       | EmptyString => false
       | String _ s' => contains sub s'
       end.

(** [s.split()]: the maximal runs of non-whitespace characters, in order.
    [cur] is the run being read. *)
Fixpoint split_ws_from (cur : string) (s : string) : list string :=
  match s with
  | EmptyString => if is_empty cur then [] else [cur]
  | String c s' =>
      if is_space c
      then (if is_empty cur then split_ws_from EmptyString s'
            else cur :: split_ws_from EmptyString s')
      else split_ws_from (cur +:+ String c EmptyString) s'
  end.

Definition split_ws (s : string) : list string := split_ws_from EmptyString s.

(** [s.split(sep)] for a one-character separator: always at least one
    piece, empty pieces are kept. *)
Fixpoint split_on (sep : ascii) (s : string) : list string :=
  match s with
  | EmptyString => [EmptyString]
  | String c s' =>
      if Ascii.eqb c sep then EmptyString :: split_on sep s'
      else match split_on sep s' with
           | p :: ps => String c p :: ps
           | [] => [String c EmptyString]
           end
  end.

(** [sep.join(l)]. *)
Definition join (sep : string) (l : list string) : string := String.concat sep l.

(** [s.lstrip(c)] for a one-character set [c]: every leading [c] goes. *)
Fixpoint lstrip_char (c : ascii) (s : string) : string :=
  match s with
  | String d s' => if Ascii.eqb d c then lstrip_char c s' else s
  | EmptyString => EmptyString
  end.

(** [n * c]: the character [c] repeated. *)
Fixpoint repeat_char (c : ascii) (n : nat) : string :=
  match n with O => EmptyString | S n' => String c (repeat_char c n') end.

Fixpoint all_chars (p : ascii -> bool) (s : string) : bool :=
  match s with
  | EmptyString => true
  | String c s' => p c && all_chars p s'
  end.

(** The last character of [s] satisfies [p] (vacuous on the empty string). *)
Fixpoint ends_with_char (p : ascii -> bool) (s : string) : bool :=
  match s with
  | EmptyString => true
  | String c EmptyString => p c
  | String _ s' => ends_with_char p s'
  end.

End PyStr.

(* ===================================================================== *)
(** * Python exceptions *)
(* ===================================================================== *)

Inductive exn : Type :=
| IndexError
| TypeError
| ValueError
| OverflowError
| ZeroDivisionError
| SiliconCompilerError (msg : string).

Inductive result (A : Type) : Type :=
| Ok (a : A)
| Raise (e : exn).
Arguments Ok {A} a.
Arguments Raise {A} e.

(** [l[-1]] *)
Definition py_last {A} (l : list A) : result A :=
  match last l with Some x => Ok x | None => Raise IndexError end.

(** [l[0]] *)
Definition py_first {A} (l : list A) : result A :=
  match l with x :: _ => Ok x | [] => Raise IndexError end.

(* ===================================================================== *)
(** * openroad.py: version check *)
(* ===================================================================== *)

Definition dash : ascii := "-"%char.
Definition dot : ascii := "."%char.

(** [parse_version(stdout)], openroad.py lines 264-278. *)
Definition parse_version (stdout : string) : result string :=
  match py_last (PyStr.split_ws stdout) with
  | Raise e => Raise e
  | Ok version =>
      let pieces := PyStr.split_on dash version in
      if (1 <? Z.of_nat (length pieces))
      then Ok (PyStr.join "-" (removelast pieces))
      else py_first pieces
  end.

(** [normalize_version(version)], openroad.py lines 280-284. *)
Definition normalize_version (version : string) : string :=
  if PyStr.contains_char dot version
  then PyStr.lstrip_char "v"%char version
  else "0".

(** The reading of "its leading version-prefix character stripped" that
    removes one character: used to compare with [normalize_version]. *)
Definition strip_one_prefix_char (version : string) : string :=
  match version with
  | String c rest => if Ascii.eqb c "v"%char then rest else version
  | EmptyString => EmptyString
  end.

Definition normalize_version_one_char (version : string) : string :=
  if PyStr.contains_char dot version
  then strip_one_prefix_char version
  else "0".

(* ===================================================================== *)
(** * Python values *)
(* ===================================================================== *)

(** A node of the flowgraph: the pair (step, index). *)
Abbreviation node := (string * string)%type.

(** The values the manifest holds: [None], booleans, integers, floats,
    strings, lists of strings and lists of nodes. *)
Inductive value : Type :=
| VNone
| VBool (b : bool)
| VInt (z : Z)
| VFloat (f : float)
| VStr (s : string)
| VList (l : list string)
| VNodes (l : list node).

(** Python truthiness: [bool(v)]. *)
Definition truthy (v : value) : bool :=
  match v with
  | VNone => false
  | VBool b => b
  | VInt z => negb (z =? 0)
  | VFloat f => negb (PrimFloat.eqb f 0%float)
  | VStr s => negb (PyStr.is_empty s)
  | VList l => match l with [] => false | _ => true end
  | VNodes l => match l with [] => false | _ => true end
  end.

(** A value used where the code needs a [str] (a key-path segment, an
    operand of [",".join]): anything else raises [TypeError]. *)
Definition as_str (v : value) : result string :=
  match v with VStr s => Ok s | _ => Raise TypeError end.

(** A value iterated over as a list of strings.  The leaves concerned are
    typed [[str]] by the schema; a value of another type raises
    [TypeError]. *)
Definition as_list (v : value) : result (list string) :=
  match v with VList l => Ok l | _ => Raise TypeError end.

(** A value iterated over as a list of nodes (a 'select' leaf). *)
Definition as_nodes (v : value) : result (list node) :=
  match v with
  | VNodes l => Ok l
  | VList [] => Ok []
  | _ => Raise TypeError
  end.

(** [v == s] for a string literal [s]. *)
Definition value_is (v : value) (s : string) : bool :=
  match v with VStr s' => String.eqb s' s | _ => false end.

(** Decimal rendering of an integer, as [str(int)] gives it. *)
Definition str_of_Z (z : Z) : string :=
  NilZero.string_of_int (Z.to_int z).

(** [f'{v}'] for the values a str-typed leaf can hold ([str] or [None]),
    and for booleans and integers.  Lists and floats are not rendered: they
    never sit in the one leaf that is formatted (the delay model). *)
Definition py_format (v : value) : string :=
  match v with
  | VStr s => s
  | VNone => "None"
  | VBool true => "True"
  | VBool false => "False"
  | VInt z => str_of_Z z
  | VFloat _ => "<float>"
  | VList _ => "<list>"
  | VNodes _ => "<list>"
  end.

(** [",".join(segments)] where some segments are manifest values. *)
Fixpoint strs_of (l : list value) : result (list string) :=
  match l with
  | [] => Ok []
  | v :: l' =>
      match as_str v with
      | Raise e => Raise e
      | Ok s => match strs_of l' with
                | Raise e => Raise e
                | Ok ss => Ok (s :: ss)
                end
      end
  end.

(* ===================================================================== *)
(** * JSON numbers and the conversions [float()] and [int()] *)
(* ===================================================================== *)

(** The values of the metrics report: JSON null, booleans and numbers
    (an integer literal loads as [int], any other number as [float]). *)
Inductive jval : Type :=
| JNull
| JBool (b : bool)
| JInt (z : Z)
| JFloat (f : float).

(** [float(z)] for an integer: rounding to nearest, ties to even;
    [OverflowError] beyond the largest double. *)
Definition float_of_Z (z : Z) : result float :=
  match SpecFloat.binary_normalize prec emax z 0 false with
  | S754_infinity _ => Raise OverflowError
  | sf => Ok (SF2Prim sf)
  end.

Definition py_float (v : jval) : result float :=
  match v with
  | JNull => Raise TypeError
  | JBool b => Ok (if b then 1%float else 0%float)
  | JInt z => float_of_Z z
  | JFloat f => Ok f
  end.

(** [int(f)] for a float: truncation toward zero; [ValueError] on NaN,
    [OverflowError] on an infinity. *)
Definition Z_of_float (f : float) : result Z :=
  match Prim2SF f with
  | S754_nan => Raise ValueError
  | S754_infinity _ => Raise OverflowError
  | S754_zero _ => Ok 0
  | S754_finite s m e =>
      let mag := if (0 <=? e) then Z.pos m * 2 ^ e else Z.pos m / 2 ^ (- e) in
      Ok (if s then - mag else mag)
  end.

Definition py_int (v : jval) : result Z :=
  match v with
  | JNull => Raise TypeError
  | JBool b => Ok (if b then 1 else 0)
  | JInt z => Ok z
  | JFloat f => Z_of_float f
  end.

(** The Python object [json.load] gives for a report value. *)
Definition value_of_jval (v : jval) : value :=
  match v with
  | JNull => VNone
  | JBool b => VBool b
  | JInt z => VInt z
  | JFloat f => VFloat f
  end.

(** The builtin [min(a, b)] on floats: [b] when [b < a], else [a]. *)
Definition py_min (a b : float) : float :=
  if PrimFloat.ltb b a then b else a.

(** [int(math.ceil(a / b))] for integers [a >= 0] and [b > 0]: the true
    division is exact enough below 2^53 for the ceiling to be that of the
    rational quotient. *)
Definition ceil_div (a b : Z) : Z := - ((- a) / b).

(* ===================================================================== *)
(** * The manifest store *)
(* ===================================================================== *)

Definition keypath : Type := list string.

(** The scope of a read or write: the optional [step] and [index] keyword
    arguments; both absent is the global scope. *)
Definition scope : Type := option string * option string.
Definition global : scope := (None, None).

(** A schema entry: a key-path pattern, [None] standing for a wildcard
    segment, with the default value of the leaves it covers. *)
Definition pattern : Type := list (option string).

Fixpoint pat_matches (p : pattern) (k : keypath) : bool :=
  match p, k with
  | [], [] => true
  | seg :: p', s :: k' =>
      match seg with
      | None => pat_matches p' k'
      | Some x => if String.eqb x s then pat_matches p' k' else false
      end
  | _, _ => false
  end.

(** Modelled from the spec: the manifest store, whose implementation (the
    schema object behind [chip.get], [chip.set], [chip.add], [chip.valid] and
    [chip.getkeys]) is not part of the sources.  A flat map from key-paths to
    leaves; a leaf maps a scope to the value written there, the global value
    sitting at scope [global]; the schema gives the default of a leaf. *)
Record manifest : Type := Manifest {
  schema : list (pattern * value);
  leaves : gmap keypath (gmap scope value)
}.

Module Schema.

Definition default_of (m : manifest) (k : keypath) : value :=
  match find (fun e => pat_matches (fst e) k) (schema m) with
  | Some e => snd e
  | None => VNone
  end.

Definition leaf_of (m : manifest) (k : keypath) : gmap scope value :=
  match leaves m !! k with Some l => l | None => ∅ end.

(** Modelled from the spec: "reading a key-path for a given node returns
    the node overlay if present, else the global value, else the schema
    default". *)
Definition get (m : manifest) (k : keypath) (sc : scope) : value :=
  match leaf_of m k !! sc with
  | Some v => v
  | None => match leaf_of m k !! global with
            | Some v => v
            | None => default_of m k
            end
  end.

(** The leaf already carries a value for this scope: one written at the
    scope itself or the global one. *)
Definition is_set (m : manifest) (k : keypath) (sc : scope) : bool :=
  match leaf_of m k !! sc with
  | Some _ => true
  | None => match leaf_of m k !! global with
            | Some _ => true
            | None => false
            end
  end.

Definition write (m : manifest) (k : keypath) (sc : scope) (v : value) : manifest :=
  Manifest (schema m) (<[k := <[sc := v]> (leaf_of m k)]> (leaves m)).

(** Modelled from the spec: "without [clobber], a set on an already-set
    leaf is a no-op"; otherwise the value is written at the scope. *)
Definition set (m : manifest) (k : keypath) (v : value) (sc : scope)
    (clobber : bool) : manifest :=
  if negb clobber && is_set m k sc then m else write m k sc v.

(** The sequence a leaf holds at a scope, for [add]: the value written at
    that scope, else the schema default; a single string counts as a
    one-element sequence. *)
Definition seq_of (v : value) : list string :=
  match v with
  | VList l => l
  | VStr s => [s]
  | _ => []
  end.

Definition stored (m : manifest) (k : keypath) (sc : scope) : value :=
  match leaf_of m k !! sc with
  | Some v => v
  | None => default_of m k
  end.

(** Modelled from the spec: "append to an ordered-sequence-valued leaf
    rather than replace". *)
Definition add (m : manifest) (k : keypath) (v : string) (sc : scope) : manifest :=
  write m k sc (VList (seq_of (stored m k sc) ++ [v])).

(** Modelled from the spec: [valid] is an existence check: the key-path
    names a leaf of the store. *)
Definition valid (m : manifest) (k : keypath) : bool :=
  bool_decide (is_Some (leaves m !! k)).

(** The segment that follows prefix [p] in key-path [k], if [k] extends
    [p] properly. *)
Fixpoint child_of (p k : keypath) : option string :=
  match p, k with
  | [], s :: _ => Some s
  | a :: p', b :: k' => if String.eqb a b then child_of p' k' else None
  | _, _ => None
  end.

(** The distinct segments that follow prefix [p] among the key-paths of
    the store. *)
Definition children (m : manifest) (p : keypath) : gset string :=
  set_omap (child_of p) (dom (leaves m)).

(** Modelled from the spec: [getkeys] lists the segments that follow a
    key-path among the leaves of the store (in the order [elements] gives). *)
Definition getkeys (m : manifest) (p : keypath) : list string :=
  elements (children m p).

End Schema.

(* ===================================================================== *)
(** * The chip object *)
(* ===================================================================== *)

(** The mutable state of a [Chip]: its manifest and the error messages sent
    to its logger. *)
Record chip : Type := Chip {
  cfg : manifest;
  logged : list string
}.

(** The collaborators of the adapter that are not part of the sources: the
    host's processor count ([os.cpu_count()], [None] when undetermined) and
    the chip methods [top], [_get_task], [find_files] and
    [_get_flowgraph_exit_nodes]. *)
Record host : Type := Host {
  os_cpu_count : option Z;
  chip_top : manifest -> string;
  chip_get_task : manifest -> value -> value -> string;
  chip_find_files : manifest -> keypath -> list string;
  chip_get_flowgraph_exit_nodes : manifest -> list node
}.

(** Statements: the chip is threaded through, and a statement either
    completes with a value or raises; the chip keeps the writes made before
    the exception. *)
Definition M (A : Type) : Type := chip -> chip * result A.

Definition ret {A} (a : A) : M A := fun c => (c, Ok a).
Definition raise {A} (e : exn) : M A := fun c => (c, Raise e).
Definition bind {A B} (m : M A) (k : A -> M B) : M B :=
  fun c => match m c with
           | (c', Ok a) => k a c'
           | (c', Raise e) => (c', Raise e)
           end.
Definition lift {A} (r : result A) : M A := fun c => (c, r).

Declare Scope py_scope.
Delimit Scope py_scope with py.
Notation "x <- m ;; k" := (bind m (fun x => k))
  (at level 20, m at level 99, k at level 200, only parsing) : py_scope.
Notation "m ;; k" := (bind m (fun _ => k))
  (at level 100, k at level 200, right associativity, only parsing) : py_scope.
Local Open Scope py_scope.

(** [for x in l: body x] *)
Fixpoint for_each {A} (l : list A) (body : A -> M unit) : M unit :=
  match l with
  | [] => ret tt
  | x :: l' => body x ;; for_each l' body
  end.

(** [if b: body] *)
Definition when (b : bool) (body : M unit) : M unit :=
  if b then body else ret tt.

(** The scope named by the keyword arguments [step=step, index=index]. *)
Definition opt_str (v : value) : option string :=
  match v with VStr s => Some s | _ => None end.
Definition scope_of (step index : value) : scope := (opt_str step, opt_str index).

(** The chip methods, as statements. *)
Definition chip_get (k : keypath) (sc : scope) : M value :=
  fun c => (c, Ok (Schema.get (cfg c) k sc)).
Definition chip_set (k : keypath) (v : value) (sc : scope) (clobber : bool) : M unit :=
  fun c => (Chip (Schema.set (cfg c) k v sc clobber) (logged c), Ok tt).
Definition chip_add (k : keypath) (v : string) (sc : scope) : M unit :=
  fun c => (Chip (Schema.add (cfg c) k v sc) (logged c), Ok tt).
Definition chip_valid (k : keypath) : M bool :=
  fun c => (c, Ok (Schema.valid (cfg c) k)).
Definition chip_getkeys (k : keypath) : M (list string) :=
  fun c => (c, Ok (Schema.getkeys (cfg c) k)).
Definition reads {A} (f : manifest -> A) : M A :=
  fun c => (c, Ok (f (cfg c))).
Definition reads_result {A} (f : manifest -> result A) : M A :=
  fun c => (c, f (cfg c)).

(** [chip.logger.error(msg)] *)
Definition logger_error (msg : string) : M unit :=
  fun c => (Chip (cfg c) (logged c ++ [msg]), Ok tt).

(** Modelled from the spec: [chip.error(msg)] reports a configuration error,
    which is fatal: it raises. *)
Definition chip_error (msg : string) : M unit :=
  raise (SiliconCompilerError msg).

(** [",".join(segments)] *)
Definition join_path (segs : list value) : result string :=
  match strs_of segs with
  | Ok ss => Ok (PyStr.join "," ss)
  | Raise e => Raise e
  end.

(** A key-path some of whose segments are manifest values. *)
Definition path_of (segs : list value) : result keypath := strs_of segs.

(* ===================================================================== *)
(** * openroad.py: the corner helpers *)
(* ===================================================================== *)

Fixpoint fold_result {A S} (f : S -> A -> result S) (l : list A) (s : S) : result S :=
  match l with
  | [] => Ok s
  | x :: l' => match f s x with
               | Ok s' => fold_result f l' s'
               | Raise e => Raise e
               end
  end.

Definition arg_scope (m : manifest) : scope :=
  scope_of (Schema.get m ["arg"; "step"] global) (Schema.get m ["arg"; "index"] global).

(** [get_pex_corners(chip)], openroad.py lines 353-364.  The set [corners]
    is listed in the order [elements] gives. *)
Definition get_pex_corners (m : manifest) : result (list string) :=
  let sc := arg_scope m in
  match fold_result (fun (corners : gset string) constraint =>
           let pexcorner := Schema.get m ["constraint"; "timing"; constraint; "pexcorner"] sc in
           if truthy pexcorner
           then match as_str pexcorner with
                | Ok p => Ok ({[p]} ∪ corners)
                | Raise e => Raise e
                end
           else Ok corners)
         (Schema.getkeys m ["constraint"; "timing"]) ∅ with
  | Ok corners => Ok (elements corners)
  | Raise e => Raise e
  end.

(** [get_corners(chip)], openroad.py lines 366-377. *)
Definition get_corners (m : manifest) : result (list string) :=
  let sc := arg_scope m in
  match fold_result (fun (corners : gset string) constraint =>
           let libcorner := Schema.get m ["constraint"; "timing"; constraint; "libcorner"] sc in
           if truthy libcorner
           then match as_list libcorner with
                | Ok l => Ok (list_to_set l ∪ corners)
                | Raise e => Raise e
                end
           else Ok corners)
         (Schema.getkeys m ["constraint"; "timing"]) ∅ with
  | Ok corners => Ok (elements corners)
  | Raise e => Raise e
  end.

(** [check in v] for the value of a 'check' leaf: membership in a list,
    substring of a string. *)
Definition value_contains (check : string) (v : value) : result bool :=
  match v with
  | VList l => Ok (bool_decide (check ∈ l))
  | VStr s => Ok (PyStr.contains check s)
  | _ => Raise TypeError
  end.

(** The loop of [get_corner_by_check]: [Ok (Some c)] when an iteration
    returns [c], [Ok None] when the loop runs to its end. *)
Fixpoint corner_by_check_loop (m : manifest) (sc : scope) (check : string)
    (constraints : list string) : result (option string) :=
  match constraints with
  | [] => Ok None
  | constraint :: rest =>
      match value_contains check
              (Schema.get m ["constraint"; "timing"; constraint; "check"] sc) with
      | Raise e => Raise e
      | Ok false => corner_by_check_loop m sc check rest
      | Ok true =>
          let libcorner := Schema.get m ["constraint"; "timing"; constraint; "libcorner"] sc in
          if truthy libcorner
          then match as_list libcorner with
               | Raise e => Raise e
               | Ok l => match py_first l with
                         | Ok c => Ok (Some c)
                         | Raise e => Raise e
                         end
               end
          else corner_by_check_loop m sc check rest
      end
  end.

(** [get_corner_by_check(chip, check)], openroad.py lines 379-393. *)
Definition get_corner_by_check (m : manifest) (check : string) : result string :=
  match corner_by_check_loop m (arg_scope m) check
          (Schema.getkeys m ["constraint"; "timing"]) with
  | Raise e => Raise e
  | Ok (Some c) => Ok c
  | Ok None =>
      match get_corners m with
      | Raise e => Raise e
      | Ok corners => py_first corners
      end
  end.

(** [get_power_corner(chip)], openroad.py lines 395-397. *)
Definition get_power_corner (m : manifest) : result string :=
  get_corner_by_check m "power".

(** [get_setup_corner(chip)], openroad.py lines 399-401. *)
Definition get_setup_corner (m : manifest) : result string :=
  get_corner_by_check m "setup".

(* ===================================================================== *)
(** * openroad.py: setup *)
(* ===================================================================== *)

Definition tool : string := "openroad".
Definition script : string := "sc_apr.tcl".
Definition refdir : string := "tools/" +:+ tool.

(** The local variables of [setup] read at its start (lines 52-64) or
    derived from [mode] (lines 66-80). *)
Record locals : Type := Locals {
  design : string;
  step : value;
  index : value;
  flow : value;
  task : string;
  pdkname : value;
  targetlibs : list string;
  mainlib : string;
  macrolibs : value;
  stackup : value;
  delaymodel : value;
  libtype : value;
  clobber : bool;
  option_s : string  (* the local [option] *)
}.

(** The scope [step=step, index=index] of the node being set up. *)
Definition node_scope (L : locals) : scope := scope_of (step L) (index L).

(** The key-path ['tool', tool, 'task', task, ...]. *)
Definition task_key (L : locals) (rest : keypath) : keypath :=
  "tool" :: tool :: "task" :: task L :: rest.

(** Lines 66-80: [is_screenshot], [is_show_screenshot], [clobber] and the
    [option] string.  [breakpoint] is the value of
    [chip.get('option', 'breakpoint', step=step, index=index)]. *)
Definition is_screenshot (mode tsk : string) : bool :=
  String.eqb mode "screenshot" || String.eqb tsk "screenshot".
Definition is_show_screenshot (mode tsk : string) : bool :=
  String.eqb mode "show" || String.eqb tsk "show" || is_screenshot mode tsk.
Definition mode_after (mode tsk : string) : string :=
  if is_show_screenshot mode tsk then "show" else mode.
Definition option_string (mode tsk : string) (breakpoint : value) : string :=
  let opt := "" in
  let opt :=
    if (String.eqb (mode_after mode tsk) "batch" || is_screenshot mode tsk)
       && negb (truthy breakpoint)
    then opt +:+ " -exit" else opt in
  opt +:+ " -metrics reports/metrics.json".

(** Lines 52-80. *)
Definition read_locals (h : host) (mode : string) : M locals :=
  design <- reads (chip_top h) ;;
  step <- chip_get ["arg"; "step"] global ;;
  index <- chip_get ["arg"; "index"] global ;;
  flow <- chip_get ["option"; "flow"] global ;;
  task <- reads (fun m => chip_get_task h m step index) ;;
  pdkname <- chip_get ["option"; "pdk"] global ;;
  targetlibs_v <- chip_get ["asic"; "logiclib"] global ;;
  targetlibs <- lift (as_list targetlibs_v) ;;
  mainlib <- lift (py_first targetlibs) ;;
  macrolibs <- chip_get ["asic"; "macrolib"] global ;;
  stackup <- chip_get ["option"; "stackup"] global ;;
  delaymodel <- chip_get ["asic"; "delaymodel"] global ;;
  libtype <- chip_get ["library"; mainlib; "asic"; "libarch"] global ;;
  breakpoint <- chip_get ["option"; "breakpoint"] (scope_of step index) ;;
  ret (Locals design step index flow task pdkname targetlibs mainlib macrolibs
         stackup delaymodel libtype
         (is_show_screenshot mode task)
         (option_string mode task breakpoint)).

(** Lines 83-86: settings fixed for the tool. *)
Definition setup_fixed (L : locals) : M unit :=
  chip_set ["tool"; tool; "exe"] (VStr tool) global true ;;
  chip_set ["tool"; tool; "vswitch"] (VStr "-version") global true ;;
  chip_set ["tool"; tool; "version"] (VStr ">=v2.0-6445") global (clobber L) ;;
  chip_set ["tool"; tool; "format"] (VStr "tcl") global (clobber L).

(** [step in keys] *)
Definition value_in (v : value) (keys : list string) : bool :=
  match v with VStr s => bool_decide (s ∈ keys) | _ => false end.

(** The value of [os.cpu_count()]. *)
Definition cpu_count_value (h : host) : value :=
  match os_cpu_count h with Some n => VInt n | None => VNone end.

(** [int(math.ceil(os.cpu_count() / np))] *)
Definition threads_per_index (h : host) (np : Z) : result value :=
  match os_cpu_count h with
  | None => Raise TypeError
  | Some n => if np =? 0 then Raise ZeroDivisionError else Ok (VInt (ceil_div n np))
  end.

(** Lines 88-92: the thread count, normalized by the fan-out of the step
    when the run is local.  These lines only read the manifest. *)
Definition compute_threads (h : host) (L : locals) (m : manifest) : result value :=
  let remote := Schema.get m ["option"; "remote"] global in
  if negb (truthy remote)
  then
    match as_str (flow L) with
    | Raise e => Raise e
    | Ok flow_s =>
        let steps := Schema.getkeys m ["flowgraph"; flow_s] in
        if value_in (step L) steps
        then
          match as_str (step L) with
          | Raise e => Raise e
          | Ok step_s =>
              let indices := Schema.getkeys m ["flowgraph"; flow_s; step_s] in
              threads_per_index h (Z.of_nat (length indices))
          end
        else Ok (cpu_count_value h)
    end
  else Ok (cpu_count_value h).

(** Lines 96-104: inputs and outputs of the default asicflow steps. *)
Definition setup_io (L : locals) (threads : value) : M unit :=
  let sc := node_scope L in
  chip_set (task_key L ["option"]) (VStr (option_s L)) sc (clobber L) ;;
  chip_set (task_key L ["refdir"]) (VStr refdir) sc (clobber L) ;;
  chip_set (task_key L ["script"]) (VStr script) sc (clobber L) ;;
  chip_set (task_key L ["threads"]) threads sc (clobber L) ;;
  chip_add (task_key L ["output"]) (design L +:+ ".sdc") sc ;;
  chip_add (task_key L ["output"]) (design L +:+ ".vg") sc ;;
  chip_add (task_key L ["output"]) (design L +:+ ".def") sc ;;
  chip_add (task_key L ["output"]) (design L +:+ ".odb") sc.

(** Lines 106-108. *)
Definition setup_nodisplay (L : locals) : M unit :=
  nodisplay <- chip_get ["option"; "nodisplay"] global ;;
  when (truthy nodisplay)
    (chip_set (task_key L ["env"; "QT_QPA_PLATFORM"]) (VStr "offscreen")
       (node_scope L) true).

(** Lines 110-111: the delay model check. *)
Definition delaymodel_message (delaymodel : value) : string :=
  py_format delaymodel +:+ " delay model is not supported by " +:+ tool
  +:+ ", only nldm".

Definition check_delaymodel (L : locals) : M unit :=
  when (negb (value_is (delaymodel L) "nldm"))
    (logger_error (delaymodel_message (delaymodel L))).

(** [chip.add('tool', tool, 'task', task, 'require', ",".join(segs), ...)] *)
Definition add_require (L : locals) (segs : list value) : M unit :=
  keypath <- lift (join_path segs) ;;
  chip_add (task_key L ["require"]) keypath (node_scope L).

(** Lines 120-127: the tapcell file. *)
Definition setup_tapcell (h : host) (L : locals) : M unit :=
  in_lib <- chip_valid ["library"; mainlib L; "option"; "file"; "openroad_tapcells"] ;;
  tapfile <-
    (if in_lib : bool
     then reads (fun m => chip_find_files h m
                   ["library"; mainlib L; "option"; "file"; "openroad_tapcells"])
     else
       pdk_key <- lift (path_of [VStr "pdk"; pdkname L; VStr "aprtech"; VStr tool;
                                 stackup L; libtype L; VStr "tapcells"]) ;;
       in_pdk <- chip_valid pdk_key ;;
       if in_pdk : bool
       then reads (fun m => chip_find_files h m pdk_key)
       else ret []) ;;
  when (match tapfile with [] => false | _ => true end)
    (chip_set (task_key L ["var"; "ifp_tapcell"]) (VList tapfile) (node_scope L) false).

(** Lines 130-133: the requirements of the target libraries. *)
Definition require_targetlibs (L : locals) (corners : list string) : M unit :=
  for_each (targetlibs L) (fun lib =>
    for_each corners (fun corner =>
      add_require L [VStr "library"; VStr lib; VStr "output"; VStr corner; delaymodel L]) ;;
    add_require L [VStr "library"; VStr lib; VStr "output"; stackup L; VStr "lef"]).

(** Lines 134-138: the requirements of the macro libraries. *)
Definition require_macrolibs (L : locals) (corners : list string) : M unit :=
  libs <- lift (as_list (macrolibs L)) ;;
  for_each libs (fun lib =>
    for_each corners (fun corner =>
      key <- lift (path_of [VStr "library"; VStr lib; VStr "output"; VStr corner;
                            delaymodel L]) ;;
      present <- chip_valid key ;;
      when present
        (add_require L [VStr "library"; VStr lib; VStr "output"; VStr corner;
                        delaymodel L])) ;;
    add_require L [VStr "library"; VStr lib; VStr "output"; stackup L; VStr "lef"]).

(** Lines 113-140.  [targetlibs] is non-empty here: [targetlibs[0]] was
    read at line 60. *)
Definition setup_libs (h : host) (L : locals) : M unit :=
  if truthy (stackup L) && match targetlibs L with [] => false | _ => true end
  then
    add_require L [VStr "asic"; VStr "logiclib"] ;;
    add_require L [VStr "option"; VStr "stackup"] ;;
    add_require L [VStr "library"; VStr (mainlib L); VStr "asic"; VStr "site"; libtype L] ;;
    add_require L [VStr "pdk"; pdkname L; VStr "aprtech"; VStr "openroad"; stackup L;
                   libtype L; VStr "lef"] ;;
    setup_tapcell h L ;;
    corners <- reads_result get_corners ;;
    require_targetlibs L corners ;;
    require_macrolibs L corners
  else chip_error "Stackup and logiclib parameters required for OpenROAD.".

(** Lines 142-145. *)
Definition setup_corner_vars (L : locals) : M unit :=
  let sc := node_scope L in
  timing_corners <- reads_result get_corners ;;
  chip_set (task_key L ["var"; "timing_corners"]) (VList timing_corners) sc false ;;
  pex_corners <- reads_result get_pex_corners ;;
  chip_set (task_key L ["var"; "pex_corners"]) (VList pex_corners) sc false ;;
  power_corner <- reads_result get_power_corner ;;
  chip_set (task_key L ["var"; "power_corner"]) (VStr power_corner) sc false ;;
  chip_set (task_key L ["var"; "parasitics"]) (VStr "inputs/sc_parasitics.tcl") sc true.

(** Line 147: the table the tie-cell loop iterates over. *)
Definition tiecell_table : list (string * string) :=
  [("openroad_tiehigh_cell", "openroad_tiehigh_port");
   ("openroad_tiehigh_cell", "openroad_tiehigh_port")].

(** Lines 148-153: the body of the tie-cell loop. *)
Definition tiecell_body (L : locals) (vars : string * string) : M unit :=
  let (var0, var1) := vars in
  let key0 := ["library"; mainlib L; "option"; "var"; tool; var0] in
  let key1 := ["library"; mainlib L; "option"; "var"; tool; var1] in
  valid0 <- chip_valid key0 ;;
  when valid0 (chip_add (task_key L ["require"]) (PyStr.join "," key1) (node_scope L)) ;;
  valid1 <- chip_valid key1 ;;
  when valid1 (chip_add (task_key L ["require"]) (PyStr.join "," key0) (node_scope L)).

(** Lines 147-153. *)
Definition setup_tiecells (L : locals) : M unit :=
  for_each tiecell_table (tiecell_body L).

(** Lines 155-158. *)
Definition setup_pdk_requires (L : locals) : M unit :=
  add_require L [VStr "pdk"; pdkname L; VStr "var"; VStr "openroad";
                 VStr "rclayer_signal"; stackup L] ;;
  add_require L [VStr "pdk"; pdkname L; VStr "var"; VStr "openroad";
                 VStr "rclayer_clock"; stackup L] ;;
  add_require L [VStr "pdk"; pdkname L; VStr "var"; VStr "openroad";
                 VStr "pin_layer_horizontal"; stackup L] ;;
  add_require L [VStr "pdk"; pdkname L; VStr "var"; VStr "openroad";
                 VStr "pin_layer_vertical"; stackup L].

(** Lines 160-166. *)
Definition variables : list string :=
  ["place_density"; "pad_global_place"; "pad_detail_place";
   "macro_place_halo"; "macro_place_channel"].

(** Lines 171-182: the body of the loop over [variables]. *)
Definition variable_body (L : locals) (variable : string) : M unit :=
  let var_key := ["library"; mainlib L; "option"; "var"; "openroad_" +:+ variable] in
  present <- chip_valid var_key ;;
  when present
    (value <- chip_get var_key global ;;
     chip_set (task_key L ["var"; variable]) value (node_scope L) false ;;
     chip_add (task_key L ["require"]) (PyStr.join "," var_key) (node_scope L)) ;;
  chip_add (task_key L ["require"])
    (PyStr.join "," (task_key L ["var"; variable])) (node_scope L).

(** Lines 167-182. *)
Definition setup_variables (L : locals) : M unit :=
  for_each variables (variable_body L).

(** Lines 184-190: values copied from the PDK. *)
Definition setup_pdk_copy (L : locals) : M unit :=
  for_each ["detailed_route_default_via"; "detailed_route_unidirectional_layer"]
    (fun variable =>
       key <- lift (path_of [VStr "pdk"; pdkname L; VStr "var"; VStr tool; stackup L;
                             VStr variable]) ;;
       present <- chip_valid key ;;
       when present
         (value <- chip_get key global ;;
          chip_set (task_key L ["var"; variable]) value (node_scope L) false)).

(** Lines 193-231: the table of default values; [minlayer] and [maxlayer]
    are the values read from the PDK. *)
Definition default_vars (minlayer maxlayer : value) : list (string * value) :=
  [("ifp_tie_separation", VStr "0");
   ("pdn_enable", VStr "true");
   ("gpl_routability_driven", VStr "true");
   ("gpl_timing_driven", VStr "true");
   ("dpo_enable", VStr "true");
   ("dpo_max_displacement", VStr "0");
   ("dpl_max_displacement", VStr "0");
   ("cts_distance_between_buffers", VStr "100");
   ("cts_cluster_diameter", VStr "100");
   ("cts_cluster_size", VStr "30");
   ("cts_balance_levels", VStr "true");
   ("ant_iterations", VStr "3");
   ("ant_margin", VStr "0");
   ("grt_use_pin_access", VStr "false");
   ("grt_overflow_iter", VStr "100");
   ("grt_macro_extension", VStr "2");
   ("grt_allow_congestion", VStr "false");
   ("grt_allow_overflow", VStr "false");
   ("grt_signal_min_layer", minlayer);
   ("grt_signal_max_layer", maxlayer);
   ("grt_clock_min_layer", minlayer);
   ("grt_clock_max_layer", maxlayer);
   ("drt_disable_via_gen", VStr "false");
   ("drt_process_node", VStr "false");
   ("drt_via_in_pin_bottom_layer", VStr "false");
   ("drt_via_in_pin_top_layer", VStr "false");
   ("drt_repair_pdn_vias", VStr "false");
   ("drt_via_repair_post_route", VStr "false");
   ("rsz_setup_slack_margin", VStr "0.0");
   ("rsz_hold_slack_margin", VStr "0.0");
   ("rsz_slew_margin", VStr "0.0");
   ("rsz_cap_margin", VStr "0.0");
   ("rsz_buffer_inputs", VStr "false");
   ("rsz_buffer_outputs", VStr "false");
   ("sta_early_timing_derate", VStr "0.0");
   ("sta_late_timing_derate", VStr "0.0");
   ("fin_add_fill", VStr "true");
   ("psm_enable", VStr "true")].

(** Lines 192-232: default values for openroad. *)
Definition setup_defaults (L : locals) : M unit :=
  min_key <- lift (path_of [VStr "pdk"; pdkname L; VStr "minlayer"; stackup L]) ;;
  minlayer <- chip_get min_key global ;;
  max_key <- lift (path_of [VStr "pdk"; pdkname L; VStr "maxlayer"; stackup L]) ;;
  maxlayer <- chip_get max_key global ;;
  for_each (default_vars minlayer maxlayer) (fun entry =>
    chip_set (task_key L ["var"; fst entry]) (snd entry) (node_scope L) false).

(** Lines 234-245: the PDN and global-connect files copied from the
    libraries. *)
Definition setup_pdn (h : host) (L : locals) : M unit :=
  for_each [("openroad_pdngen", "pdn_config");
            ("openroad_global_connect", "global_connect")]
    (fun names =>
       let (libvar, openroadvar) := names : string * string in
       present <- chip_valid (task_key L ["var"; openroadvar]) ;;
       current <- chip_get (task_key L ["var"; openroadvar]) (node_scope L) ;;
       if present && negb (truthy current)
       then ret tt
       else
         libs <- lift (match as_list (macrolibs L) with
                       | Ok ml => Ok (targetlibs L ++ ml)
                       | Raise e => Raise e
                       end) ;;
         for_each libs (fun lib =>
           in_lib <- chip_valid ["library"; lib; "option"; "file"; libvar] ;;
           when in_lib
             (files <- reads (fun m => chip_find_files h m
                                ["library"; lib; "option"; "file"; libvar]) ;;
              for_each files (fun pdn_config =>
                chip_add (task_key L ["var"; openroadvar]) pdn_config (node_scope L))))).

(** Lines 247-251: the warning and error patterns of the log scan. *)
Definition setup_regex (L : locals) : M unit :=
  chip_set (task_key L ["regex"; "warnings"]) (VStr "^\[WARNING|^Warning")
    (node_scope L) false ;;
  chip_set (task_key L ["regex"; "errors"]) (VStr "^\[ERROR") (node_scope L) false.

(** Lines 254-257: the metrics bound to the report file. *)
Definition report_metrics : list string :=
  ["vias"; "wirelength"; "cellarea"; "totalarea"; "utilization"; "setuptns";
   "holdtns"; "setupslack"; "holdslack"; "setuppaths"; "holdpaths";
   "unconstrained"; "peakpower"; "leakagepower"; "pins"; "cells"; "macros";
   "nets"; "registers"; "buffers"; "drvs"; "setupwns"; "holdwns"].

(** Lines 253-258. *)
Definition setup_reports (L : locals) : M unit :=
  for_each report_metrics (fun metric =>
    chip_set (task_key L ["report"; metric]) (VStr "reports/metrics.json")
      (node_scope L) true).

(** What follows the delay model check: lines 113-258. *)
Definition setup_rest (h : host) (L : locals) : M unit :=
  setup_libs h L ;;
  setup_corner_vars L ;;
  setup_tiecells L ;;
  setup_pdk_requires L ;;
  setup_variables L ;;
  setup_pdk_copy L ;;
  setup_defaults L ;;
  setup_pdn h L ;;
  setup_regex L ;;
  setup_reports L.

(** Lines 82-258: [setup] once its locals are read. *)
Definition setup_body (h : host) (L : locals) : M unit :=
  setup_fixed L ;;
  threads <- reads_result (compute_threads h L) ;;
  setup_io L threads ;;
  setup_nodisplay L ;;
  check_delaymodel L ;;
  setup_rest h L.

(** [setup(chip, mode)], openroad.py lines 44-258. *)
Definition setup (h : host) (mode : string) : M unit :=
  L <- read_locals h mode ;;
  setup_body h L.

(* ===================================================================== *)
(** * openroad.py: post_process *)
(* ===================================================================== *)

(** Lines 303-322: the report entries copied under canonical names. *)
Definition metric_table : list (string * string) :=
  [("vias", "sc__step__route__vias");
   ("wirelength", "sc__step__route__wirelength");
   ("cellarea", "sc__metric__design__instance__area");
   ("totalarea", "sc__metric__design__core__area");
   ("utilization", "sc__metric__design__instance__utilization");
   ("setuptns", "sc__metric__timing__setup__tns");
   ("holdtns", "sc__metric__timing__hold__tns");
   ("setupslack", "sc__metric__timing__setup__ws");
   ("holdslack", "sc__metric__timing__hold__ws");
   ("setuppaths", "sc__metric__timing__drv__setup_violation_count");
   ("holdpaths", "sc__metric__timing__drv__hold_violation_count");
   ("unconstrained", "sc__metric__timing__unconstrained");
   ("peakpower", "sc__metric__power__total");
   ("leakagepower", "sc__metric__power__leakage__total");
   ("pins", "sc__metric__design__io");
   ("cells", "sc__metric__design__instance__count");
   ("macros", "sc__metric__design__instance__count__macros");
   ("nets", "sc__metric__design__nets");
   ("registers", "sc__metric__design__registers");
   ("buffers", "sc__metric__design__buffers")].

Definition setup_ws : string := "sc__metric__timing__setup__ws".
Definition hold_ws : string := "sc__metric__timing__hold__ws".

(** Lines 336-341: the violation counters that make up [drvs]. *)
Definition drv_counters : list string :=
  ["sc__metric__timing__drv__max_slew";
   "sc__metric__timing__drv__max_cap";
   "sc__metric__timing__drv__max_fanout";
   "sc__step__route__drc_errors";
   "sc__metric__antenna__violating__nets";
   "sc__metric__antenna__violating__pins"].

(** Lines 323-324. *)
Definition copy_metric (metrics : gmap string jval) (sc : scope)
    (entry : string * string) : M unit :=
  let (metric, openroad_metric) := entry in
  match metrics !! openroad_metric with
  | Some v => chip_set ["metric"; metric] (value_of_jval v) sc true
  | None => ret tt
  end.

(** Lines 327-329 and 331-333: a worst negative slack from a worst slack. *)
Definition derive_wns (metrics : gmap string jval) (sc : scope)
    (raw_name metric : string) : M unit :=
  match metrics !! raw_name with
  | Some v =>
      slack <- lift (py_float v) ;;
      let wns := py_min 0%float slack in
      chip_set ["metric"; metric] (VFloat wns) sc true
  | None => ret tt
  end.

(** Lines 342-346: one step of the accumulation of [drvs]. *)
Definition drvs_step (metrics : gmap string jval) (drvs : option Z)
    (metric : string) : result (option Z) :=
  match metrics !! metric with
  | Some v =>
      match py_int v with
      | Raise e => Raise e
      | Ok n => match drvs with
                | None => Ok (Some n)
                | Some d => Ok (Some (d + n))
                end
      end
  | None => Ok drvs
  end.

(** Lines 335-349: the design rule violation count. *)
Definition record_drvs (metrics : gmap string jval) (sc : scope) : M unit :=
  drvs <- lift (fold_result (drvs_step metrics) drv_counters None) ;;
  match drvs with
  | Some d => chip_set ["metric"; "drvs"] (VInt d) sc true
  | None => ret tt
  end.

(** [post_process(chip)], openroad.py lines 290-349.  [metrics] is the
    mapping loaded from reports/metrics.json. *)
Definition post_process (metrics : gmap string jval) : M unit :=
  step <- chip_get ["arg"; "step"] global ;;
  index <- chip_get ["arg"; "index"] global ;;
  let sc := scope_of step index in
  for_each metric_table (copy_metric metrics sc) ;;
  derive_wns metrics sc setup_ws "setupwns" ;;
  derive_wns metrics sc hold_ws "holdwns" ;;
  record_drvs metrics sc.

(** The sum the specification describes: over the counters present in the
    report, of their integer values. *)
Definition present_counters (metrics : gmap string jval) : list jval :=
  omap (fun name => metrics !! name) drv_counters.

Definition int_or_zero (v : jval) : Z :=
  match py_int v with Ok n => n | Raise _ => 0 end.

Definition drvs_sum (metrics : gmap string jval) : Z :=
  foldr Z.add 0 (map int_or_zero (present_counters metrics)).

(* ===================================================================== *)
(** * report.py: the winning path *)
(* ===================================================================== *)

(** [chip.get('flowgraph', flow, *node, 'select')] *)
Definition select_of (m : manifest) (flow : value) (n : node) : result (list node) :=
  match as_str flow with
  | Raise e => Raise e
  | Ok flow_s =>
      as_nodes (Schema.get m ["flowgraph"; flow_s; fst n; snd n; "select"] global)
  end.

(** [to_search.pop(-1)]: the list without its last element, and that
    element. *)
Definition pop_last {A} (l : list A) : option (list A * A) :=
  match last l with
  | Some x => Some (removelast l, x)
  | None => None
  end.

(** Lines 225-227: one iteration of the loop over [input_nodes]. *)
Definition visit (acc : gset node * list node) (selected : node)
    : gset node * list node :=
  if bool_decide (selected ∈ acc.1) then acc
  else ({[selected]} ∪ acc.1, acc.2 ++ [selected]).

(** Lines 221-227: the search loop, run for at most [fuel] iterations;
    [None] when the fuel runs out. *)
Fixpoint search_back (fuel : nat) (m : manifest) (flow : value)
    (selected_nodes : gset node) (to_search : list node)
    : option (result (gset node)) :=
  match fuel with
  | O => None
  | S fuel' =>
      match pop_last to_search with
      | None => Some (Ok selected_nodes)
      | Some (rest, n) =>
          match select_of m flow n with
          | Raise e => Some (Raise e)
          | Ok input_nodes =>
              let acc := fold_left visit input_nodes (selected_nodes, rest) in
              search_back fuel' m flow acc.1 acc.2
          end
      end
  end.

(** Lines 217-219: the end nodes are selected and queued. *)
Definition enqueue (acc : gset node * list node) (n : node) : gset node * list node :=
  ({[n]} ∪ acc.1, acc.2 ++ [n]).

(** Lines 209-210: the flow of the run, [chip.get('option', 'flow')]. *)
Definition flow_of (m : manifest) : value := Schema.get m ["option"; "flow"] global.

(** Lines 214-216: the end nodes the search starts from; by default the
    exit nodes of the flow. *)
Definition start_nodes (h : host) (m : manifest) (end_nodes : option (list node))
    : list node :=
  match end_nodes with
  | None => chip_get_flowgraph_exit_nodes h m
  | Some l => l
  end.

(** [get_flowgraph_path(chip, end_nodes)], report.py lines 196-228. *)
Definition get_flowgraph_path (fuel : nat) (h : host) (m : manifest)
    (end_nodes : option (list node)) : option (result (gset node)) :=
  let flow := flow_of m in
  let end_nodes := start_nodes h m end_nodes in
  let acc := fold_left enqueue end_nodes (∅, []) in
  search_back fuel m flow acc.1 acc.2.

(** A set of nodes is closed under following 'select' edges backward. *)
Definition select_closed (m : manifest) (flow : value) (S : gset node) : Prop :=
  forall n l x, n ∈ S -> select_of m flow n = Ok l -> x ∈ l -> x ∈ S.

(* ===================================================================== *)
(** * report.py: searching the manifest *)
(* ===================================================================== *)

(** A Python object of the manifest dictionary: a dictionary (its items in
    order, the keys distinct) or another value. *)
#[warnings="-register-all"] Inductive pyobj : Type :=
| PDict (items : list (string * pyobj))
| PVal (v : value).

Definition pydict : Type := list (string * pyobj).

(** [search_manifest_keys] on the dictionary [o]; the inner loop is the
    [for dict_key in manifest] of the source. *)
Fixpoint search_manifest_keys_obj (key : string) (o : pyobj) : pydict :=
  match o with
  | PVal _ => []
  | PDict manifest =>
      (fix loop (l : pydict) : pydict :=
         match l with
         | [] => []
         | (dict_key, v) :: rest =>
             let filtered := loop rest in
             if PyStr.contains key dict_key then (dict_key, v) :: filtered
             else match v with
                  | PDict _ =>
                      match search_manifest_keys_obj key v with
                      | [] => filtered
                      | result => (dict_key, PDict result) :: filtered
                      end
                  | PVal _ => filtered
                  end
         end) manifest
  end.

(** [search_manifest_keys(manifest, key)], report.py lines 231-247. *)
Definition search_manifest_keys (manifest : pydict) (key : string) : pydict :=
  search_manifest_keys_obj key (PDict manifest).

(** [search_manifest_values] on the dictionary [o]. *)
Fixpoint search_manifest_values_obj (value : string) (o : pyobj) : pydict :=
  match o with
  | PVal _ => []
  | PDict manifest =>
      (fix loop (l : pydict) : pydict :=
         match l with
         | [] => []
         | (key, v) :: rest =>
             let filtered := loop rest in
             match v with
             | PDict _ =>
                 match search_manifest_values_obj value v with
                 | [] => filtered
                 | result => (key, PDict result) :: filtered
                 end
             | PVal (VStr s) =>
                 if PyStr.contains value s then (key, v) :: filtered else filtered
             | PVal _ => filtered
             end
         end) manifest
  end.

(** [search_manifest_values(manifest, value)], report.py lines 250-266. *)
Definition search_manifest_values (manifest : pydict) (value : string) : pydict :=
  search_manifest_values_obj value (PDict manifest).

(** Truthiness of an optional search term: [None] and the empty string are
    false. *)
Definition given (term : option string) : option string :=
  match term with
  | Some s => if PyStr.is_empty s then None else Some s
  | None => None
  end.

(** [search_manifest(manifest, key_search, value_search)], report.py lines
    269-292. *)
Definition search_manifest (manifest : pydict) (key_search value_search : option string)
    : pydict :=
  let return_manifest := manifest in
  let return_manifest :=
    match given key_search with
    | Some key => search_manifest_keys return_manifest key
    | None => return_manifest
    end in
  let return_manifest :=
    match given value_search with
    | Some value => search_manifest_values return_manifest value
    | None => return_manifest
    end in
  return_manifest.

(** The nodes a manifest can name in a 'select' leaf: those of the values
    written in its leaves and of the defaults of its schema. *)
Definition nodes_of_value (v : value) : list node :=
  match v with VNodes l => l | _ => [] end.

Definition all_values (m : manifest) : list value :=
  map snd (schema m)
  ++ flat_map (fun kl => map snd (map_to_list (snd kl))) (map_to_list (leaves m)).

Definition universe (m : manifest) (ends : list node) : gset node :=
  list_to_set ends ∪ list_to_set (flat_map nodes_of_value (all_values m)).


(* ===================================================================== *)
(** * Specification predicates *)
(* ===================================================================== *)

Definition not_space (c : ascii) : bool := negb (PyStr.is_space c).

(** [t] is the last whitespace-delimited token of [s]: a non-empty run of
    non-whitespace characters, followed by whitespace only, and preceded by
    nothing or by a whitespace character. *)
Definition last_token (s t : string) : Prop :=
  exists pre post,
    s = pre +:+ t +:+ post /\
    t <> EmptyString /\
    PyStr.all_chars not_space t = true /\
    PyStr.all_chars PyStr.is_space post = true /\
    PyStr.ends_with_char PyStr.is_space pre = true.

(* ===================================================================== *)
(** * The writes of a statement *)
(* ===================================================================== *)

(** The primitive effects on a chip: a [set], an [add], a logged error. *)
Inductive op : Type :=
| OSet (k : keypath) (v : value) (sc : scope) (clobber : bool)
| OAdd (k : keypath) (v : string) (sc : scope)
| OLog (msg : string).

Definition apply_op (c : chip) (o : op) : chip :=
  match o with
  | OSet k v sc clobber => Chip (Schema.set (cfg c) k v sc clobber) (logged c)
  | OAdd k v sc => Chip (Schema.add (cfg c) k v sc) (logged c)
  | OLog msg => Chip (cfg c) (logged c ++ [msg])
  end.

Definition apply_ops (c : chip) (ops : list op) : chip := fold_left apply_op ops c.

(** Every run of statement [s] changes the chip by a sequence of effects
    that all satisfy [P], whether it completes or raises. *)
Definition footprint {A} (P : op -> Prop) (s : M A) : Prop :=
  forall c, exists ops, Forall P ops /\ (s c).1 = apply_ops c ops.

(** A property of chips that no effect satisfying [P] can break. *)
Definition stable (P : op -> Prop) (I : chip -> Prop) : Prop :=
  forall c o, P o -> I c -> I (apply_op c o).

(** The writes of [post_process]: [set]s of the metrics [names] at scope
    [sc]. *)
Definition metric_op (sc : scope) (names : list string) (o : op) : Prop :=
  exists name v, o = OSet ["metric"; name] v sc true /\ name ∈ names.

(** Total correctness: statement [s], started in a chip satisfying [P],
    completes (it does not raise) with a value and a chip satisfying [Q]. *)
Definition triple {A} (P : chip -> Prop) (s : M A) (Q : A -> chip -> Prop) : Prop :=
  forall c, P c -> exists a, (s c).2 = Ok a /\ Q a (s c).1.

(** The writes of the first part of [setup] (lines 83-104): the settings
    fixed for the tool, the four settings of the task written with the
    [clobber] of the mode, and the outputs. *)
Inductive head_op (L : locals) : op -> Prop :=
| op_fixed name v clobber :
    head_op L (OSet ["tool"; tool; name] v global clobber)
| op_io name v :
    name ∈ ["option"; "refdir"; "script"; "threads"] ->
    head_op L (OSet (task_key L [name]) v (node_scope L) (clobber L))
| op_output v :
    head_op L (OAdd (task_key L ["output"]) v (node_scope L)).

(** The writes of the rest of [setup] (lines 106-258): which key-paths, at
    which scope and with which [clobber]. *)
Inductive setup_op (L : locals) : op -> Prop :=
| op_env v :
    setup_op L (OSet (task_key L ["env"; "QT_QPA_PLATFORM"]) v (node_scope L) true)
| op_var name v :
    setup_op L (OSet (task_key L ["var"; name]) v (node_scope L) false)
| op_parasitics :
    setup_op L (OSet (task_key L ["var"; "parasitics"])
                  (VStr "inputs/sc_parasitics.tcl") (node_scope L) true)
| op_regex name v :
    setup_op L (OSet (task_key L ["regex"; name]) v (node_scope L) false)
| op_report name :
    setup_op L (OSet (task_key L ["report"; name]) (VStr "reports/metrics.json")
                  (node_scope L) true)
| op_require v :
    setup_op L (OAdd (task_key L ["require"]) v (node_scope L))
| op_files name v :
    name ∈ ["pdn_config"; "global_connect"] ->
    setup_op L (OAdd (task_key L ["var"; name]) v (node_scope L)).

(** The error the delay model check may log. *)
Definition log_op (L : locals) (o : op) : Prop :=
  o = OLog (delaymodel_message (delaymodel L)).

(** The effects of [setup]: those of its first part, those of the rest,
    and the error the delay model check may log. *)
Definition setup_op_log (L : locals) (o : op) : Prop :=
  head_op L o \/ setup_op L o \/ log_op L o.

(** The effects of what follows the first part. *)
Definition tail_op (L : locals) (o : op) : Prop :=
  setup_op L o \/ log_op L o.

(** Two manifests with the same schema and the same leaves outside the
    'tool' subtree: what [setup] reads there is the same in both. *)
Definition same_inputs (m0 m : manifest) : Prop :=
  schema m = schema m0 /\
  forall k, hd_error k <> Some "tool" -> leaves m !! k = leaves m0 !! k.

(* ===================================================================== *)
(** * Sample inputs *)
(* ===================================================================== *)

(** A report with a violated setup slack, and one with two violation
    counters; an empty chip. *)
Definition metrics_w : gmap string jval := {[ setup_ws := JFloat (-0.5) ]}.
Definition metrics_d : gmap string jval :=
  {[ "sc__metric__timing__drv__max_slew" := JInt 2;
     "sc__step__route__drc_errors" := JInt 3 ]}.
Definition chip_w : chip := Chip (Manifest [] ∅) [].

(** A flow of three steps: 'import', then 'syn' fanned out into the
    indices "0" and "1", then 'place', which selected index "1" of 'syn';
    both indices of 'syn' selected 'import'. *)
Definition chain_flow : manifest :=
  Manifest
    [([Some "flowgraph"; None; None; None; Some "select"], VNodes [])]
    (list_to_map
       [(["option"; "flow"], {[ global := VStr "asicflow" ]});
        (["flowgraph"; "asicflow"; "syn"; "0"; "select"],
         {[ global := VNodes [("import", "0")] ]});
        (["flowgraph"; "asicflow"; "syn"; "1"; "select"],
         {[ global := VNodes [("import", "0")] ]});
        (["flowgraph"; "asicflow"; "place"; "0"; "select"],
         {[ global := VNodes [("syn", "1")] ]})]).

(** A host for the examples: eight processors, the design 'gcd', the task
    of a node is its step, no files. *)
Definition sample_host : host :=
  Host (Some 8) (fun _ => "gcd")
    (fun _ step _ => match step with VStr s => s | _ => EmptyString end)
    (fun _ _ => []) (fun _ => [("place", "0")]).

(** The key-path of the task's requirements, and the two tie-high
    key-paths of the main library. *)
Definition require_key (L : locals) : keypath := task_key L ["require"].
Definition tie_key (L : locals) (name : string) : keypath :=
  ["library"; mainlib L; "option"; "var"; tool; name].

(** The effects of the tie-cell loop: requirements of the two tie-high
    key-paths. *)
Definition tiecell_op (L : locals) (o : op) : Prop :=
  exists path,
    o = OAdd (require_key L) path (node_scope L) /\
    path ∈ [PyStr.join "," (tie_key L "openroad_tiehigh_cell");
            PyStr.join "," (tie_key L "openroad_tiehigh_port")].

(** The requirement an effect adds, if it adds one. *)
Definition added_path (o : op) : list string :=
  match o with OAdd _ path _ => [path] | _ => [] end.

(** A chip set up for the step 'place' (indices "0" and "1") of the flow
    'asicflow', with one logic library, a delay model other than 'nldm',
    one timing scenario, and a place density set by the user for the node. *)
Definition at_global (v : value) : gmap scope value := {[ global := v ]}.

Definition sample_leaves : list (keypath * gmap scope value) :=
  [(["arg"; "step"], at_global (VStr "place"));
   (["arg"; "index"], at_global (VStr "0"));
   (["option"; "flow"], at_global (VStr "asicflow"));
   (["option"; "pdk"], at_global (VStr "freepdk45"));
   (["option"; "stackup"], at_global (VStr "10M"));
   (["asic"; "logiclib"], at_global (VList ["nangate45"]));
   (["asic"; "macrolib"], at_global (VList []));
   (["asic"; "delaymodel"], at_global (VStr "ccs"));
   (["library"; "nangate45"; "asic"; "libarch"], at_global (VStr "10t"));
   (["library"; "nangate45"; "option"; "var"; "openroad_place_density"],
    at_global (VList ["0.3"]));
   (["library"; "nangate45"; "option"; "var"; "openroad"; "openroad_tiehigh_cell"],
    at_global (VList ["LOGIC1_X1"]));
   (["constraint"; "timing"; "worst"; "libcorner"], at_global (VList ["slow"]));
   (["constraint"; "timing"; "worst"; "pexcorner"], at_global (VStr "maximum"));
   (["constraint"; "timing"; "worst"; "check"], at_global (VList ["setup"; "power"]));
   (["flowgraph"; "asicflow"; "place"; "0"; "input"],
    at_global (VNodes [("floorplan", "0")]));
   (["flowgraph"; "asicflow"; "place"; "1"; "input"],
    at_global (VNodes [("floorplan", "0")]));
   (["tool"; "openroad"; "task"; "place"; "var"; "place_density"],
    {[ (Some "place", Some "0") := VStr "0.15" ]})].

Definition sample_chip : chip :=
  Chip (Manifest [] (list_to_map sample_leaves)) [].

(** The same chip, the user having set the thread count of the node to 1. *)
Definition threads_chip : chip :=
  Chip (Manifest []
          (list_to_map
             ((["tool"; "openroad"; "task"; "place"; "threads"],
               {[ (Some "place", Some "0") := VInt 1 ]}) :: sample_leaves))) [].

(** C7 as stated: a local run on a step of the flow leaves the thread count
    of the node at the ceiling of the processor count over the number of
    indices of the step. *)
Definition threads_claim : Prop :=
  forall (h : host) (mode : string) (c : chip) (n : Z) (f s : string),
    os_cpu_count h = Some n ->
    truthy (Schema.get (cfg c) ["option"; "remote"] global) = false ->
    Schema.get (cfg c) ["option"; "flow"] global = VStr f ->
    Schema.get (cfg c) ["arg"; "step"] global = VStr s ->
    s ∈ Schema.getkeys (cfg c) ["flowgraph"; f] ->
    Schema.get (cfg (setup h mode c).1)
      ["tool"; "openroad"; "task";
       chip_get_task h (cfg c) (Schema.get (cfg c) ["arg"; "step"] global)
         (Schema.get (cfg c) ["arg"; "index"] global);
       "threads"]
      (arg_scope (cfg c))
    = VInt (ceil_div n (Z.of_nat (length (Schema.getkeys (cfg c) ["flowgraph"; f; s])))).

(** Statement [s] keeps [I] and completes whenever started in a chip that
    satisfies it. *)
Definition runs {A} (I : chip -> Prop) (s : M A) : Prop :=
  triple I s (fun _ => I).

(** The requirements of the node: the value of
    ['tool', tool, 'task', task, 'require'] at its scope. *)
Definition requires (L : locals) (c : chip) : list string :=
  Schema.seq_of (Schema.stored (cfg c) (require_key L) (node_scope L)).

(** What lines 113-258 of [setup] configure for the node, [p] being the PDK
    and [st] the stackup: the parasitics file, the requirements on the PDK
    and on the variables, the default variables, the log patterns, and the
    report bindings. *)
Definition configured (L : locals) (p st : string) (c : chip) : Prop :=
  (Schema.get (cfg c) (task_key L ["var"; "parasitics"]) (node_scope L)
   = VStr "inputs/sc_parasitics.tcl" /\
   Schema.is_set (cfg c) (task_key L ["var"; "parasitics"]) (node_scope L) = true) /\
  (forall name,
     name ∈ ["rclayer_signal"; "rclayer_clock"; "pin_layer_horizontal";
             "pin_layer_vertical"] ->
     PyStr.join "," ["pdk"; p; "var"; "openroad"; name; st] ∈ requires L c) /\
  (forall variable, variable ∈ variables ->
     PyStr.join "," (task_key L ["var"; variable]) ∈ requires L c) /\
  (forall name, name ∈ map fst (default_vars VNone VNone) ->
     Schema.is_set (cfg c) (task_key L ["var"; name]) (node_scope L) = true) /\
  (forall name, name ∈ ["warnings"; "errors"] ->
     Schema.is_set (cfg c) (task_key L ["regex"; name]) (node_scope L) = true) /\
  (forall metric, metric ∈ report_metrics ->
     Schema.get (cfg c) (task_key L ["report"; metric]) (node_scope L)
     = VStr "reports/metrics.json").

(* ===================================================================== *)
(** * report.py: the other queries *)
(* ===================================================================== *)

(** [get_flowgraph_path(chip, end_nodes)] returns the set [S]. *)
Definition winning_path (h : host) (m : manifest) (end_nodes : list node)
    (S : gset node) : Prop :=
  exists fuel, get_flowgraph_path fuel h m (Some end_nodes) = Some (Ok S).

(** [manifest[key]], [None] when the key is missing. *)
Fixpoint lookup_item (key : string) (manifest : pydict) : option pyobj :=
  match manifest with
  | [] => None
  | (k, v) :: rest => if String.eqb k key then Some v else lookup_item key rest
  end.

(** [manifest[k1][k2]...[kn]] for the path [k1; ...; kn]. *)
Fixpoint lookup_path (path : list string) (o : pyobj) : option pyobj :=
  match path with
  | [] => Some o
  | key :: path' =>
      match o with
      | PDict items =>
          match lookup_item key items with
          | Some v => lookup_path path' v
          | None => None
          end
      | PVal _ => None
      end
  end.

(** The keys of every dictionary of [o] are distinct, as they are in a
    Python [dict]. *)
Fixpoint distinct_keys (o : pyobj) : bool :=
  match o with
  | PVal _ => true
  | PDict items =>
      bool_decide (NoDup (map fst items)) &&
      (fix loop (l : pydict) : bool :=
         match l with
         | [] => true
         | (_, v) :: rest => distinct_keys v && loop rest
         end) items
  end.

(** [get_total_manifest_parameter_count(manifest)] on the dictionary [o],
    report.py lines 295-307; the inner loop is the
    [for dictKeys in manifest] of the source. *)
Fixpoint get_total_manifest_parameter_count_obj (o : pyobj) : Z :=
  match o with
  | PVal _ => 0
  | PDict manifest =>
      (fix loop (l : pydict) (acc : Z) : Z :=
         match l with
         | [] => acc
         | (_, v) :: rest =>
             match v with
             | PDict _ => loop rest (acc + get_total_manifest_parameter_count_obj v)
             | PVal _ => loop rest acc
             end
         end) manifest (Z.of_nat (length manifest))
  end.

Definition get_total_manifest_parameter_count (manifest : pydict) : Z :=
  get_total_manifest_parameter_count_obj (PDict manifest).

(** [for a, b in v]: the pairs a value unpacks into when iterated.  A list
    of nodes gives its nodes; a list of strings gives a pair for each
    string of two characters and raises [ValueError] on another length; a
    non-empty string raises [ValueError] (its items are single characters);
    what is not iterable raises [TypeError]. *)
Definition unpack_pair (s : string) : result node :=
  match s with
  | String a (String b EmptyString) =>
      Ok (String a EmptyString, String b EmptyString)
  | _ => Raise ValueError
  end.

Fixpoint unpack_all (l : list string) : result (list node) :=
  match l with
  | [] => Ok []
  | s :: l' =>
      match unpack_pair s with
      | Raise e => Raise e
      | Ok p => match unpack_all l' with
                | Raise e => Raise e
                | Ok ps => Ok (p :: ps)
                end
      end
  end.

Definition unpack_pairs (v : value) : result (list node) :=
  match v with
  | VNodes l => Ok l
  | VList l => unpack_all l
  | VStr EmptyString => Ok []
  | VStr _ => Raise ValueError
  | _ => Raise TypeError
  end.

(** [d[key] = v] on a dictionary kept as its items in insertion order: the
    value of an existing key is replaced in place, a new key goes last. *)
Fixpoint dict_set {K V} `{EqDecision K} (d : list (K * V)) (key : K) (v : V)
    : list (K * V) :=
  match d with
  | [] => [(key, v)]
  | (k, w) :: rest =>
      if decide (k = key) then (k, v) :: rest else (k, w) :: dict_set rest key v
  end.

(** Lines 137-144 of [get_flowgraph_edges]: the body of the loop over the
    indices of [step]. *)
Definition edges_of_index (m : manifest) (flow step : string)
    (edges : list (node * list node)) (index : string)
    : result (list (node * list node)) :=
  let edges := dict_set edges (step, index) [] in
  match unpack_pairs (Schema.get m ["flowgraph"; flow; step; index; "input"] global) with
  | Raise e => Raise e
  | Ok inputs => Ok (dict_set edges (step, index) inputs)
  end.

(** [get_flowgraph_edges(chip)], report.py lines 120-145: the dictionary
    returned, as its items in insertion order. *)
Definition get_flowgraph_edges (m : manifest) : result (list (node * list node)) :=
  match as_str (Schema.get m ["option"; "flow"] global) with
  | Raise e => Raise e
  | Ok flow =>
      fold_result (fun edges step =>
          fold_result (fun edges index => edges_of_index m flow step edges index)
            (Schema.getkeys m ["flowgraph"; flow; step]) edges)
        (Schema.getkeys m ["flowgraph"; flow]) []
  end.

(** The nodes of a flow: each step with each of its indices, in the order
    [getkeys] lists them. *)
Definition flow_nodes (m : manifest) (flow : string) : list node :=
  flat_map (fun step => map (fun index => (step, index))
                          (Schema.getkeys m ["flowgraph"; flow; step]))
    (Schema.getkeys m ["flowgraph"; flow]).

(* ===================================================================== *)
(** * report.py: get_logs_and_reports *)
(* ===================================================================== *)

(** An item of [os.walk]: the path of a directory, its sub-directories and
    its files. *)
Definition walk_item : Type := string * list string * list string.

Definition folder_filters : list string := ["inputs"; "reports"; "outputs"].

Definition file_filters (step : string) : list string :=
  [step +:+ ".log"; step +:+ ".errors"; step +:+ ".warnings"].

(** Lines 331-336: an item is kept when one of the folder filters occurs in
    its path or is one of its sub-directories. *)
Definition wanted (item : walk_item) : bool :=
  let '(path_name, folders, _) := item in
  existsb (fun filter => PyStr.contains filter path_name
                         || bool_decide (filter ∈ folders)) folder_filters.

(** [l.remove(x)]: the list without the first item equal to [x]. *)
Fixpoint list_remove (x : string) (l : list string) : list string :=
  match l with
  | [] => []
  | y :: l' => if String.eqb y x then l' else y :: list_remove x l'
  end.

(** [for x in l: if x not in filters: l.remove(x)].  The loop reads the
    item at its position [i] in the list as it is then, and moves one
    position on whether or not the item was removed; it ends when the
    position is beyond the list.  [None] when the fuel runs out. *)
Fixpoint remove_unlisted (fuel : nat) (filters : list string) (l : list string)
    (i : nat) : option (list string) :=
  match fuel with
  | O => None
  | S fuel' =>
      match l !! i with
      | None => Some l
      | Some x =>
          if bool_decide (x ∈ filters)
          then remove_unlisted fuel' filters l (S i)
          else remove_unlisted fuel' filters (list_remove x l) (S i)
      end
  end.

(** [get_logs_and_reports(chip, step, index)], report.py lines 310-346;
    [all_paths] is what [os.walk] yields for the work directory of the
    node. *)
Definition get_logs_and_reports (fuel : nat) (all_paths : list walk_item)
    (step : string) : option (result (list walk_item)) :=
  let filtered_logs_and_reports := filter (fun item => wanted item = true) all_paths in
  match filtered_logs_and_reports with
  | [] => Some (Raise IndexError)
  | (path_name, folders, files) :: rest =>
      match remove_unlisted fuel folder_filters folders 0 with
      | None => None
      | Some folders' =>
          match remove_unlisted fuel (file_filters step) files 0 with
          | None => None
          | Some files' => Some (Ok ((path_name, folders', files') :: rest))
          end
      end
  end.

(** What the removal loop leaves of a list without repeated names: a
    listed name stays, an unlisted name goes and the name after it is
    passed over. *)
Fixpoint passed_over (filters : list string) (l : list string) : list string :=
  match l with
  | [] => []
  | x :: rest =>
      if bool_decide (x ∈ filters) then x :: passed_over filters rest
      else match rest with
           | [] => []
           | y :: rest' => y :: passed_over filters rest'
           end
  end.

(* ===================================================================== *)
(** * More sample inputs *)
(* ===================================================================== *)

(** A small manifest dictionary, as [make_manifest] shapes it. *)
Definition sample_manifest : pydict :=
  [("option", PDict [("flow", PDict [("value", PVal (VStr "asicflow"))]);
                     ("jobname", PDict [("value", PVal (VStr "job0"))]);
                     ("quiet", PDict [("value", PVal (VBool false))])]);
   ("design", PDict [("value", PVal (VStr "gcd"))])].

(** The key-path an effect writes, if it writes one. *)
Definition op_key (o : op) : option keypath :=
  match o with
  | OSet k _ _ _ => Some k
  | OAdd k _ _ => Some k
  | OLog _ => None
  end.

(** An effect that writes under the task of the node, if it writes: the
    effects of [setup] after the settings fixed for the tool. *)
Definition task_op (L : locals) (o : op) : Prop :=
  forall k, op_key o = Some k -> exists rest, k = task_key L rest.

(* ===================================================================== *)
(** * Python strings: lemmas *)
(* ===================================================================== *)

Section StringLemmas.

Lemma append_cons (c : ascii) (s t : string) : String c s +:+ t = String c (s +:+ t).
Proof. reflexivity. Qed.

Lemma append_nil_l (s : string) : EmptyString +:+ s = s.
Proof. reflexivity. Qed.

Lemma append_nil_r (s : string) : s +:+ EmptyString = s.
Proof.
  induction s as [|c s IH]; [reflexivity|]. now rewrite append_cons, IH.
Qed.

Lemma append_assoc (a b c : string) : (a +:+ b) +:+ c = a +:+ (b +:+ c).
Proof.
  induction a as [|x a IH]; [reflexivity|]. now rewrite !append_cons, IH.
Qed.

Lemma is_empty_true (s : string) : PyStr.is_empty s = true -> s = EmptyString.
Proof. destruct s; simpl; congruence. Qed.

Lemma is_empty_false (s : string) : PyStr.is_empty s = false -> s <> EmptyString.
Proof. destruct s; simpl; congruence. Qed.

Lemma all_chars_app p (a b : string) :
  PyStr.all_chars p (a +:+ b) = PyStr.all_chars p a && PyStr.all_chars p b.
Proof.
  induction a as [|x a IH]; [reflexivity|].
  rewrite append_cons. simpl. rewrite IH. now rewrite andb_assoc.
Qed.

Lemma ends_with_char_app p (a : string) (c : ascii) (b : string) :
  PyStr.ends_with_char p (a +:+ String c b) = PyStr.ends_with_char p (String c b).
Proof.
  induction a as [|x a IH]; [reflexivity|].
  rewrite append_cons. destruct a as [|y a]; [reflexivity|].
  rewrite append_cons in *. exact IH.
Qed.

(** No token at all: the string is whitespace only. *)
Lemma split_ws_from_nil (s cur : string) :
  PyStr.split_ws_from cur s = [] ->
  cur = EmptyString /\ PyStr.all_chars PyStr.is_space s = true.
Proof.
  revert cur. induction s as [|c s IH]; intros cur; simpl.
  - destruct (PyStr.is_empty cur) eqn:E; [|discriminate].
    intros _. split; [now apply is_empty_true | reflexivity].
  - destruct (PyStr.is_space c) eqn:Hc.
    + destruct (PyStr.is_empty cur) eqn:E; [|discriminate].
      intros H. apply IH in H as [_ H]. split; [now apply is_empty_true | exact H].
    + intros H. apply IH in H as [H _]. destruct cur; discriminate.
Qed.

(** The last token read from [s], the run [cur] being under way. *)
Lemma split_ws_from_last (s cur t : string) :
  PyStr.all_chars not_space cur = true ->
  last (PyStr.split_ws_from cur s) = Some t ->
  exists pre post,
    cur +:+ s = pre +:+ t +:+ post /\
    t <> EmptyString /\
    PyStr.all_chars not_space t = true /\
    PyStr.all_chars PyStr.is_space post = true /\
    PyStr.ends_with_char PyStr.is_space pre = true.
Proof.
  revert cur t. induction s as [|c s IH]; intros cur t Hcur; simpl.
  - destruct (PyStr.is_empty cur) eqn:E; simpl; [discriminate|].
    intros [= <-]. exists EmptyString, EmptyString.
    rewrite append_nil_l, !append_nil_r. repeat split; auto using is_empty_false.
  - destruct (PyStr.is_space c) eqn:Hc.
    + assert (Hrest : forall t',
                 last (PyStr.split_ws_from EmptyString s) = Some t' ->
                 exists pre post,
                   cur +:+ String c s = pre +:+ t' +:+ post /\
                   t' <> EmptyString /\
                   PyStr.all_chars not_space t' = true /\
                   PyStr.all_chars PyStr.is_space post = true /\
                   PyStr.ends_with_char PyStr.is_space pre = true).
      { intros t' Ht'. apply IH in Ht' as (pre & post & Hs & Hne & Ht & Hpost & Hpre);
          [|reflexivity].
        rewrite append_nil_l in Hs. exists (cur +:+ String c pre), post.
        rewrite append_assoc, append_cons, <- Hs. repeat split; auto.
        rewrite ends_with_char_app. destruct pre; simpl in *; auto. }
      destruct (PyStr.is_empty cur) eqn:E; [apply Hrest|].
      destruct (PyStr.split_ws_from EmptyString s) as [|t0 ts] eqn:Hsplit.
      * simpl. intros [= <-]. apply split_ws_from_nil in Hsplit as [_ Hsp].
        exists EmptyString, (String c s). rewrite append_nil_l. simpl. rewrite Hc, Hsp.
        repeat split; auto using is_empty_false.
      * intros Hl. apply Hrest. rewrite <- Hl. symmetry. apply last_cons_cons.
    + intros Hl. apply IH in Hl.
      * destruct Hl as (pre & post & Hs & H). exists pre, post. split; [|exact H].
        rewrite <- Hs, append_assoc. reflexivity.
      * rewrite all_chars_app, Hcur. simpl. unfold not_space. now rewrite Hc.
Qed.

Lemma split_ws_last (s t : string) :
  last (PyStr.split_ws s) = Some t -> last_token s t.
Proof.
  intros H. apply split_ws_from_last in H; [|reflexivity]. exact H.
Qed.

(** [split_on]: never empty, pieces free of the separator, and [join]
    gives the string back. *)
Lemma split_on_nonempty sep (s : string) : PyStr.split_on sep s <> [].
Proof.
  destruct s as [|c s]; simpl; [discriminate|].
  destruct (Ascii.eqb c sep); [discriminate|].
  destruct (PyStr.split_on sep s); discriminate.
Qed.

Lemma split_on_no_sep sep (s : string) :
  PyStr.contains_char sep s = false -> PyStr.split_on sep s = [s].
Proof.
  induction s as [|c s IH]; simpl; [reflexivity|].
  destruct (Ascii.eqb c sep); [discriminate|].
  intros H. now rewrite (IH H).
Qed.

Lemma split_on_sep sep (s : string) :
  PyStr.contains_char sep s = true -> (1 < length (PyStr.split_on sep s))%nat.
Proof.
  induction s as [|c s IH]; simpl; [discriminate|].
  destruct (Ascii.eqb c sep).
  - intros _. pose proof (split_on_nonempty sep s).
    destruct (PyStr.split_on sep s); simpl; [congruence | lia].
  - intros H. specialize (IH H).
    destruct (PyStr.split_on sep s); simpl in *; lia.
Qed.

Lemma split_on_pieces sep (s : string) :
  Forall (fun p => PyStr.contains_char sep p = false) (PyStr.split_on sep s).
Proof.
  induction s as [|c s IH]; simpl; [repeat constructor|].
  destruct (Ascii.eqb c sep) eqn:E; [constructor; [reflexivity | exact IH]|].
  destruct (PyStr.split_on sep s) as [|p ps]; [repeat constructor; simpl; now rewrite E|].
  inversion IH; subst. constructor; [simpl; now rewrite E | assumption].
Qed.

Lemma join_split_on sep (s : string) :
  PyStr.join (String sep EmptyString) (PyStr.split_on sep s) = s.
Proof.
  unfold PyStr.join. induction s as [|c s IH]; simpl; [reflexivity|].
  destruct (Ascii.eqb_spec c sep) as [->|Hne].
  - pose proof (split_on_nonempty sep s).
    destruct (PyStr.split_on sep s) as [|p ps]; [congruence|].
    simpl in *. now rewrite IH.
  - pose proof (split_on_nonempty sep s).
    destruct (PyStr.split_on sep s) as [|p ps]; [congruence|].
    destruct ps; simpl in *; now rewrite <- IH.
Qed.

(** Joining at least two pieces: the join of all but the last, the
    separator, the last piece. *)
Lemma concat_cons2 sep (a b : string) (l : list string) :
  String.concat sep (a :: b :: l) = a +:+ sep +:+ String.concat sep (b :: l).
Proof. reflexivity. Qed.

Lemma join_removelast sep (l : list string) (x : string) :
  (1 < length l)%nat -> last l = Some x ->
  PyStr.join sep l = PyStr.join sep (removelast l) +:+ sep +:+ x.
Proof.
  unfold PyStr.join. induction l as [|a l IH]; [simpl; lia|].
  intros Hlen Hlast. destruct l as [|b l]; [simpl in Hlen; lia|].
  destruct l as [|c l].
  - cbn in Hlast. injection Hlast as ->. reflexivity.
  - rewrite last_cons_cons in Hlast.
    rewrite concat_cons2, IH by (simpl; lia || exact Hlast).
    change (removelast (a :: b :: c :: l)) with (a :: b :: removelast (c :: l)).
    change (removelast (b :: c :: l)) with (b :: removelast (c :: l)).
    rewrite concat_cons2. now rewrite !append_assoc.
Qed.

Lemma lstrip_char_spec c (s : string) :
  exists n, s = PyStr.repeat_char c n +:+ PyStr.lstrip_char c s /\
            PyStr.starts_with (String c EmptyString) (PyStr.lstrip_char c s) = false.
Proof.
  induction s as [|d s (n & Hs & Hn)]; [exists O; split; reflexivity|].
  simpl. destruct (Ascii.eqb_spec d c) as [->|Hne].
  - exists (S n). split; [|exact Hn].
    change (PyStr.repeat_char c (S n)) with (String c (PyStr.repeat_char c n)).
    rewrite append_cons. now f_equal.
  - exists O. split; [reflexivity|]. simpl.
    destruct (Ascii.eqb_spec c d); [congruence | reflexivity].
Qed.

End StringLemmas.

(* ===================================================================== *)
(** * openroad.py: the version check *)
(* ===================================================================== *)

(** C2.  [parse_version] works on the last whitespace-delimited token of its
    input (and raises [IndexError] when there is none).  When that token has
    no '-', it is the result.  Otherwise the result is the token's
    '-'-separated segments without the last one, rejoined with '-': the
    token is the result, a '-', and a final segment [hash] free of '-'.
    The three forms of version output named in the source give
    "v2.0-880", "v2.0-1862" and the bare hash. *)
Theorem parse_version_spec (stdout : string) :
  match last (PyStr.split_ws stdout) with
  | None => parse_version stdout = Raise IndexError
  | Some token =>
      last_token stdout token /\
      if PyStr.contains_char dash token
      then exists hash,
             parse_version stdout
               = Ok (PyStr.join "-" (removelast (PyStr.split_on dash token))) /\
             token = PyStr.join "-" (removelast (PyStr.split_on dash token))
                     +:+ "-" +:+ hash /\
             last (PyStr.split_on dash token) = Some hash /\
             PyStr.contains_char dash hash = false
      else parse_version stdout = Ok token
  end
  /\ parse_version "1 v2.0-880-gd1c7001ad" = Ok "v2.0-880"
  /\ parse_version "v2.0-1862-g0d785bd84" = Ok "v2.0-1862"
  /\ parse_version "1 08de3b46c71e329a10aa4e753dcfeba2ddf54ddd"
     = Ok "08de3b46c71e329a10aa4e753dcfeba2ddf54ddd".
Proof.
  split; [|repeat split; reflexivity].
  unfold parse_version, py_last.
  destruct (last (PyStr.split_ws stdout)) as [token|] eqn:Hlast; [|reflexivity].
  split; [now apply split_ws_last|].
  destruct (PyStr.contains_char dash token) eqn:Hdash.
  - pose proof (split_on_sep dash token Hdash) as Hlen.
    destruct (last (PyStr.split_on dash token)) as [hash|] eqn:Hhash.
    2:{ apply last_None in Hhash. now apply split_on_nonempty in Hhash. }
    exists hash. repeat split.
    + destruct (Z.ltb_spec 1 (Z.of_nat (length (PyStr.split_on dash token)))); [reflexivity | lia].
    + rewrite <- (join_removelast "-" _ hash Hlen Hhash).
      symmetry. apply (join_split_on dash).
    + pose proof (split_on_pieces dash token) as Hall.
      rewrite Forall_forall in Hall. apply Hall.
      apply last_Some in Hhash as [l' ->]. apply elem_of_app. right. now left.
  - rewrite (split_on_no_sep _ _ Hdash). reflexivity.
Qed.

(** C3, read as stripping one character, fails: on a version with two
    leading 'v' the code removes both. *)
Lemma normalize_version_not_one_char :
  normalize_version "vv1.0" = "1.0" /\
  normalize_version_one_char "vv1.0" = "v1.0" /\
  ~ (forall version, normalize_version version = normalize_version_one_char version).
Proof.
  repeat split. intros H. specialize (H "vv1.0"). discriminate H.
Qed.

(** C3, amended.  If the version contains a '.', [normalize_version] returns
    it without its leading 'v' characters, all of them: the version is some
    number of 'v' followed by the result, and the result does not start with
    'v'.  If it contains no '.', the result is the sentinel "0". *)
Theorem normalize_version_spec (version : string) :
  (if PyStr.contains_char dot version
   then exists n : nat,
          version = PyStr.repeat_char "v" n +:+ normalize_version version /\
          PyStr.starts_with "v" (normalize_version version) = false
   else normalize_version version = "0")
  /\ normalize_version "v2.0-880" = "2.0-880".
Proof.
  split; [|reflexivity]. unfold normalize_version.
  destruct (PyStr.contains_char dot version); [|reflexivity].
  apply lstrip_char_spec.
Qed.

(* ===================================================================== *)
(** * report.py: searching the manifest *)
(* ===================================================================== *)

(** C10.  Without a search term ([None], or the empty string, which is as
    false as [None]) [search_manifest] returns the manifest it was given. *)
Theorem search_manifest_no_term (manifest : pydict) :
  search_manifest manifest None None = manifest /\
  search_manifest manifest (Some EmptyString) (Some EmptyString) = manifest.
Proof. split; reflexivity. Qed.

(* ===================================================================== *)
(** * The manifest store: lemmas *)
(* ===================================================================== *)

Section SchemaLemmas.

Implicit Types (m : manifest) (k : keypath) (sc : scope) (v : value).

Lemma schema_write m k sc v : schema (Schema.write m k sc v) = schema m.
Proof. reflexivity. Qed.

Lemma default_of_write m k sc v k' :
  Schema.default_of (Schema.write m k sc v) k' = Schema.default_of m k'.
Proof. reflexivity. Qed.

Lemma leaves_write_eq m k sc v :
  leaves (Schema.write m k sc v) !! k = Some (<[sc := v]> (Schema.leaf_of m k)).
Proof. unfold Schema.write; simpl. apply lookup_insert_eq. Qed.

Lemma leaves_write_ne m k sc v k' :
  k <> k' -> leaves (Schema.write m k sc v) !! k' = leaves m !! k'.
Proof. intros H. unfold Schema.write; simpl. now apply lookup_insert_ne. Qed.

Lemma leaf_of_write_eq m k sc v :
  Schema.leaf_of (Schema.write m k sc v) k = <[sc := v]> (Schema.leaf_of m k).
Proof. unfold Schema.leaf_of at 1. now rewrite leaves_write_eq. Qed.

Lemma leaf_of_write_ne m k sc v k' :
  k <> k' -> Schema.leaf_of (Schema.write m k sc v) k' = Schema.leaf_of m k'.
Proof. intros H. unfold Schema.leaf_of. now rewrite leaves_write_ne. Qed.

Lemma get_write_eq m k sc v : Schema.get (Schema.write m k sc v) k sc = v.
Proof. unfold Schema.get. now rewrite leaf_of_write_eq, lookup_insert_eq. Qed.

Lemma get_write_ne m k sc v k' sc' :
  k <> k' -> Schema.get (Schema.write m k sc v) k' sc' = Schema.get m k' sc'.
Proof.
  intros H. unfold Schema.get. now rewrite leaf_of_write_ne, default_of_write.
Qed.

Lemma is_set_write_eq m k sc v : Schema.is_set (Schema.write m k sc v) k sc = true.
Proof. unfold Schema.is_set. now rewrite leaf_of_write_eq, lookup_insert_eq. Qed.

Lemma is_set_write_mono m k sc v k' sc' :
  Schema.is_set m k' sc' = true -> Schema.is_set (Schema.write m k sc v) k' sc' = true.
Proof.
  unfold Schema.is_set. destruct (decide (k = k')) as [->|Hne].
  - rewrite leaf_of_write_eq. rewrite !lookup_insert.
    repeat case_decide; auto; destruct (Schema.leaf_of m k' !! sc'); auto.
  - now rewrite leaf_of_write_ne.
Qed.

Lemma valid_write_eq m k sc v : Schema.valid (Schema.write m k sc v) k = true.
Proof.
  unfold Schema.valid. rewrite leaves_write_eq. now apply bool_decide_eq_true.
Qed.

Lemma valid_write_ne m k sc v k' :
  k <> k' -> Schema.valid (Schema.write m k sc v) k' = Schema.valid m k'.
Proof. intros H. unfold Schema.valid. now rewrite leaves_write_ne. Qed.

Lemma stored_write_eq m k sc v : Schema.stored (Schema.write m k sc v) k sc = v.
Proof. unfold Schema.stored. now rewrite leaf_of_write_eq, lookup_insert_eq. Qed.

Lemma stored_write_ne m k sc v k' sc' :
  k <> k' -> Schema.stored (Schema.write m k sc v) k' sc' = Schema.stored m k' sc'.
Proof. intros H. unfold Schema.stored. now rewrite leaf_of_write_ne. Qed.

(** A [set] without [clobber] on a leaf that is set is a no-op. *)
Lemma set_noclobber m k v sc :
  Schema.is_set m k sc = true -> Schema.set m k v sc false = m.
Proof. intros H. unfold Schema.set. now rewrite H. Qed.

Lemma set_clobber m k v sc : Schema.set m k v sc true = Schema.write m k sc v.
Proof. reflexivity. Qed.

Lemma set_unset m k v sc clobber :
  Schema.is_set m k sc = false -> Schema.set m k v sc clobber = Schema.write m k sc v.
Proof. intros H. unfold Schema.set. rewrite H. now destruct clobber. Qed.

(** A [set] is a write or nothing. *)
Lemma set_cases m k v sc clobber :
  Schema.set m k v sc clobber = m \/
  Schema.set m k v sc clobber = Schema.write m k sc v.
Proof. unfold Schema.set. destruct (negb clobber && Schema.is_set m k sc); auto. Qed.

Lemma is_set_set m k v sc clobber : Schema.is_set (Schema.set m k v sc clobber) k sc = true.
Proof.
  unfold Schema.set. destruct clobber; simpl; [apply is_set_write_eq|].
  destruct (Schema.is_set m k sc) eqn:E; [exact E | apply is_set_write_eq].
Qed.

(** Key-paths outside the prefix [p] do not count among its children. *)
Lemma children_write m k sc v p :
  Schema.child_of p k = None \/ is_Some (leaves m !! k) ->
  Schema.children (Schema.write m k sc v) p = Schema.children m p.
Proof.
  intros H. unfold Schema.children. apply set_eq. intros x.
  rewrite !elem_of_set_omap. unfold Schema.write; simpl.
  setoid_rewrite dom_insert_L. setoid_rewrite elem_of_union.
  setoid_rewrite elem_of_singleton.
  split.
  - intros (k' & [->|Hk'] & Hc); [|eauto].
    destruct H as [H|H]; [congruence|].
    exists k. split; [|exact Hc]. now apply elem_of_dom.
  - intros (k' & Hk' & Hc). eauto.
Qed.

Lemma getkeys_write m k sc v p :
  Schema.child_of p k = None \/ is_Some (leaves m !! k) ->
  Schema.getkeys (Schema.write m k sc v) p = Schema.getkeys m p.
Proof. intros H. unfold Schema.getkeys. now rewrite children_write. Qed.

(** [child_of p k] is defined only when [k] starts like [p]. *)
Lemma child_of_hd p k a x :
  Schema.child_of (a :: p) k = Some x -> hd_error k = Some a.
Proof.
  destruct k as [|b k]; simpl; [discriminate|].
  destruct (String.eqb_spec a b) as [->|]; [reflexivity | discriminate].
Qed.

End SchemaLemmas.

(* ===================================================================== *)
(** * Statements: effects and total correctness *)
(* ===================================================================== *)

Section Statements.

Context {A B : Type}.

Lemma bind_ok (s : M A) (k : A -> M B) c c' a :
  s c = (c', Ok a) -> bind s k c = k a c'.
Proof. intros H. unfold bind. now rewrite H. Qed.

Lemma bind_raise (s : M A) (k : A -> M B) c c' e :
  s c = (c', Raise e) -> bind s k c = (c', Raise e).
Proof. intros H. unfold bind. now rewrite H. Qed.

Lemma apply_ops_app c (l1 l2 : list op) :
  apply_ops c (l1 ++ l2) = apply_ops (apply_ops c l1) l2.
Proof. unfold apply_ops. apply fold_left_app. Qed.

Lemma footprint_pure P (s : M A) :
  (forall c, (s c).1 = c) -> footprint P s.
Proof. intros H c. exists []. split; [constructor | apply H]. Qed.

Lemma footprint_ret P (a : A) : footprint P (ret a).
Proof. now apply footprint_pure. Qed.

Lemma footprint_raise P e : footprint P (raise e : M A).
Proof. now apply footprint_pure. Qed.

Lemma footprint_lift P (r : result A) : footprint P (lift r).
Proof. now apply footprint_pure. Qed.

Lemma footprint_reads P (f : manifest -> A) : footprint P (reads f).
Proof. now apply footprint_pure. Qed.

Lemma footprint_reads_result P (f : manifest -> result A) : footprint P (reads_result f).
Proof. now apply footprint_pure. Qed.

Lemma footprint_bind P (s : M A) (k : A -> M B) :
  footprint P s -> (forall a, footprint P (k a)) -> footprint P (bind s k).
Proof.
  intros Hs Hk c. destruct (Hs c) as (ops1 & HP1 & H1).
  unfold bind. destruct (s c) as [c' [a|e]]; simpl in H1.
  - destruct (Hk a c') as (ops2 & HP2 & H2). exists (ops1 ++ ops2).
    split; [now apply Forall_app|]. now rewrite apply_ops_app, <- H1.
  - exists ops1. auto.
Qed.

Lemma footprint_weaken (P Q : op -> Prop) (s : M A) :
  (forall o, P o -> Q o) -> footprint P s -> footprint Q s.
Proof.
  intros HPQ Hs c. destruct (Hs c) as (ops & HP & H). exists ops.
  split; [|exact H]. eapply Forall_impl; eauto.
Qed.

(** What is stable under the effects of a statement holds after it. *)
Lemma footprint_stable P (I : chip -> Prop) (s : M A) c :
  footprint P s -> stable P I -> I c -> I (s c).1.
Proof.
  intros Hs Hst. destruct (Hs c) as (ops & HP & ->). clear Hs.
  revert c. induction HP as [|o ops Ho _ IH]; intros c Hc; [exact Hc|].
  apply IH. now apply Hst.
Qed.

Lemma triple_ret (P : chip -> Prop) (a : A) (Q : A -> chip -> Prop) :
  (forall c, P c -> Q a c) -> triple P (ret a) Q.
Proof. intros H c Hc. exists a. split; [reflexivity | now apply H]. Qed.

Lemma triple_lift (P : chip -> Prop) (r : result A) a (Q : A -> chip -> Prop) :
  r = Ok a -> (forall c, P c -> Q a c) -> triple P (lift r) Q.
Proof. intros -> H c Hc. exists a. split; [reflexivity | now apply H]. Qed.

Lemma triple_reads (P : chip -> Prop) (f : manifest -> A) (Q : A -> chip -> Prop) :
  (forall c, P c -> Q (f (cfg c)) c) -> triple P (reads f) Q.
Proof. intros H c Hc. exists (f (cfg c)). split; [reflexivity | now apply H]. Qed.

Lemma triple_reads_result (P : chip -> Prop) (f : manifest -> result A)
    (Q : A -> chip -> Prop) :
  (forall c, P c -> exists a, f (cfg c) = Ok a /\ Q a c) ->
  triple P (reads_result f) Q.
Proof.
  intros H c Hc. destruct (H c Hc) as (a & Ha & HQ). exists a.
  split; [exact Ha | exact HQ].
Qed.

Lemma triple_bind (P : chip -> Prop) (s : M A) (R : A -> chip -> Prop)
    (k : A -> M B) (Q : B -> chip -> Prop) :
  triple P s R -> (forall a, triple (R a) (k a) Q) -> triple P (bind s k) Q.
Proof.
  intros Hs Hk c Hc. destruct (Hs c Hc) as (a & Ha & HR).
  unfold bind. destruct (s c) as [c' r]. simpl in *. rewrite Ha.
  now apply Hk.
Qed.

Lemma triple_conseq (P P' : chip -> Prop) (s : M A) (Q Q' : A -> chip -> Prop) :
  (forall c, P' c -> P c) -> (forall a c, Q a c -> Q' a c) ->
  triple P s Q -> triple P' s Q'.
Proof.
  intros HP HQ Hs c Hc. destruct (Hs c (HP c Hc)) as (a & Ha & H). eauto.
Qed.

(** Framing: what is stable under the effects of [s] is carried across. *)
Lemma triple_frame Pf (F : chip -> Prop) (P : chip -> Prop) (s : M A)
    (Q : A -> chip -> Prop) :
  footprint Pf s -> stable Pf F -> triple P s Q ->
  triple (fun c => P c /\ F c) s (fun a c => Q a c /\ F c).
Proof.
  intros Hf Hst Hs c [Hc HF]. destruct (Hs c Hc) as (a & Ha & H).
  exists a. repeat split; auto. now apply (footprint_stable Pf).
Qed.

End Statements.

Section StatementsUnit.

Lemma footprint_get P k sc : footprint P (chip_get k sc).
Proof. now apply footprint_pure. Qed.

Lemma footprint_valid P k : footprint P (chip_valid k).
Proof. now apply footprint_pure. Qed.

Lemma footprint_getkeys P k : footprint P (chip_getkeys k).
Proof. now apply footprint_pure. Qed.

Lemma footprint_one (P : op -> Prop) (s : M unit) o :
  P o -> (forall c, (s c).1 = apply_op c o) -> footprint P s.
Proof.
  intros Ho H c. exists [o]. split; [now repeat constructor | apply H].
Qed.

Lemma footprint_set (P : op -> Prop) k v sc clobber :
  P (OSet k v sc clobber) -> footprint P (chip_set k v sc clobber).
Proof. intros H. now apply (footprint_one P _ _ H). Qed.

Lemma footprint_add (P : op -> Prop) k v sc :
  P (OAdd k v sc) -> footprint P (chip_add k v sc).
Proof. intros H. now apply (footprint_one P _ _ H). Qed.

Lemma footprint_log (P : op -> Prop) msg :
  P (OLog msg) -> footprint P (logger_error msg).
Proof. intros H. now apply (footprint_one P _ _ H). Qed.

Lemma footprint_chip_error P msg : footprint P (chip_error msg).
Proof. now apply footprint_pure. Qed.

Lemma footprint_when P (b : bool) (s : M unit) :
  footprint P s -> footprint P (when b s).
Proof. intros H. destruct b; [exact H | apply footprint_ret]. Qed.

Lemma footprint_for_each {A} P (l : list A) (body : A -> M unit) :
  (forall x, x ∈ l -> footprint P (body x)) -> footprint P (for_each l body).
Proof.
  induction l as [|x l IH]; intros H; simpl; [apply footprint_ret|].
  apply footprint_bind; [apply H; now left|].
  intros []. apply IH. intros y Hy. apply H. now right.
Qed.

Lemma triple_get (P : chip -> Prop) k sc (Q : value -> chip -> Prop) :
  (forall c, P c -> Q (Schema.get (cfg c) k sc) c) -> triple P (chip_get k sc) Q.
Proof. intros H c Hc. eexists. split; [reflexivity | now apply H]. Qed.

Lemma triple_valid (P : chip -> Prop) k (Q : bool -> chip -> Prop) :
  (forall c, P c -> Q (Schema.valid (cfg c) k) c) -> triple P (chip_valid k) Q.
Proof. intros H c Hc. eexists. split; [reflexivity | now apply H]. Qed.

Lemma triple_getkeys (P : chip -> Prop) k (Q : list string -> chip -> Prop) :
  (forall c, P c -> Q (Schema.getkeys (cfg c) k) c) -> triple P (chip_getkeys k) Q.
Proof. intros H c Hc. eexists. split; [reflexivity | now apply H]. Qed.

Lemma triple_set (P : chip -> Prop) k v sc clobber (Q : unit -> chip -> Prop) :
  (forall c, P c -> Q tt (apply_op c (OSet k v sc clobber))) ->
  triple P (chip_set k v sc clobber) Q.
Proof. intros H c Hc. exists tt. split; [reflexivity | now apply H]. Qed.

Lemma triple_add (P : chip -> Prop) k v sc (Q : unit -> chip -> Prop) :
  (forall c, P c -> Q tt (apply_op c (OAdd k v sc))) -> triple P (chip_add k v sc) Q.
Proof. intros H c Hc. exists tt. split; [reflexivity | now apply H]. Qed.

Lemma triple_log (P : chip -> Prop) msg (Q : unit -> chip -> Prop) :
  (forall c, P c -> Q tt (apply_op c (OLog msg))) -> triple P (logger_error msg) Q.
Proof. intros H c Hc. exists tt. split; [reflexivity | now apply H]. Qed.

Lemma triple_when (I : chip -> Prop) (b : bool) (s : M unit) :
  triple I s (fun _ => I) -> triple I (when b s) (fun _ => I).
Proof. intros H. destruct b; [exact H | now apply triple_ret]. Qed.

(** A loop whose body keeps the invariant completes and keeps it. *)
Lemma triple_for_each {A} (I : chip -> Prop) (l : list A) (body : A -> M unit) :
  (forall x, x ∈ l -> triple I (body x) (fun _ => I)) ->
  triple I (for_each l body) (fun _ => I).
Proof.
  induction l as [|x l IH]; intros H; simpl; [now apply triple_ret|].
  eapply triple_bind; [apply H; now left|].
  intros []. apply IH. intros y Hy. apply H. now right.
Qed.

End StatementsUnit.

(* ===================================================================== *)
(** * openroad.py: post_process *)
(* ===================================================================== *)

Ltac footprint_step :=
  lazymatch goal with
  | |- footprint _ (ret _) => apply footprint_ret
  | |- footprint _ (raise _) => apply footprint_raise
  | |- footprint _ (lift _) => apply footprint_lift
  | |- footprint _ (reads _) => apply footprint_reads
  | |- footprint _ (reads_result _) => apply footprint_reads_result
  | |- footprint _ (chip_get _ _) => apply footprint_get
  | |- footprint _ (chip_valid _) => apply footprint_valid
  | |- footprint _ (chip_getkeys _) => apply footprint_getkeys
  | |- footprint _ (chip_error _) => apply footprint_chip_error
  | |- footprint _ (bind _ _) => apply footprint_bind; [|intros ?]
  | |- footprint _ (when _ _) => apply footprint_when
  | |- footprint _ (for_each _ _) => apply footprint_for_each; intros ? ?
  | |- footprint _ (chip_set _ _ _ _) => apply footprint_set
  | |- footprint _ (chip_add _ _ _) => apply footprint_add
  | |- footprint _ (logger_error _) => apply footprint_log
  | |- footprint _ (match ?x with _ => _ end) => destruct x eqn:?
  end.
Ltac footprint_auto := repeat footprint_step.

Lemma cfg_apply_set c k v sc clobber :
  cfg (apply_op c (OSet k v sc clobber)) = Schema.set (cfg c) k v sc clobber.
Proof. reflexivity. Qed.

Lemma cfg_apply_add c k v sc :
  cfg (apply_op c (OAdd k v sc)) = Schema.add (cfg c) k v sc.
Proof. reflexivity. Qed.

Lemma cfg_apply_log c msg : cfg (apply_op c (OLog msg)) = cfg c.
Proof. reflexivity. Qed.

Lemma metric_op_get_stable sc names name v :
  name ∉ names ->
  stable (metric_op sc names)
    (fun c => Schema.get (cfg c) ["metric"; name] sc = v).
Proof.
  intros Hn c o (name' & v' & -> & Hin) H. rewrite cfg_apply_set, set_clobber.
  rewrite get_write_ne; [exact H|]. intros [= ->]. contradiction.
Qed.

Lemma metric_op_leaf_stable sc names name :
  name ∉ names ->
  forall l, stable (metric_op sc names)
    (fun c => leaves (cfg c) !! ["metric"; name] = l).
Proof.
  intros Hn l c o (name' & v' & -> & Hin) H. rewrite cfg_apply_set, set_clobber.
  rewrite leaves_write_ne; [exact H|]. intros [= ->]. contradiction.
Qed.

Lemma copy_metrics_ok metrics sc (l : list (string * string)) c :
  (for_each l (copy_metric metrics sc) c).2 = Ok tt.
Proof.
  revert c. induction l as [|[metric name] l IH]; intros c; [reflexivity|].
  simpl. unfold bind. destruct (metrics !! name); simpl; apply IH.
Qed.

Lemma derive_wns_footprint metrics sc raw metric :
  footprint (metric_op sc [metric]) (derive_wns metrics sc raw metric).
Proof.
  unfold derive_wns. footprint_auto. exists metric. eexists. split; [reflexivity|]. now left.
Qed.

Lemma derive_wns_present metrics sc raw_name metric raw slack c :
  metrics !! raw_name = Some raw -> py_float raw = Ok slack ->
  derive_wns metrics sc raw_name metric c
  = (Chip (Schema.write (cfg c) ["metric"; metric] sc (VFloat (py_min 0 slack)))
       (logged c), Ok tt).
Proof. intros Hr Hs. unfold derive_wns. rewrite Hr. unfold bind, lift. now rewrite Hs. Qed.

Lemma derive_wns_absent metrics sc raw_name metric c :
  metrics !! raw_name = None -> derive_wns metrics sc raw_name metric c = (c, Ok tt).
Proof. intros Hr. unfold derive_wns. now rewrite Hr. Qed.

(** The accumulation of [drvs] over a list of counters that all convert. *)
Lemma drvs_fold metrics (l : list string) (acc : option Z) :
  (forall name v, name ∈ l -> metrics !! name = Some v -> exists n, py_int v = Ok n) ->
  fold_result (drvs_step metrics) l acc
  = Ok (match omap (fun name => metrics !! name) l, acc with
        | [], _ => acc
        | vs, None => Some (foldr Z.add 0 (map int_or_zero vs))
        | vs, Some d => Some (d + foldr Z.add 0 (map int_or_zero vs))
        end).
Proof.
  revert acc. induction l as [|name l IH]; intros acc H; [reflexivity|].
  assert (Hl : forall name v, name ∈ l -> metrics !! name = Some v ->
                              exists n, py_int v = Ok n).
  { intros n' v' Hin. apply H. now right. }
  change (fold_result (drvs_step metrics) (name :: l) acc)
    with (match drvs_step metrics acc name with
          | Ok s' => fold_result (drvs_step metrics) l s'
          | Raise e => Raise e
          end).
  change (omap (fun name => metrics !! name) (name :: l))
    with (match metrics !! name with
          | Some v => v :: omap (fun name => metrics !! name) l
          | None => omap (fun name => metrics !! name) l
          end).
  unfold drvs_step.
  destruct (metrics !! name) as [v|] eqn:Hv; [|now apply IH].
  destruct (H name v ltac:(now left) Hv) as [n Hn]. rewrite Hn.
  assert (Hz : int_or_zero v = n) by (unfold int_or_zero; now rewrite Hn).
  destruct acc as [d|]; rewrite (IH _ Hl);
    destruct (omap (fun name => metrics !! name) l); simpl; rewrite Hz;
    do 2 f_equal; lia.
Qed.
Lemma record_drvs_footprint metrics sc :
  footprint (metric_op sc ["drvs"]) (record_drvs metrics sc).
Proof.
  unfold record_drvs. footprint_auto. exists "drvs". eexists. split; [reflexivity|]. now left.
Qed.

Lemma post_process_unfold metrics c :
  post_process metrics c
  = (for_each metric_table (copy_metric metrics (arg_scope (cfg c))) ;;
     derive_wns metrics (arg_scope (cfg c)) setup_ws "setupwns" ;;
     derive_wns metrics (arg_scope (cfg c)) hold_ws "holdwns" ;;
     record_drvs metrics (arg_scope (cfg c))) c.
Proof. reflexivity. Qed.

(** After the copy loop, whatever state it leaves. *)
Lemma post_process_after_copy metrics c :
  exists c1,
    post_process metrics c
    = (derive_wns metrics (arg_scope (cfg c)) setup_ws "setupwns" ;;
       derive_wns metrics (arg_scope (cfg c)) hold_ws "holdwns" ;;
       record_drvs metrics (arg_scope (cfg c))) c1 /\
    forall name l, name ∉ map fst metric_table ->
      leaves (cfg c) !! ["metric"; name] = l -> leaves (cfg c1) !! ["metric"; name] = l.
Proof.
  rewrite post_process_unfold. set (sc := arg_scope (cfg c)).
  pose proof (copy_metrics_ok metrics sc metric_table c) as Hok.
  assert (Hfp : footprint (metric_op sc (map fst metric_table))
                  (for_each metric_table (copy_metric metrics sc))).
  { apply footprint_for_each. intros [metric name] Hin. unfold copy_metric.
    footprint_auto. exists metric. eexists. split; [reflexivity|].
    apply list_elem_of_fmap. exists (metric, name). auto. }
  destruct (for_each metric_table (copy_metric metrics sc) c) as [c1 r] eqn:E.
  simpl in Hok. subst r. exists c1. split.
  - unfold bind at 1. now rewrite E.
  - intros name l Hn Hl.
    pose proof (footprint_stable _ _ _ c Hfp (metric_op_leaf_stable sc _ name Hn l) Hl) as H.
    now rewrite E in H.
Qed.
Ltac by_decide :=
  match goal with
  | |- ?P => apply (bool_decide_eq_true_1 P); vm_compute; reflexivity
  end.

Lemma bind_state {A B} (s : M A) (k : A -> M B) c c' a :
  s c = (c', Ok a) -> (bind s k c).1 = (k a c').1.
Proof. intros H. now rewrite (bind_ok _ _ _ _ _ H). Qed.

Lemma derive_hold_drvs_footprint metrics sc :
  footprint (metric_op sc ["holdwns"; "drvs"])
    (derive_wns metrics sc hold_ws "holdwns" ;; record_drvs metrics sc).
Proof.
  apply footprint_bind; [|intros _].
  - eapply footprint_weaken; [|apply derive_wns_footprint].
    intros o (n & v & -> & Hn). exists n, v. split; [reflexivity|].
    apply list_elem_of_singleton in Hn as ->. now left.
  - eapply footprint_weaken; [|apply record_drvs_footprint].
    intros o (n & v & -> & Hn). exists n, v. split; [reflexivity|].
    apply list_elem_of_singleton in Hn as ->. right. now left.
Qed.

(** C4.  When the report holds the raw setup worst slack and it converts to
    the float [slack], [post_process] leaves the metric 'setupwns' of the
    node at [min(0.0, slack)]; likewise 'holdwns' from the raw hold worst
    slack (the setup entry, if present, converting as well, or the function
    raises before it reaches the hold entry).  [min(0.0, slack)] is [slack]
    when [slack < 0.0] and [0.0] otherwise: -0.5 gives -0.5, 1.2 gives 0.0. *)
Theorem post_process_wns (metrics : gmap string jval) (c : chip) (raw : jval)
    (slack : float) :
  py_float raw = Ok slack ->
  let sc := arg_scope (cfg c) in
  let c' := (post_process metrics c).1 in
  (metrics !! setup_ws = Some raw ->
   Schema.get (cfg c') ["metric"; "setupwns"] sc = VFloat (py_min 0 slack)) /\
  (metrics !! hold_ws = Some raw ->
   (forall r, metrics !! setup_ws = Some r -> exists s, py_float r = Ok s) ->
   Schema.get (cfg c') ["metric"; "holdwns"] sc = VFloat (py_min 0 slack)) /\
  (PrimFloat.ltb slack 0 = true /\ py_min 0 slack = slack \/
   PrimFloat.ltb slack 0 = false /\ py_min 0 slack = 0%float) /\
  py_min 0 (-0.5) = (-0.5)%float /\
  py_min 0 0x1.3333333333333p+0 = 0%float.
Proof.
  intros Hfloat sc c'. subst c'.
  destruct (post_process_after_copy metrics c) as (c1 & -> & _). fold sc.
  split; [|split; [|split; [|split; reflexivity]]].
  - intros Hraw.
    rewrite (bind_state _ _ _ _ _ (derive_wns_present _ sc _ "setupwns" _ _ c1 Hraw Hfloat)).
    apply (footprint_stable (metric_op sc ["holdwns"; "drvs"])
             (fun c => Schema.get (cfg c) ["metric"; "setupwns"] sc = _)).
    + apply derive_hold_drvs_footprint.
    + apply metric_op_get_stable. by_decide.
    + apply get_write_eq.
  - intros Hraw Hsetup.
    assert (Hc2 : exists c2, derive_wns metrics sc setup_ws "setupwns" c1 = (c2, Ok tt)).
    { destruct (metrics !! setup_ws) as [r|] eqn:Hr.
      - destruct (Hsetup r eq_refl) as [s Hs]. eexists.
        apply (derive_wns_present _ _ _ _ r s); assumption.
      - eexists. now apply derive_wns_absent. }
    destruct Hc2 as [c2 Hc2]. rewrite (bind_state _ _ _ _ _ Hc2).
    rewrite (bind_state _ _ _ _ _ (derive_wns_present _ sc _ "holdwns" _ _ c2 Hraw Hfloat)).
    apply (footprint_stable (metric_op sc ["drvs"])
             (fun c => Schema.get (cfg c) ["metric"; "holdwns"] sc = _)).
    + apply record_drvs_footprint.
    + apply metric_op_get_stable. by_decide.
    + apply get_write_eq.
  - unfold py_min. destruct (PrimFloat.ltb slack 0); auto.
Qed.



Lemma post_process_wns_witness :
  py_float (JFloat (-0.5)) = Ok (-0.5)%float /\
  Schema.get (cfg (post_process metrics_w chip_w).1) ["metric"; "setupwns"]
    (arg_scope (cfg chip_w)) = VFloat (-0.5).
Proof.
  split; [reflexivity|].
  exact (proj1 (post_process_wns metrics_w chip_w (JFloat (-0.5)) (-0.5) eq_refl) eq_refl).
Defined.

Lemma is_set_leaf (m m' : manifest) k sc :
  leaves m !! k = leaves m' !! k -> Schema.is_set m k sc = Schema.is_set m' k sc.
Proof. intros H. unfold Schema.is_set, Schema.leaf_of. now rewrite H. Qed.

Lemma present_counters_nil metrics :
  present_counters metrics = [] <->
  forall name, name ∈ drv_counters -> metrics !! name = None.
Proof.
  unfold present_counters. generalize drv_counters as l.
  induction l as [|x l IH].
  - split; [intros _ name H; inversion H | reflexivity].
  - change (omap (fun name => metrics !! name) (x :: l))
      with (match metrics !! x with
            | Some v => v :: omap (fun name => metrics !! name) l
            | None => omap (fun name => metrics !! name) l
            end).
    destruct (metrics !! x) eqn:Hx.
    + split; [discriminate|]. intros H. specialize (H x ltac:(now left)). congruence.
    + rewrite IH. split.
      * intros H name Hin. apply elem_of_cons in Hin as [->|Hin]; auto.
      * intros H name Hin. apply H. now right.
Qed.

(** C5.  The report's slack entries and violation counters being numbers
    (they convert with [float()] and [int()]), [post_process] completes, and
    - if at least one of the six counters is in the report, the metric
      'drvs' of the node is the sum of the integer values of the counters
      present;
    - if none is, the leaf of 'drvs' is left as it was.
    So a 'drvs' that was unset is unset afterwards exactly when all six
    counters are absent. *)
Theorem post_process_drvs (metrics : gmap string jval) (c : chip) :
  (forall name raw, name ∈ [setup_ws; hold_ws] -> metrics !! name = Some raw ->
                    exists s, py_float raw = Ok s) ->
  (forall name raw, name ∈ drv_counters -> metrics !! name = Some raw ->
                    exists n, py_int raw = Ok n) ->
  let sc := arg_scope (cfg c) in
  let c' := (post_process metrics c).1 in
  (post_process metrics c).2 = Ok tt /\
  match present_counters metrics with
  | [] => leaves (cfg c') !! ["metric"; "drvs"] = leaves (cfg c) !! ["metric"; "drvs"]
  | _ :: _ => Schema.get (cfg c') ["metric"; "drvs"] sc = VInt (drvs_sum metrics)
  end /\
  (Schema.is_set (cfg c) ["metric"; "drvs"] sc = false ->
   (Schema.is_set (cfg c') ["metric"; "drvs"] sc = false <->
    forall name, name ∈ drv_counters -> metrics !! name = None)).
Proof.
  intros Hfloat Hint sc c'. subst c'.
  destruct (post_process_after_copy metrics c) as (c1 & -> & Hc1). fold sc.
  assert (Hwns : forall raw_name metric c2, raw_name ∈ [setup_ws; hold_ws] ->
            metric <> "drvs" ->
            exists c3, derive_wns metrics sc raw_name metric c2 = (c3, Ok tt) /\
              leaves (cfg c3) !! ["metric"; "drvs"] = leaves (cfg c2) !! ["metric"; "drvs"]).
  { intros raw_name metric c2 Hin Hne. destruct (metrics !! raw_name) as [r|] eqn:Hr.
    - destruct (Hfloat raw_name r Hin Hr) as [s Hs]. eexists. split.
      + apply (derive_wns_present _ _ _ _ r s); assumption.
      + simpl. apply leaves_write_ne. congruence.
    - eexists. split; [now apply derive_wns_absent | reflexivity]. }
  destruct (Hwns setup_ws "setupwns" c1) as (c2 & Hc2 & Hl2); [by_decide | discriminate |].
  destruct (Hwns hold_ws "holdwns" c2) as (c3 & Hc3 & Hl3); [by_decide | discriminate |].
  rewrite (bind_ok _ _ _ _ _ Hc2), (bind_ok _ _ _ _ _ Hc3).
  assert (Hleaf : leaves (cfg c3) !! ["metric"; "drvs"] = leaves (cfg c) !! ["metric"; "drvs"]).
  { rewrite Hl3, Hl2. apply Hc1; [by_decide | reflexivity]. }
  assert (Hset : Schema.is_set (cfg c3) ["metric"; "drvs"] sc
                 = Schema.is_set (cfg c) ["metric"; "drvs"] sc).
  { now apply is_set_leaf. }
  unfold record_drvs, bind, lift.
  rewrite (drvs_fold _ _ _ Hint).
  fold (present_counters metrics). rewrite <- present_counters_nil.
  destruct (present_counters metrics) as [|v vs] eqn:Hp;
    unfold chip_set, ret; cbn [fst snd cfg]; rewrite ?set_clobber.
  - split; [reflexivity|]. split; [exact Hleaf|].
    intros Hunset. rewrite Hset. split; auto.
  - split; [reflexivity|]. split.
    + rewrite get_write_eq. unfold drvs_sum. now rewrite Hp.
    + intros _. rewrite is_set_write_eq. split; discriminate.
Qed.

(* ===================================================================== *)
(** * report.py: the winning path *)
(* ===================================================================== *)

Lemma enqueue_fold (l : list node) (sel : gset node) (ts : list node) :
  fold_left enqueue l (sel, ts) = (sel ∪ list_to_set l, ts ++ l).
Proof.
  revert sel ts. induction l as [|x l IH]; intros sel ts; simpl.
  - f_equal; [set_solver | now rewrite app_nil_r].
  - unfold enqueue at 2. simpl. rewrite IH. f_equal; [set_solver|].
    now rewrite <- app_assoc.
Qed.

Section WinningPath.

Variable m : manifest.
Variable flow : value.
Variable ends : list node.

Hypothesis typed : forall n, exists l, select_of m flow n = Ok l.

Lemma pop_last_Some {A} (l rest : list A) x :
  pop_last l = Some (rest, x) -> l = rest ++ [x].
Proof.
  unfold pop_last. destruct (last l) as [y|] eqn:Hl; [|discriminate].
  intros [= <- <-]. apply last_Some in Hl as [l' ->].
  now rewrite removelast_last.
Qed.

Lemma pop_last_None {A} (l : list A) : pop_last l = None -> l = [].
Proof.
  unfold pop_last. destruct (last l) eqn:Hl; [discriminate|].
  intros _. now apply last_None.
Qed.

(** Whatever [get] returns is [None] or one of the values of the manifest. *)
Lemma get_in_values k sc :
  Schema.get m k sc = VNone \/ Schema.get m k sc ∈ all_values m.
Proof.
  assert (Hleaf : forall sc' v, Schema.leaf_of m k !! sc' = Some v -> v ∈ all_values m).
  { intros sc' v. unfold Schema.leaf_of.
    destruct (leaves m !! k) as [leaf|] eqn:Hk; [|now rewrite lookup_empty].
    intros Hv. unfold all_values. apply elem_of_app. right.
    apply list_elem_of_In, in_flat_map. exists (k, leaf). split.
    - apply list_elem_of_In. now apply elem_of_map_to_list.
    - apply list_elem_of_In, list_elem_of_fmap. exists (sc', v).
      split; [reflexivity | now apply elem_of_map_to_list]. }
  unfold Schema.get.
  destruct (Schema.leaf_of m k !! sc) as [v|] eqn:H1; [right; eauto|].
  destruct (Schema.leaf_of m k !! global) as [v|] eqn:H2; [right; eauto|].
  unfold Schema.default_of.
  destruct (find _ (schema m)) as [e|] eqn:Hf; [right | now left].
  apply find_some in Hf as [Hin _]. unfold all_values. apply elem_of_app. left.
  apply list_elem_of_fmap. exists e. split; [reflexivity | now apply list_elem_of_In].
Qed.

Lemma select_in_universe n l x :
  select_of m flow n = Ok l -> x ∈ l -> x ∈ universe m ends.
Proof.
  unfold select_of. destruct (as_str flow) as [f|]; [|discriminate].
  set (k := ["flowgraph"; f; n.1; n.2; "select"]).
  destruct (get_in_values k global) as [Hv|Hv].
  - rewrite Hv. discriminate.
  - destruct (Schema.get m k global) as [| | | | |l'|l'] eqn:Hg; try discriminate.
    + destruct l'; [|discriminate]. intros [= <-] Hx. inversion Hx.
    + intros [= <-] Hx. unfold universe. apply elem_of_union. right.
      apply elem_of_list_to_set, list_elem_of_In, in_flat_map.
      exists (VNodes l'). split; [now apply list_elem_of_In | now apply list_elem_of_In].
Qed.

Lemma visit_old (sel : gset node) (ts : list node) y :
  y ∈ sel -> visit (sel, ts) y = (sel, ts).
Proof. intros H. unfold visit. simpl. now rewrite bool_decide_eq_true_2. Qed.

Lemma visit_new (sel : gset node) (ts : list node) y :
  y ∉ sel -> visit (sel, ts) y = ({[y]} ∪ sel, ts ++ [y]).
Proof. intros H. unfold visit. simpl. now rewrite bool_decide_eq_false_2. Qed.

(** The loop over the inputs of a node: what it selects and queues. *)
Lemma visit_fold (l : list node) (sel : gset node) (ts : list node) :
  (forall x, x ∈ l -> x ∈ universe m ends) ->
  let acc := fold_left visit l (sel, ts) in
  acc.1 = sel ∪ list_to_set l /\
  (forall x, x ∈ acc.2 <-> x ∈ ts \/ (x ∈ l /\ x ∉ sel)) /\
  (length acc.2 + size (universe m ends ∖ acc.1)
   = length ts + size (universe m ends ∖ sel))%nat.
Proof.
  revert sel ts. induction l as [|y l IH]; intros sel ts HU; simpl.
  - split; [set_solver|]. split; [|reflexivity].
    intros x. split; [auto | intros [?|[H _]]; [auto | inversion H]].
  - assert (HUl : forall x, x ∈ l -> x ∈ universe m ends) by (intros; apply HU; now right).
    destruct (decide (y ∈ sel)) as [Hy|Hy];
      [rewrite (visit_old _ _ _ Hy) | rewrite (visit_new _ _ _ Hy)].
    + destruct (IH sel ts HUl) as (H1 & H2 & H3). repeat split.
      * rewrite H1. set_solver.
      * intros Hx. apply H2 in Hx as [?|[? ?]]; [auto | right; split; [now right | auto]].
      * intros [?|[Hx Hn]]; apply H2; [auto|]. right. split; [|exact Hn].
        apply elem_of_cons in Hx as [->|]; [contradiction | assumption].
      * exact H3.
    + destruct (IH ({[y]} ∪ sel) (ts ++ [y]) HUl) as (H1 & H2 & H3). repeat split.
      * rewrite H1. set_solver.
      * intros Hx. apply H2 in Hx as [Hx|[? Hn]].
        -- apply elem_of_app in Hx as [?|Hx]; [auto|]. right.
           apply list_elem_of_singleton in Hx as ->. split; [now left | assumption].
        -- right. split; [now right | set_solver].
      * intros [?|[Hx Hn]]; apply H2.
        -- left. apply elem_of_app. now left.
        -- destruct (decide (x = y)) as [->|Hne].
           ++ left. apply elem_of_app. right. now left.
           ++ right. apply elem_of_cons in Hx as [?|?]; [contradiction|]. split; [assumption | set_solver].
      * assert (Hyu : y ∈ universe m ends) by (apply HU; now left).
        assert (E : universe m ends ∖ sel = {[y]} ∪ universe m ends ∖ ({[y]} ∪ sel)).
        { apply set_eq. intros z. destruct (decide (z = y)); set_solver. }
        assert (Hsz : size (universe m ends ∖ sel)
                      = S (size (universe m ends ∖ ({[y]} ∪ sel)))).
        { rewrite E, size_union, size_singleton by set_solver. reflexivity. }
        rewrite H3, length_app, Hsz. simpl. lia.
Qed.

(** The search loop: with fuel beyond its measure it returns, and what it
    returns is the least closed set that holds the end nodes. *)
Lemma search_back_spec (fuel : nat) (sel : gset node) (ts : list node) :
  (forall n, n ∈ ts -> n ∈ sel) ->
  (forall n, n ∈ ends -> n ∈ sel) ->
  (forall n, n ∈ sel ->
     n ∈ ts \/ forall l x, select_of m flow n = Ok l -> x ∈ l -> x ∈ sel) ->
  (forall T : gset node,
     (forall n, n ∈ ends -> n ∈ T) -> select_closed m flow T -> sel ⊆ T) ->
  (length ts + size (universe m ends ∖ sel) < fuel)%nat ->
  exists S,
    search_back fuel m flow sel ts = Some (Ok S) /\
    (forall n, n ∈ ends -> n ∈ S) /\
    select_closed m flow S /\
    (forall T : gset node,
       (forall n, n ∈ ends -> n ∈ T) -> select_closed m flow T -> S ⊆ T).
Proof.
  revert sel ts. induction fuel as [|fuel IH]; intros sel ts Hts Hends Hdone Hleast Hfuel;
    [lia|].
  simpl. destruct (pop_last ts) as [[rest n]|] eqn:Hpop.
  - apply pop_last_Some in Hpop. subst ts.
    destruct (typed n) as [l Hl]. rewrite Hl.
    assert (HU : forall x, x ∈ l -> x ∈ universe m ends)
      by (intros x; now apply (select_in_universe n l x)).
    destruct (visit_fold l sel rest HU) as (H1 & H2 & H3).
    assert (Hn : n ∈ sel) by (apply Hts, elem_of_app; right; now left).
    apply IH.
    + intros x Hx. rewrite H1. apply H2 in Hx as [Hx|[Hx _]].
      * apply elem_of_union. left. apply Hts, elem_of_app. now left.
      * apply elem_of_union. right. now apply elem_of_list_to_set.
    + intros x Hx. rewrite H1. apply elem_of_union. left. now apply Hends.
    + intros x Hx. rewrite H1 in Hx. apply elem_of_union in Hx as [Hx|Hx].
      * destruct (Hdone x Hx) as [Hq|Hq].
        -- apply elem_of_app in Hq as [Hq|Hq]; [left; apply H2; now left|].
           apply list_elem_of_singleton in Hq as ->. right. intros l' y Hl' Hy.
           rewrite Hl in Hl'. injection Hl' as <-. rewrite H1.
           apply elem_of_union. right. now apply elem_of_list_to_set.
        -- right. intros l' y Hl' Hy. rewrite H1. apply elem_of_union. left. eauto.
      * apply elem_of_list_to_set in Hx. destruct (decide (x ∈ sel)) as [Hs|Hs].
        -- destruct (Hdone x Hs) as [Hq|Hq].
           ++ apply elem_of_app in Hq as [Hq|Hq]; [left; apply H2; now left|].
              apply list_elem_of_singleton in Hq as ->. right. intros l' y Hl' Hy.
              rewrite Hl in Hl'. injection Hl' as <-. rewrite H1.
              apply elem_of_union. right. now apply elem_of_list_to_set.
           ++ right. intros l' y Hl' Hy. rewrite H1. apply elem_of_union. left. eauto.
        -- left. apply H2. right. now split.
    + intros T HT Hclosed. rewrite H1. apply union_subseteq. split; [now apply Hleast|].
      intros x Hx. apply elem_of_list_to_set in Hx.
      apply (Hclosed n l x); [|exact Hl|exact Hx].
      now apply (Hleast T HT Hclosed).
    + rewrite length_app in Hfuel. simpl in Hfuel. lia.
  - apply pop_last_None in Hpop. subst ts. exists sel. repeat split; auto.
    intros n l x Hn Hl Hx. destruct (Hdone n Hn) as [Hq|Hq]; [inversion Hq | eauto].
Qed.

(** More fuel does not change the result. *)
Lemma search_back_mono (fuel fuel' : nat) (sel : gset node) (ts : list node) r :
  search_back fuel m flow sel ts = Some r -> (fuel <= fuel')%nat ->
  search_back fuel' m flow sel ts = Some r.
Proof.
  revert fuel' sel ts. induction fuel as [|fuel IH]; intros fuel' sel ts; [discriminate|].
  destruct fuel' as [|fuel']; [lia|]. simpl.
  destruct (pop_last ts) as [[rest n]|]; [|auto].
  destruct (select_of m flow n); [|auto].
  intros H Hle. apply IH; [exact H | lia].
Qed.

End WinningPath.

(** C6.  The 'select' leaves of the flow holding lists of nodes,
    [get_flowgraph_path] returns (with any fuel beyond the number of end
    nodes plus the number of nodes the manifest names) a set [S] that holds
    the end nodes, is closed under following 'select' edges backward, and
    is included in every set with these two properties.  In the chain
    import -> syn (indices 0 and 1) -> place where place selected index 1 of
    syn, the path from place is {import0, syn1, place0}: syn0 is left out. *)
Theorem get_flowgraph_path_least (h : host) (m : manifest)
    (end_nodes : option (list node)) :
  (forall n, exists l, select_of m (flow_of m) n = Ok l) ->
  let ends := start_nodes h m end_nodes in
  (exists S,
     (forall fuel, (length ends + size (universe m ends) < fuel)%nat ->
                   get_flowgraph_path fuel h m end_nodes = Some (Ok S)) /\
     (forall n, n ∈ ends -> n ∈ S) /\
     select_closed m (flow_of m) S /\
     (forall T : gset node,
        (forall n, n ∈ ends -> n ∈ T) -> select_closed m (flow_of m) T -> S ⊆ T))
  /\ get_flowgraph_path 4 sample_host chain_flow (Some [("place", "0")])
     = Some (Ok {[("import", "0"); ("syn", "1"); ("place", "0")]})
  /\ ("syn", "0") ∉ ({[("import", "0"); ("syn", "1"); ("place", "0")]} : gset node).
Proof.
  intros Htyped ends. split; [|split; [vm_compute; reflexivity | by_decide]].
  destruct (search_back_spec m (flow_of m) ends Htyped
              (S (length ends + size (universe m ends))) (list_to_set ends) ends)
    as (S & HS & Hends & Hclosed & Hleast).
  - intros n Hn. now apply elem_of_list_to_set.
  - intros n Hn. now apply elem_of_list_to_set.
  - intros n Hn. left. now apply elem_of_list_to_set in Hn.
  - intros T HT _ n Hn. apply elem_of_list_to_set in Hn. now apply HT.
  - assert (size (universe m ends ∖ list_to_set ends) <= size (universe m ends))%nat
      by (apply subseteq_size; set_solver).
    lia.
  - exists S. repeat split; auto.
    intros fuel Hfuel. unfold get_flowgraph_path. fold ends.
    rewrite enqueue_fold. cbn [fst snd app].
    assert (E : (∅ : gset node) ∪ list_to_set ends = list_to_set ends) by set_solver.
    rewrite E. apply (search_back_mono _ _ _ _ _ _ _ HS). lia.
Qed.

(* ===================================================================== *)
(** * openroad.py: the writes of setup *)
(* ===================================================================== *)

Ltac head_op_tac :=
  first [ apply op_fixed | apply op_io; by_decide | apply op_output ].

Ltac setup_op_tac :=
  first
    [ apply op_env
    | apply op_var
    | apply op_parasitics
    | apply op_regex
    | apply op_report
    | apply op_require
    | apply op_files; by_decide ].

Ltac pair_in_table :=
  match goal with
  | H : (_, _) ∈ _ |- _ =>
      repeat (apply elem_of_cons in H as [H|H]; [injection H as -> ->; by_decide|]);
      inversion H
  end.

Lemma setup_libs_footprint h L : footprint (setup_op L) (setup_libs h L).
Proof.
  unfold setup_libs, setup_tapcell, require_targetlibs, require_macrolibs, add_require.
  footprint_auto; setup_op_tac.
Qed.

Lemma setup_corner_vars_footprint L : footprint (setup_op L) (setup_corner_vars L).
Proof. unfold setup_corner_vars. footprint_auto; setup_op_tac. Qed.

Lemma setup_tiecells_rest_footprint L : footprint (setup_op L) (setup_tiecells L).
Proof. unfold setup_tiecells, tiecell_body. footprint_auto; setup_op_tac. Qed.

Lemma setup_pdk_requires_footprint L : footprint (setup_op L) (setup_pdk_requires L).
Proof. unfold setup_pdk_requires, add_require. footprint_auto; setup_op_tac. Qed.

Lemma variable_body_footprint L variable : footprint (setup_op L) (variable_body L variable).
Proof. unfold variable_body. footprint_auto; setup_op_tac. Qed.

Lemma setup_variables_footprint L : footprint (setup_op L) (setup_variables L).
Proof.
  unfold setup_variables. apply footprint_for_each. intros x _.
  apply variable_body_footprint.
Qed.

Lemma setup_pdk_copy_footprint L : footprint (setup_op L) (setup_pdk_copy L).
Proof. unfold setup_pdk_copy. footprint_auto; setup_op_tac. Qed.

Lemma setup_defaults_footprint L : footprint (setup_op L) (setup_defaults L).
Proof. unfold setup_defaults. footprint_auto; setup_op_tac. Qed.

Lemma setup_pdn_footprint h L : footprint (setup_op L) (setup_pdn h L).
Proof.
  unfold setup_pdn. footprint_auto; try setup_op_tac.
  apply op_files. pair_in_table.
Qed.

Lemma setup_regex_footprint L : footprint (setup_op L) (setup_regex L).
Proof. unfold setup_regex. footprint_auto; setup_op_tac. Qed.

Lemma setup_reports_footprint L : footprint (setup_op L) (setup_reports L).
Proof. unfold setup_reports. footprint_auto; setup_op_tac. Qed.

Create HintDb setup_fp.
#[global] Hint Resolve setup_libs_footprint setup_corner_vars_footprint
  setup_tiecells_rest_footprint setup_pdk_requires_footprint setup_variables_footprint
  setup_pdk_copy_footprint setup_defaults_footprint setup_pdn_footprint
  setup_regex_footprint setup_reports_footprint : setup_fp.

Lemma setup_rest_footprint h L : footprint (setup_op L) (setup_rest h L).
Proof. unfold setup_rest. footprint_auto; auto with setup_fp. Qed.

Lemma setup_nodisplay_footprint L : footprint (setup_op L) (setup_nodisplay L).
Proof. unfold setup_nodisplay. footprint_auto. setup_op_tac. Qed.

Lemma check_delaymodel_footprint L : footprint (log_op L) (check_delaymodel L).
Proof. unfold check_delaymodel. footprint_auto. reflexivity. Qed.

(** What follows the first part: lines 106-258. *)
Lemma setup_tail_footprint h L :
  footprint (tail_op L)
    (bind (setup_nodisplay L) (fun _ =>
     bind (check_delaymodel L) (fun _ => setup_rest h L))).
Proof.
  apply footprint_bind; [|intros _; apply footprint_bind; [|intros _]].
  - eapply footprint_weaken; [|apply setup_nodisplay_footprint]. now left.
  - eapply footprint_weaken; [|apply check_delaymodel_footprint]. now right.
  - eapply footprint_weaken; [|apply setup_rest_footprint]. now left.
Qed.

Lemma setup_body_footprint h L : footprint (setup_op_log L) (setup_body h L).
Proof.
  unfold setup_body, setup_fixed, setup_io.
  footprint_auto; try (left; head_op_tac).
  - eapply footprint_weaken; [|apply setup_nodisplay_footprint]. intros o Ho. right. now left.
  - eapply footprint_weaken; [|apply check_delaymodel_footprint]. intros o Ho. right. now right.
  - eapply footprint_weaken; [|apply setup_rest_footprint]. intros o Ho. right. now left.
Qed.

(** [read_locals] only reads. *)
Lemma read_locals_pure h mode c : (read_locals h mode c).1 = c.
Proof.
  unfold read_locals, bind, reads, chip_get, lift, ret. simpl.
  destruct (as_list _) as [l|]; simpl; [|reflexivity].
  destruct (py_first l); reflexivity.
Qed.

(** What [read_locals] returns, when it returns. *)
Lemma read_locals_ok h mode c L :
  (read_locals h mode c).2 = Ok L ->
  step L = Schema.get (cfg c) ["arg"; "step"] global /\
  index L = Schema.get (cfg c) ["arg"; "index"] global /\
  node_scope L = arg_scope (cfg c) /\
  task L = chip_get_task h (cfg c) (step L) (index L) /\
  flow L = Schema.get (cfg c) ["option"; "flow"] global /\
  pdkname L = Schema.get (cfg c) ["option"; "pdk"] global /\
  Schema.get (cfg c) ["asic"; "logiclib"] global = VList (targetlibs L) /\
  py_first (targetlibs L) = Ok (mainlib L) /\
  macrolibs L = Schema.get (cfg c) ["asic"; "macrolib"] global /\
  stackup L = Schema.get (cfg c) ["option"; "stackup"] global /\
  delaymodel L = Schema.get (cfg c) ["asic"; "delaymodel"] global /\
  libtype L = Schema.get (cfg c) ["library"; mainlib L; "asic"; "libarch"] global /\
  clobber L = is_show_screenshot mode (task L).
Proof.
  unfold read_locals, bind, reads, chip_get, lift, ret. simpl.
  destruct (Schema.get (cfg c) ["asic"; "logiclib"] global) as [| | | | |l|] eqn:Hl;
    simpl; try discriminate.
  destruct (py_first l) as [lib|] eqn:Hlib; simpl; [|discriminate].
  intros [= <-]. simpl. repeat split; auto.
Qed.

(** A run of [setup]: it stops at once with the chip untouched, or reads
    its locals and runs its body. *)
Lemma setup_run h mode c :
  (exists e, setup h mode c = (c, Raise e)) \/
  (exists L, (read_locals h mode c).2 = Ok L /\ setup h mode c = setup_body h L c).
Proof.
  unfold setup, bind. pose proof (read_locals_pure h mode c) as Hp.
  destruct (read_locals h mode c) as [c' [L|e]]; simpl in Hp; subst c'.
  - right. exists L. split; reflexivity.
  - left. now exists e.
Qed.
Lemma leaves_set_ne (m : manifest) k v sc clobber k' :
  k <> k' -> leaves (Schema.set m k v sc clobber) !! k' = leaves m !! k'.
Proof.
  intros H. destruct (set_cases m k v sc clobber) as [-> | ->];
    [reflexivity | now apply leaves_write_ne].
Qed.

Lemma leaves_add_ne (m : manifest) k v sc k' :
  k <> k' -> leaves (Schema.add m k v sc) !! k' = leaves m !! k'.
Proof. intros H. unfold Schema.add. now apply leaves_write_ne. Qed.

Lemma get_leaf (m m' : manifest) k sc :
  schema m = schema m' -> leaves m !! k = leaves m' !! k ->
  Schema.get m k sc = Schema.get m' k sc.
Proof.
  intros Hs Hl. unfold Schema.get, Schema.leaf_of, Schema.default_of. now rewrite Hs, Hl.
Qed.

Lemma schema_set (m : manifest) k v sc clobber :
  schema (Schema.set m k v sc clobber) = schema m.
Proof. destruct (set_cases m k v sc clobber) as [-> | ->]; reflexivity. Qed.

Lemma schema_add (m : manifest) k v sc : schema (Schema.add m k v sc) = schema m.
Proof. reflexivity. Qed.

(** No effect of [setup] changes the schema. *)
Lemma schema_stable L s : stable (setup_op_log L) (fun c => schema (cfg c) = s).
Proof.
  intros c o _ Hc. destruct o; simpl; [now rewrite schema_set | exact Hc | exact Hc].
Qed.

(** A variable of the task that is already set for the node (and is neither
    'parasitics' nor one of the two file lists) keeps its leaf whatever
    [setup] does. *)
Lemma var_leaf_stable (L : locals) (variable : string) (l0 : option (gmap scope value)) :
  variable ∉ ["parasitics"; "pdn_config"; "global_connect"] ->
  (forall m : manifest, leaves m !! task_key L ["var"; variable] = l0 ->
             Schema.is_set m (task_key L ["var"; variable]) (node_scope L) = true) ->
  stable (setup_op_log L)
    (fun c => leaves (cfg c) !! task_key L ["var"; variable] = l0).
Proof.
  intros Hvar Hset c o Ho Hc. destruct Ho as [Ho|[Ho| ->]]; [| |exact Hc].
  { destruct Ho; rewrite ?cfg_apply_set, ?cfg_apply_add;
      rewrite ?leaves_set_ne, ?leaves_add_ne; try exact Hc;
      unfold task_key; congruence. }
  destruct Ho; rewrite ?cfg_apply_set, ?cfg_apply_add;
    try (rewrite ?leaves_set_ne, ?leaves_add_ne; [exact Hc|];
         unfold task_key; congruence).
  - destruct (decide (name = variable)) as [->|Hne].
    + rewrite set_noclobber; [exact Hc | now apply Hset].
    + rewrite leaves_set_ne; [exact Hc|]. unfold task_key. congruence.
  - rewrite leaves_set_ne; [exact Hc|]. unfold task_key. intros [= <-].
    apply Hvar. by_decide.
  - rewrite leaves_add_ne; [exact Hc|]. unfold task_key. intros [= ->].
    apply Hvar. apply elem_of_cons. now right.
Qed.
(** The variable defaults of lines 160-182 never touch a variable the
    user has set: after [setup], completed or not, its leaf is the same. *)
Lemma setup_keeps_variable (h : host) (mode : string) (c : chip) (variable : string) :
  let key := ["tool"; "openroad"; "task";
              chip_get_task h (cfg c) (Schema.get (cfg c) ["arg"; "step"] global)
                (Schema.get (cfg c) ["arg"; "index"] global);
              "var"; variable] in
  variable ∉ ["parasitics"; "pdn_config"; "global_connect"] ->
  Schema.is_set (cfg c) key (arg_scope (cfg c)) = true ->
  leaves (cfg (setup h mode c).1) !! key = leaves (cfg c) !! key /\
  schema (cfg (setup h mode c).1) = schema (cfg c).
Proof.
  intros key Hvar Hset.
  destruct (setup_run h mode c) as [[e ->] | (L & HL & ->)]; [split; reflexivity|].
  destruct (read_locals_ok h mode c L HL) as (Hstep & Hindex & Hsc & Htask & _).
  assert (Hkey : key = task_key L ["var"; variable]).
  { unfold key, task_key, tool. now rewrite Htask, Hstep, Hindex. }
  split.
  - rewrite Hkey.
    apply (footprint_stable (setup_op_log L)
             (fun c' => leaves (cfg c') !! task_key L ["var"; variable]
                        = leaves (cfg c) !! task_key L ["var"; variable]));
      [apply setup_body_footprint | | reflexivity].
    apply var_leaf_stable; [exact Hvar|].
    intros m Hm. rewrite Hsc, <- Hkey. rewrite <- Hset. apply is_set_leaf.
    now rewrite Hkey.
  - apply (footprint_stable (setup_op_log L) (fun c' => schema (cfg c') = schema (cfg c)));
      [apply setup_body_footprint | apply schema_stable | reflexivity].
Qed.

Lemma variables_plain (variable : string) :
  variable ∈ variables -> variable ∉ ["parasitics"; "pdn_config"; "global_connect"].
Proof. revert variable. apply Forall_forall. by_decide. Qed.

(** C1.  [set] with [clobber=False] does not overwrite:
    - on a leaf that reads as a non-default value at the scope, it changes
      nothing;
    - after a first [set] with [clobber=False], a second one changes
      nothing, for all values and every scope;
    - so on a leaf that was unset, the two [set]s leave the first value;
    - and the variables whose defaults [setup] copies from the main library
      (written with [clobber=False]) keep the value the user set for the
      node, whether [setup] completes or raises. *)
Theorem set_noclobber_keeps :
  (forall (m : manifest) (k : keypath) (sc : scope) (v2 : value),
     Schema.get m k sc <> Schema.default_of m k ->
     Schema.set m k v2 sc false = m) /\
  (forall (m : manifest) (k : keypath) (sc : scope) (v v2 : value),
     Schema.set (Schema.set m k v sc false) k v2 sc false = Schema.set m k v sc false) /\
  (forall (m : manifest) (k : keypath) (sc : scope) (v v2 : value),
     Schema.is_set m k sc = false ->
     Schema.get (Schema.set (Schema.set m k v sc false) k v2 sc false) k sc = v) /\
  (forall (h : host) (mode : string) (c : chip) (variable : string),
     let sc := arg_scope (cfg c) in
     let key := ["tool"; "openroad"; "task";
                 chip_get_task h (cfg c) (Schema.get (cfg c) ["arg"; "step"] global)
                   (Schema.get (cfg c) ["arg"; "index"] global);
                 "var"; variable] in
     variable ∈ variables ->
     Schema.is_set (cfg c) key sc = true ->
     leaves (cfg (setup h mode c).1) !! key = leaves (cfg c) !! key /\
     Schema.get (cfg (setup h mode c).1) key sc = Schema.get (cfg c) key sc).
Proof.
  split; [|split; [|split]].
  - intros m k sc v2 Hget. apply set_noclobber.
    destruct (Schema.is_set m k sc) eqn:E; [reflexivity|]. exfalso. apply Hget.
    unfold Schema.is_set in E. unfold Schema.get.
    destruct (Schema.leaf_of m k !! sc); [discriminate|].
    destruct (Schema.leaf_of m k !! global); [discriminate | reflexivity].
  - intros m k sc v v2. apply set_noclobber, is_set_set.
  - intros m k sc v v2 Hunset.
    rewrite (set_noclobber (Schema.set m k v sc false)) by apply is_set_set.
    rewrite (set_unset _ _ _ _ _ Hunset). apply get_write_eq.
  - intros h mode c variable sc key Hvar Hset.
    destruct (setup_keeps_variable h mode c variable (variables_plain _ Hvar) Hset)
      as [Hl Hs].
    split; [exact Hl | now apply get_leaf].
Qed.
Lemma bind_ret_unit (s : M unit) c : (s ;; ret tt) c = s c.
Proof. unfold bind, ret. destruct (s c) as [c' [[]|e]]; reflexivity. Qed.

Lemma bind_ext {A B} (s : M A) (k k' : A -> M B) c :
  (forall a c', k a c' = k' a c') -> bind s k c = bind s k' c.
Proof. intros H. unfold bind. destruct (s c) as [c' [a|e]]; [apply H | reflexivity]. Qed.

Lemma append_inv_head (s a b : string) : s +:+ a = s +:+ b -> a = b.
Proof.
  induction s as [|x s IH]; [now rewrite !append_nil_l|].
  rewrite !append_cons. intros [= H]. now apply IH.
Qed.

(** The joined key-paths of two variables of the main library differ when
    the variables do. *)
Lemma tie_key_inj L (a b : string) :
  PyStr.join "," (tie_key L a) = PyStr.join "," (tie_key L b) -> a = b.
Proof.
  unfold PyStr.join, tie_key, tool. cbn [String.concat].
  rewrite !append_cons, !append_nil_l. intros [= H].
  apply append_inv_head in H. now injection H.
Qed.

Lemma tiecell_body_footprint L :
  footprint (tiecell_op L)
    (tiecell_body L ("openroad_tiehigh_cell", "openroad_tiehigh_port")).
Proof.
  unfold tiecell_body. footprint_auto; eexists; (split; [reflexivity|]).
  - apply elem_of_cons. right. now left.
  - now left.
Qed.

(** What a sequence of tie-cell effects does to the manifest: it appends to
    the requirements of the node and leaves every other leaf alone. *)
Lemma tiecell_ops_effect L (ops : list op) c :
  Forall (tiecell_op L) ops ->
  Schema.seq_of (Schema.stored (cfg (apply_ops c ops)) (require_key L) (node_scope L))
  = Schema.seq_of (Schema.stored (cfg c) (require_key L) (node_scope L))
    ++ flat_map added_path ops /\
  (forall k, k <> require_key L ->
             leaves (cfg (apply_ops c ops)) !! k = leaves (cfg c) !! k) /\
  logged (apply_ops c ops) = logged c.
Proof.
  intros H. revert c. induction H as [|o ops (path & -> & Hpath) _ IH]; intros c.
  - simpl. now rewrite app_nil_r.
  - change (apply_ops c (OAdd (require_key L) path (node_scope L) :: ops))
      with (apply_ops (apply_op c (OAdd (require_key L) path (node_scope L))) ops).
    destruct (IH (apply_op c (OAdd (require_key L) path (node_scope L))))
      as (H1 & H2 & H3).
    rewrite H1, H3. rewrite cfg_apply_add. unfold Schema.add at 1.
    rewrite stored_write_eq. simpl. rewrite <- app_assoc. repeat split.
    intros k Hk. rewrite H2 by exact Hk. rewrite cfg_apply_add.
    apply leaves_add_ne. congruence.
Qed.

Lemma setup_tiecells_footprint L : footprint (tiecell_op L) (setup_tiecells L).
Proof.
  unfold setup_tiecells. apply footprint_for_each. intros vars Hin.
  unfold tiecell_table in Hin.
  repeat (apply elem_of_cons in Hin as [->|Hin]; [apply tiecell_body_footprint|]).
  inversion Hin.
Qed.

(** C9.  The table of the tie-cell loop is the tie-high pair twice; running
    the loop is running its body twice on that pair; all it does to the
    manifest is append to the requirements of the node, and each path it
    appends is the tie-high cell or the tie-high port key-path of the main
    library: neither tie-low key-path is among them. *)
Theorem tiecell_loop_spec (L : locals) (c : chip) :
  let tiehigh := ("openroad_tiehigh_cell", "openroad_tiehigh_port") in
  let c' := (setup_tiecells L c).1 in
  tiecell_table = [tiehigh; tiehigh] /\
  setup_tiecells L c
  = bind (tiecell_body L tiehigh) (fun _ => tiecell_body L tiehigh) c /\
  exists added : list string,
    Schema.seq_of (Schema.stored (cfg c') (require_key L) (node_scope L))
    = Schema.seq_of (Schema.stored (cfg c) (require_key L) (node_scope L)) ++ added /\
    (forall k, k <> require_key L -> leaves (cfg c') !! k = leaves (cfg c) !! k) /\
    logged c' = logged c /\
    (forall path, path ∈ added ->
       path = PyStr.join "," (tie_key L "openroad_tiehigh_cell") \/
       path = PyStr.join "," (tie_key L "openroad_tiehigh_port")) /\
    (PyStr.join "," (tie_key L "openroad_tielow_cell") ∉ added) /\
    (PyStr.join "," (tie_key L "openroad_tielow_port") ∉ added).
Proof.
  intros tiehigh c'. split; [reflexivity|]. split.
  - unfold setup_tiecells, tiecell_table. simpl. apply bind_ext.
    intros [] c1. apply bind_ret_unit.
  - destruct (setup_tiecells_footprint L c) as (ops & Hops & Hc'). fold c' in Hc'.
    exists (flat_map added_path ops).
    destruct (tiecell_ops_effect L ops c Hops) as (H1 & H2 & H3).
    rewrite Hc'. split; [exact H1|]. split; [exact H2|]. split; [exact H3|].
    assert (Hadded : forall path, path ∈ flat_map added_path ops ->
              path = PyStr.join "," (tie_key L "openroad_tiehigh_cell") \/
              path = PyStr.join "," (tie_key L "openroad_tiehigh_port")).
    { intros path Hin. apply list_elem_of_In, in_flat_map in Hin as (o & Ho & Hp).
      rewrite Forall_forall in Hops. apply list_elem_of_In in Ho.
      destruct (Hops o Ho) as (path' & -> & Hpath'). simpl in Hp.
      destruct Hp as [<-|[]].
      apply elem_of_cons in Hpath' as [->|Hpath']; [now left|].
      apply list_elem_of_singleton in Hpath' as ->. now right. }
    split; [exact Hadded|].
    split; intros Hin; apply Hadded in Hin as [Hin|Hin];
      apply tie_key_inj in Hin; discriminate.
Qed.
Lemma get_set_ne (m : manifest) k v sc clobber k' sc' :
  k <> k' -> Schema.get (Schema.set m k v sc clobber) k' sc' = Schema.get m k' sc'.
Proof.
  intros H. apply get_leaf; [apply schema_set | now apply leaves_set_ne].
Qed.

Lemma get_add_ne (m : manifest) k v sc k' sc' :
  k <> k' -> Schema.get (Schema.add m k v sc) k' sc' = Schema.get m k' sc'.
Proof. intros H. apply get_leaf; [reflexivity | now apply leaves_add_ne]. Qed.

Lemma is_set_set_ne (m : manifest) k v sc clobber k' sc' :
  k <> k' -> Schema.is_set (Schema.set m k v sc clobber) k' sc' = Schema.is_set m k' sc'.
Proof. intros H. apply is_set_leaf. now apply leaves_set_ne. Qed.

Lemma valid_leaf (m m' : manifest) k :
  leaves m !! k = leaves m' !! k -> Schema.valid m k = Schema.valid m' k.
Proof. intros H. unfold Schema.valid. now rewrite H. Qed.

(** The children of a prefix outside the 'tool' subtree depend on the
    leaves outside that subtree only. *)
Lemma children_same_inputs (m0 m : manifest) (a : string) (p : keypath) :
  same_inputs m0 m -> a <> "tool" ->
  Schema.children m (a :: p) = Schema.children m0 (a :: p).
Proof.
  intros [_ Hl] Ha. unfold Schema.children. apply set_eq. intros x.
  rewrite !elem_of_set_omap.
  split; intros (k & Hk & Hc); exists k; (split; [|exact Hc]);
    apply elem_of_dom; apply elem_of_dom in Hk;
    pose proof (child_of_hd _ _ _ _ Hc) as Hhd;
    [rewrite <- Hl | rewrite Hl]; auto; rewrite Hhd; congruence.
Qed.

Lemma getkeys_same_inputs (m0 m : manifest) (a : string) (p : keypath) :
  same_inputs m0 m -> a <> "tool" ->
  Schema.getkeys m (a :: p) = Schema.getkeys m0 (a :: p).
Proof. intros H Ha. unfold Schema.getkeys. now rewrite (children_same_inputs m0 m). Qed.

Lemma get_same_inputs (m0 m : manifest) (a : string) (p : keypath) sc :
  same_inputs m0 m -> a <> "tool" ->
  Schema.get m (a :: p) sc = Schema.get m0 (a :: p) sc.
Proof.
  intros [Hs Hl] Ha. apply get_leaf; [exact Hs|]. apply Hl. simpl. congruence.
Qed.

Lemma valid_same_inputs (m0 m : manifest) (a : string) (p : keypath) :
  same_inputs m0 m -> a <> "tool" ->
  Schema.valid m (a :: p) = Schema.valid m0 (a :: p).
Proof. intros [Hs Hl] Ha. apply valid_leaf, Hl. simpl. congruence. Qed.

Lemma same_inputs_refl (m : manifest) : same_inputs m m.
Proof. split; auto. Qed.

(** Every effect of [setup] is a write in the 'tool' subtree (or a log):
    the leaves outside are the same afterwards. *)
Lemma same_inputs_stable L (m0 : manifest) :
  stable (setup_op_log L) (fun c => same_inputs m0 (cfg c)).
Proof.
  intros c o Ho [Hs Hl].
  assert (Hset : forall k v sc clobber, hd_error k = Some "tool" ->
            same_inputs m0 (Schema.set (cfg c) k v sc clobber)).
  { intros k v sc clobber Hk. split; [now rewrite schema_set|].
    intros k' Hk'. rewrite leaves_set_ne; [now apply Hl | congruence]. }
  assert (Hadd : forall k v sc, hd_error k = Some "tool" ->
            same_inputs m0 (Schema.add (cfg c) k v sc)).
  { intros k v sc Hk. split; [exact Hs|].
    intros k' Hk'. rewrite leaves_add_ne; [now apply Hl | congruence]. }
  destruct Ho as [Ho|[Ho| ->]]; [| |now split];
    destruct Ho; rewrite ?cfg_apply_set, ?cfg_apply_add;
    first [apply Hset | apply Hadd]; reflexivity.
Qed.

Lemma thread_key_stable L v :
  stable (tail_op L)
    (fun c => Schema.get (cfg c) (task_key L ["threads"]) (node_scope L) = v).
Proof.
  intros c o Ho Hc. destruct Ho as [Ho| ->]; [|exact Hc].
  destruct Ho; rewrite ?cfg_apply_set, ?cfg_apply_add;
    rewrite ?get_set_ne, ?get_add_ne; try exact Hc; unfold task_key; congruence.
Qed.

(** Lines 96-104: the thread count is written when the mode clobbers or the
    leaf is unset. *)
Lemma setup_io_threads L threads c :
  clobber L = true \/
  Schema.is_set (cfg c) (task_key L ["threads"]) (node_scope L) = false ->
  (setup_io L threads c).2 = Ok tt /\
  Schema.get (cfg (setup_io L threads c).1) (task_key L ["threads"]) (node_scope L)
  = threads /\
  same_inputs (cfg c) (cfg (setup_io L threads c).1).
Proof.
  intros H. split; [reflexivity|]. split.
  - unfold setup_io, bind, chip_set, chip_add. cbn [fst snd cfg].
    rewrite !get_add_ne by (unfold task_key; congruence).
    destruct H as [-> | H].
    + rewrite (set_clobber _ (task_key L ["threads"])). apply get_write_eq.
    + rewrite (set_unset _ (task_key L ["threads"])); [apply get_write_eq|].
      rewrite !is_set_set_ne by (unfold task_key; congruence). exact H.
  - apply (footprint_stable (setup_op_log L) (fun c' => same_inputs (cfg c) (cfg c')));
      [|apply same_inputs_stable|apply same_inputs_refl].
    unfold setup_io. footprint_auto; left; head_op_tac.
Qed.
Lemma read_locals_returns h mode c lib libs :
  Schema.get (cfg c) ["asic"; "logiclib"] global = VList (lib :: libs) ->
  exists L, (read_locals h mode c).2 = Ok L /\ targetlibs L = lib :: libs /\ mainlib L = lib.
Proof.
  intros H. unfold read_locals, bind, reads, chip_get, lift, ret. simpl.
  rewrite H. simpl. eexists. split; [reflexivity|]. split; reflexivity.
Qed.

Lemma compute_threads_same_inputs h L (m0 m : manifest) :
  same_inputs m0 m -> compute_threads h L m = compute_threads h L m0.
Proof.
  intros H. unfold compute_threads.
  rewrite (get_same_inputs m0 m) by (auto; discriminate).
  destruct (negb _); [|reflexivity].
  destruct (as_str (flow L)) as [f|]; [|reflexivity].
  rewrite (getkeys_same_inputs m0 m) by (auto; discriminate).
  destruct (value_in _ _); [|reflexivity].
  destruct (as_str (step L)) as [s|]; [|reflexivity].
  now rewrite (getkeys_same_inputs m0 m) by (auto; discriminate).
Qed.

(** Lines 83-86 complete, and write in the 'tool' subtree only, away from
    the task. *)
Lemma setup_fixed_run L c :
  (setup_fixed L c).2 = Ok tt /\
  same_inputs (cfg c) (cfg (setup_fixed L c).1) /\
  forall k, length k <> 3%nat ->
            leaves (cfg (setup_fixed L c).1) !! k = leaves (cfg c) !! k.
Proof.
  split; [reflexivity|]. split.
  - apply (footprint_stable (setup_op_log L) (fun c' => same_inputs (cfg c) (cfg c')));
      [|apply same_inputs_stable|apply same_inputs_refl].
    unfold setup_fixed. footprint_auto; left; head_op_tac.
  - intros k Hk. unfold setup_fixed, bind, chip_set. cbn [fst snd cfg].
    rewrite !leaves_set_ne; [reflexivity|..]; intros <-; simpl in Hk; congruence.
Qed.

Lemma setup_unfold h mode c L :
  (read_locals h mode c).2 = Ok L -> setup h mode c = setup_body h L c.
Proof.
  intros HL. unfold setup. apply bind_ok.
  pose proof (read_locals_pure h mode c) as Hp.
  destruct (read_locals h mode c) as [c' r]. simpl in *. now subst.
Qed.

(** The thread count after [setup], when the value computed at lines 88-92
    is [threads] and the leaf can be written. *)
Lemma setup_threads_written h mode c lib libs threads :
  Schema.get (cfg c) ["asic"; "logiclib"] global = VList (lib :: libs) ->
  let m := cfg c in
  let task := chip_get_task h m (Schema.get m ["arg"; "step"] global)
                (Schema.get m ["arg"; "index"] global) in
  let key := ["tool"; "openroad"; "task"; task; "threads"] in
  (forall L, (read_locals h mode c).2 = Ok L -> compute_threads h L m = Ok threads) ->
  is_show_screenshot mode task = true \/ Schema.is_set m key (arg_scope m) = false ->
  Schema.get (cfg (setup h mode c).1) key (arg_scope m) = threads.
Proof.
  intros Hlibs m task key Hthreads Hwrite. subst m. cbv zeta in *.
  destruct (read_locals_returns h mode c lib libs Hlibs) as (L & HL & _).
  rewrite (setup_unfold h mode c L HL).
  destruct (read_locals_ok h mode c L HL)
    as (Hstep & Hindex & Hsc & Htask & _ & _ & _ & _ & _ & _ & _ & _ & Hclobber).
  assert (Hkey : key = task_key L ["threads"]).
  { unfold key, task, task_key, tool. now rewrite Htask, Hstep, Hindex. }
  rewrite Hkey, <- Hsc in *.
  destruct (setup_fixed_run L c) as (Hok1 & Hin1 & Hl1).
  unfold setup_body.
  destruct (setup_fixed L c) as [c1 r1] eqn:E1. simpl in Hok1, Hin1, Hl1. subst r1.
  rewrite (bind_ok _ _ _ _ _ E1).
  assert (Hct : reads_result (compute_threads h L) c1 = (c1, Ok threads)).
  { unfold reads_result. rewrite (compute_threads_same_inputs h L (cfg c) (cfg c1) Hin1).
    now rewrite (Hthreads L HL). }
  rewrite (bind_ok _ _ _ _ _ Hct).
  destruct (setup_io_threads L threads c1) as (Hok2 & Hget & _).
  { destruct Hwrite as [Hw|Hw];
      [left; unfold task in Hw; now rewrite Hclobber, Htask, Hstep, Hindex|].
    right. rewrite (is_set_leaf (cfg c1) (cfg c)); [exact Hw|]. apply Hl1.
    unfold task_key. simpl. discriminate. }
  destruct (setup_io L threads c1) as [c2 r2] eqn:E2. simpl in Hok2, Hget. subst r2.
  rewrite (bind_ok _ _ _ _ _ E2).
  apply (footprint_stable (tail_op L)
           (fun c' => Schema.get (cfg c') (task_key L ["threads"]) (node_scope L) = threads));
    [apply setup_tail_footprint | apply thread_key_stable | exact Hget].
Qed.
(** A thread count already set for the node is kept outside the show and
    screenshot modes. *)
Lemma thread_leaf_stable (L : locals) (l0 : option (gmap scope value)) :
  clobber L = false ->
  (forall m : manifest, leaves m !! task_key L ["threads"] = l0 ->
             Schema.is_set m (task_key L ["threads"]) (node_scope L) = true) ->
  stable (setup_op_log L) (fun c => leaves (cfg c) !! task_key L ["threads"] = l0).
Proof.
  intros Hcl Hset c o Ho Hc. destruct Ho as [Ho|[Ho| ->]]; [| |exact Hc].
  - destruct Ho as [name v cl|name v Hname|v]; rewrite ?cfg_apply_set, ?cfg_apply_add.
    + rewrite leaves_set_ne; [exact Hc|]. unfold task_key. congruence.
    + destruct (decide (name = "threads")) as [->|Hne].
      * rewrite Hcl, set_noclobber; [exact Hc | now apply Hset].
      * rewrite leaves_set_ne; [exact Hc|]. unfold task_key. congruence.
    + rewrite leaves_add_ne; [exact Hc|]. unfold task_key. congruence.
  - destruct Ho; rewrite ?cfg_apply_set, ?cfg_apply_add;
      rewrite ?leaves_set_ne, ?leaves_add_ne; try exact Hc; unfold task_key; congruence.
Qed.

Lemma setup_threads_kept h mode c :
  let m := cfg c in
  let task := chip_get_task h m (Schema.get m ["arg"; "step"] global)
                (Schema.get m ["arg"; "index"] global) in
  let key := ["tool"; "openroad"; "task"; task; "threads"] in
  is_show_screenshot mode task = false ->
  Schema.is_set m key (arg_scope m) = true ->
  Schema.get (cfg (setup h mode c).1) key (arg_scope m) = Schema.get m key (arg_scope m).
Proof.
  intros m task key Hmode Hset. subst m. cbv zeta in *.
  destruct (setup_run h mode c) as [[e ->] | (L & HL & ->)]; [reflexivity|].
  destruct (read_locals_ok h mode c L HL)
    as (Hstep & Hindex & Hsc & Htask & _ & _ & _ & _ & _ & _ & _ & _ & Hclobber).
  assert (Hkey : key = task_key L ["threads"]).
  { unfold key, task, task_key, tool. now rewrite Htask, Hstep, Hindex. }
  apply get_leaf.
  - apply (footprint_stable (setup_op_log L) (fun c' => schema (cfg c') = schema (cfg c)));
      [apply setup_body_footprint | apply schema_stable | reflexivity].
  - rewrite Hkey.
    apply (footprint_stable (setup_op_log L)
             (fun c' => leaves (cfg c') !! task_key L ["threads"]
                        = leaves (cfg c) !! task_key L ["threads"]));
      [apply setup_body_footprint | | reflexivity].
    apply thread_leaf_stable.
    + rewrite Hclobber, Htask, Hstep, Hindex. exact Hmode.
    + intros m Hm. rewrite Hsc, <- Hkey.
      rewrite (is_set_leaf m (cfg c)); [exact Hset | now rewrite Hkey].
Qed.

(** C7 as stated fails: on a chip whose thread count the user has set to 1
    for the node, a batch-mode [setup] on a host of 8 processors, the step
    having 2 indices, leaves it at 1, not at 4. *)
Lemma threads_claim_fails :
  Schema.get (cfg (setup sample_host "batch" threads_chip).1)
    ["tool"; "openroad"; "task"; "place"; "threads"] (Some "place", Some "0") = VInt 1 /\
  ceil_div 8 (Z.of_nat (length (Schema.getkeys (cfg threads_chip)
                                  ["flowgraph"; "asicflow"; "place"]))) = 4 /\
  ~ threads_claim.
Proof.
  split; [vm_compute; reflexivity|]. split; [vm_compute; reflexivity|].
  intros H.
  specialize (H sample_host "batch" threads_chip 8 "asicflow" "place"
                eq_refl eq_refl eq_refl eq_refl).
  assert (Hin : "place" ∈ Schema.getkeys (cfg threads_chip) ["flowgraph"; "asicflow"])
    by by_decide.
  specialize (H Hin). vm_compute in H. discriminate H.
Qed.

(* ===================================================================== *)
(** * openroad.py: the thread count *)
(* ===================================================================== *)

(** C7, amended.  [setup] reaching its line 88 (the logic library list is
    not empty) on a host whose processor count is [n]:
    - when the run is not remote and the step of the node is a step of the
      flow with [np > 0] indices, the thread count computed is
      [ceil(n / np)]; otherwise it is [n];
    - the computed count is written for the node with the [clobber] of the
      mode: it becomes the thread count of the node in the show and
      screenshot modes, or when no thread count was set;
    - in the other modes a thread count already set is kept. *)
Theorem setup_threads (h : host) (mode : string) (c : chip) (lib : string)
    (libs : list string) (n : Z) :
  Schema.get (cfg c) ["asic"; "logiclib"] global = VList (lib :: libs) ->
  os_cpu_count h = Some n ->
  let m := cfg c in
  let step := Schema.get m ["arg"; "step"] global in
  let task := chip_get_task h m step (Schema.get m ["arg"; "index"] global) in
  let key := ["tool"; "openroad"; "task"; task; "threads"] in
  let sc := arg_scope m in
  let remote := truthy (Schema.get m ["option"; "remote"] global) in
  let writable :=
    is_show_screenshot mode task = true \/ Schema.is_set m key sc = false in
  let c' := (setup h mode c).1 in
  (forall f s,
     remote = false ->
     Schema.get m ["option"; "flow"] global = VStr f ->
     step = VStr s ->
     s ∈ Schema.getkeys m ["flowgraph"; f] ->
     let np := Z.of_nat (length (Schema.getkeys m ["flowgraph"; f; s])) in
     0 < np ->
     writable ->
     Schema.get (cfg c') key sc = VInt (ceil_div n np)) /\
  (remote = true \/
   (exists f, Schema.get m ["option"; "flow"] global = VStr f /\
              value_in step (Schema.getkeys m ["flowgraph"; f]) = false) ->
   writable ->
   Schema.get (cfg c') key sc = VInt n) /\
  (is_show_screenshot mode task = false ->
   Schema.is_set m key sc = true ->
   Schema.get (cfg c') key sc = Schema.get m key sc).
Proof.
  intros Hlibs Hcpu m step task key sc remote writable c'.
  subst m step task key sc remote writable c'. cbv zeta.
  split; [|split].
  - intros f s Hremote Hflow Hstep Hin Hnp Hw.
    apply (setup_threads_written h mode c lib libs _ Hlibs); [|exact Hw].
    intros L HL.
    destruct (read_locals_ok h mode c L HL) as (HLstep & _ & _ & _ & HLflow & _).
    unfold compute_threads. rewrite Hremote, HLflow, Hflow, HLstep, Hstep. simpl.
    rewrite bool_decide_eq_true_2 by exact Hin.
    unfold threads_per_index. rewrite Hcpu.
    destruct (Z.eqb_spec (Z.of_nat (length (Schema.getkeys (cfg c) ["flowgraph"; f; s]))) 0);
      [lia | reflexivity].
  - intros Hother Hw.
    apply (setup_threads_written h mode c lib libs _ Hlibs); [|exact Hw].
    intros L HL.
    destruct (read_locals_ok h mode c L HL) as (HLstep & _ & _ & _ & HLflow & _).
    unfold compute_threads, cpu_count_value. rewrite Hcpu.
    destruct Hother as [Hremote | (f & Hflow & Hnot)].
    + now rewrite Hremote.
    + destruct (negb _); [|reflexivity].
      rewrite HLflow, Hflow, HLstep. simpl. now rewrite Hnot.
  - apply setup_threads_kept.
Qed.

Lemma setup_threads_witness :
  Schema.get (cfg sample_chip) ["asic"; "logiclib"] global = VList ["nangate45"] /\
  os_cpu_count sample_host = Some 8 /\
  Schema.get (cfg (setup sample_host "batch" sample_chip).1)
    ["tool"; "openroad"; "task"; "place"; "threads"] (Some "place", Some "0")
  = VInt 4.
Proof.
  split; [reflexivity|]. split; [reflexivity|].
  refine (proj1 (setup_threads sample_host "batch" sample_chip "nangate45" [] 8
                   eq_refl eq_refl) "asicflow" "place" eq_refl eq_refl eq_refl _ _ _).
  - by_decide.
  - vm_compute. reflexivity.
  - right. vm_compute. reflexivity.
Defined.
Lemma fold_result_ext {A S} (f g : S -> A -> result S) (l : list A) (s : S) :
  (forall s x, f s x = g s x) -> fold_result f l s = fold_result g l s.
Proof.
  intros H. revert s. induction l as [|x l IH]; intros s; [reflexivity|].
  simpl. rewrite H. destruct (g s x); [apply IH | reflexivity].
Qed.

Lemma arg_scope_same_inputs (m0 m : manifest) :
  same_inputs m0 m -> arg_scope m = arg_scope m0.
Proof.
  intros H. unfold arg_scope. now rewrite !(get_same_inputs m0 m) by (auto; discriminate).
Qed.

Lemma get_corners_same_inputs (m0 m : manifest) :
  same_inputs m0 m -> get_corners m = get_corners m0.
Proof.
  intros H. unfold get_corners.
  rewrite (arg_scope_same_inputs m0 m H), (getkeys_same_inputs m0 m) by (auto; discriminate).
  erewrite fold_result_ext; [reflexivity|]. intros s x. simpl.
  now rewrite (get_same_inputs m0 m) by (auto; discriminate).
Qed.

Lemma get_pex_corners_same_inputs (m0 m : manifest) :
  same_inputs m0 m -> get_pex_corners m = get_pex_corners m0.
Proof.
  intros H. unfold get_pex_corners.
  rewrite (arg_scope_same_inputs m0 m H), (getkeys_same_inputs m0 m) by (auto; discriminate).
  erewrite fold_result_ext; [reflexivity|]. intros s x. simpl.
  now rewrite (get_same_inputs m0 m) by (auto; discriminate).
Qed.

Lemma corner_by_check_loop_same_inputs (m0 m : manifest) sc check l :
  same_inputs m0 m ->
  corner_by_check_loop m sc check l = corner_by_check_loop m0 sc check l.
Proof.
  intros H. induction l as [|x l IH]; [reflexivity|]. simpl.
  rewrite !(get_same_inputs m0 m) by (auto; discriminate). now rewrite IH.
Qed.

Lemma get_power_corner_same_inputs (m0 m : manifest) :
  same_inputs m0 m -> get_power_corner m = get_power_corner m0.
Proof.
  intros H. unfold get_power_corner, get_corner_by_check.
  rewrite (arg_scope_same_inputs m0 m H), (getkeys_same_inputs m0 m) by (auto; discriminate).
  now rewrite (corner_by_check_loop_same_inputs m0 m), (get_corners_same_inputs m0 m).
Qed.

(* ===================================================================== *)
(** * openroad.py: setup past the delay model check *)
(* ===================================================================== *)

Section Runs.

Context {A B : Type}.
Variable I : chip -> Prop.

Lemma runs_ret (a : A) : runs I (ret a).
Proof. now apply triple_ret. Qed.

Lemma runs_bind (s : M A) (k : A -> M B) :
  runs I s -> (forall a, runs I (k a)) -> runs I (bind s k).
Proof. intros Hs Hk. eapply triple_bind; [exact Hs | exact Hk]. Qed.

Lemma runs_lift (r : result A) : (exists a, r = Ok a) -> runs I (lift r).
Proof. intros [a ->]. now apply (triple_lift _ _ a). Qed.

Lemma runs_reads (f : manifest -> A) : runs I (reads f).
Proof. now apply triple_reads. Qed.

Lemma runs_reads_result (f : manifest -> result A) :
  (forall c, I c -> exists a, f (cfg c) = Ok a) -> runs I (reads_result f).
Proof.
  intros H. apply triple_reads_result. intros c Hc.
  destruct (H c Hc) as [a Ha]. eauto.
Qed.

End Runs.

Section RunsUnit.

Variable I : chip -> Prop.

Lemma runs_get k sc : runs I (chip_get k sc).
Proof. now apply triple_get. Qed.

Lemma runs_valid k : runs I (chip_valid k).
Proof. now apply triple_valid. Qed.

Lemma runs_getkeys k : runs I (chip_getkeys k).
Proof. now apply triple_getkeys. Qed.

Lemma runs_set k v sc clobber :
  (forall c, I c -> I (apply_op c (OSet k v sc clobber))) ->
  runs I (chip_set k v sc clobber).
Proof. intros H. now apply triple_set. Qed.

Lemma runs_add k v sc :
  (forall c, I c -> I (apply_op c (OAdd k v sc))) -> runs I (chip_add k v sc).
Proof. intros H. now apply triple_add. Qed.

Lemma runs_log msg :
  (forall c, I c -> I (apply_op c (OLog msg))) -> runs I (logger_error msg).
Proof. intros H. now apply triple_log. Qed.

Lemma runs_when (b : bool) (s : M unit) : runs I s -> runs I (when b s).
Proof. apply triple_when. Qed.

Lemma runs_for_each {A} (l : list A) (body : A -> M unit) :
  (forall x, x ∈ l -> runs I (body x)) -> runs I (for_each l body).
Proof. apply triple_for_each. Qed.

End RunsUnit.

Ltac runs_step solve_op solve_lift :=
  lazymatch goal with
  | |- runs _ (ret _) => apply runs_ret
  | |- runs _ (lift _) => apply runs_lift; solve_lift
  | |- runs _ (reads _) => apply runs_reads
  | |- runs _ (chip_get _ _) => apply runs_get
  | |- runs _ (chip_valid _) => apply runs_valid
  | |- runs _ (chip_getkeys _) => apply runs_getkeys
  | |- runs _ (bind _ _) => apply runs_bind; [|intros ?]
  | |- runs _ (when _ _) => apply runs_when
  | |- runs _ (for_each _ _) => apply runs_for_each; intros ? ?
  | |- runs _ (chip_set _ _ _ _) => apply runs_set; intros ? ?; solve_op
  | |- runs _ (chip_add _ _ _) => apply runs_add; intros ? ?; solve_op
  | |- runs _ (logger_error _) => apply runs_log; intros ? ?; solve_op
  | |- runs _ (match ?x with _ => _ end) => destruct x eqn:?
  end.

Section DelayModel.

Variables (h : host) (L : locals) (m0 : manifest).
Variables (st p lt d lib pc : string) (libs ml cs pcs : list string).

Hypothesis Hstack : stackup L = VStr st.
Hypothesis Hst : st <> EmptyString.
Hypothesis Hpdk : pdkname L = VStr p.
Hypothesis Hlt : libtype L = VStr lt.
Hypothesis Hd : delaymodel L = VStr d.
Hypothesis Hml : macrolibs L = VList ml.
Hypothesis Htl : targetlibs L = lib :: libs.
Hypothesis Hcorners : get_corners m0 = Ok cs.
Hypothesis Hpex : get_pex_corners m0 = Ok pcs.
Hypothesis Hpower : get_power_corner m0 = Ok pc.
Variable threads : value.
Hypothesis Hthreads : compute_threads h L m0 = Ok threads.
Hypothesis Hnot : d <> "nldm".

Let inputs (c : chip) : Prop := same_inputs m0 (cfg c).

Ltac solve_op :=
  apply (same_inputs_stable L m0); [|assumption];
  first [ left; head_op_tac
        | right; left; setup_op_tac
        | right; right; reflexivity ].

Ltac solve_lift :=
  unfold join_path, path_of; rewrite ?Hstack, ?Hpdk, ?Hlt, ?Hd, ?Hml;
  eexists; reflexivity.

Ltac runs_auto := repeat runs_step solve_op solve_lift.

Ltac by_runs := refine (_ : runs _ _); runs_auto.

Lemma runs_corners : runs inputs (reads_result get_corners).
Proof.
  apply runs_reads_result. intros c Hc. exists cs.
  now rewrite (get_corners_same_inputs m0).
Qed.

Lemma runs_setup_libs : runs inputs (setup_libs h L).
Proof.
  unfold setup_libs. rewrite Hstack, Htl.
  replace (truthy (VStr st)) with true by (destruct st; [congruence | reflexivity]).
  cbn [andb].
  unfold setup_tapcell, require_targetlibs, require_macrolibs, add_require.
  runs_auto; apply runs_corners.
Qed.

Lemma runs_setup_corner_vars : runs inputs (setup_corner_vars L).
Proof.
  unfold setup_corner_vars. runs_auto.
  - apply runs_corners.
  - apply runs_reads_result. intros c Hc. exists pcs.
    now rewrite (get_pex_corners_same_inputs m0).
  - apply runs_reads_result. intros c Hc. exists pc.
    now rewrite (get_power_corner_same_inputs m0).
Qed.

Lemma runs_setup_tiecells : runs inputs (setup_tiecells L).
Proof. unfold setup_tiecells, tiecell_body. runs_auto. Qed.

Lemma runs_setup_pdk_requires : runs inputs (setup_pdk_requires L).
Proof. unfold setup_pdk_requires, add_require. runs_auto. Qed.

Lemma runs_setup_variables : runs inputs (setup_variables L).
Proof. unfold setup_variables, variable_body. runs_auto. Qed.

Lemma runs_setup_pdk_copy : runs inputs (setup_pdk_copy L).
Proof. unfold setup_pdk_copy. runs_auto. Qed.

Lemma runs_setup_defaults : runs inputs (setup_defaults L).
Proof. unfold setup_defaults. runs_auto. Qed.

Lemma runs_setup_pdn : runs inputs (setup_pdn h L).
Proof.
  unfold setup_pdn. runs_auto.
  apply runs_add. intros c Hc. apply (same_inputs_stable L m0); [|assumption].
  right. left. apply op_files.
  match goal with
  | H : (_, _) ∈ _ |- _ =>
      repeat (apply elem_of_cons in H as [H|H]; [injection H as -> ->; by_decide|]);
      inversion H
  end.
Qed.

Lemma runs_setup_regex : runs inputs (setup_regex L).
Proof. unfold setup_regex. runs_auto. Qed.

Lemma runs_setup_reports : runs inputs (setup_reports L).
Proof. unfold setup_reports. runs_auto. Qed.

Lemma runs_setup_rest : runs inputs (setup_rest h L).
Proof.
  unfold setup_rest.
  apply runs_bind; [apply runs_setup_libs | intros _].
  apply runs_bind; [apply runs_setup_corner_vars | intros _].
  apply runs_bind; [apply runs_setup_tiecells | intros _].
  apply runs_bind; [apply runs_setup_pdk_requires | intros _].
  apply runs_bind; [apply runs_setup_variables | intros _].
  apply runs_bind; [apply runs_setup_pdk_copy | intros _].
  apply runs_bind; [apply runs_setup_defaults | intros _].
  apply runs_bind; [apply runs_setup_pdn | intros _].
  apply runs_bind; [apply runs_setup_regex | intros _].
  apply runs_setup_reports.
Qed.


(** ** What the blocks establish *)

Let sc : scope := node_scope L.

Lemma stored_add (m : manifest) k v :
  Schema.seq_of (Schema.stored (Schema.add m k v sc) k sc)
  = Schema.seq_of (Schema.stored m k sc) ++ [v].
Proof. unfold Schema.add. now rewrite stored_write_eq. Qed.

Lemma stored_set_ne (m : manifest) k v sc1 clobber k' sc' :
  k <> k' -> Schema.stored (Schema.set m k v sc1 clobber) k' sc' = Schema.stored m k' sc'.
Proof.
  intros H. destruct (set_cases m k v sc1 clobber) as [-> | ->];
    [reflexivity | now apply stored_write_ne].
Qed.

Lemma is_set_set_mono (m : manifest) k v sc1 clobber k' sc' :
  Schema.is_set m k' sc' = true -> Schema.is_set (Schema.set m k v sc1 clobber) k' sc' = true.
Proof.
  intros H. destruct (set_cases m k v sc1 clobber) as [-> | ->];
    [exact H | now apply is_set_write_mono].
Qed.

(** A leaf that is set stays set. *)
Lemma is_set_stable k sc' :
  stable (setup_op L) (fun c => Schema.is_set (cfg c) k sc' = true).
Proof.
  intros c o _ Hc. destruct o; simpl; [now apply is_set_set_mono | | exact Hc].
  unfold Schema.add. now apply is_set_write_mono.
Qed.

(** A requirement of the node stays one. *)
Lemma require_stable (x : string) :
  stable (setup_op L)
    (fun c => x ∈ Schema.seq_of (Schema.stored (cfg c) (require_key L) sc)).
Proof.
  intros c o Ho Hc. unfold require_key in *.
  destruct Ho; rewrite ?cfg_apply_set, ?cfg_apply_add;
    try (rewrite stored_set_ne; [exact Hc | unfold task_key; congruence]).
  - rewrite stored_add. apply elem_of_app. now left.
  - unfold Schema.add. rewrite stored_write_ne; [exact Hc | unfold task_key; congruence].
Qed.

(** A report binding stays bound to the metrics file. *)
Lemma report_stable (metric : string) :
  stable (setup_op L)
    (fun c => Schema.get (cfg c) (task_key L ["report"; metric]) sc
              = VStr "reports/metrics.json").
Proof.
  intros c o Ho Hc.
  destruct Ho; rewrite ?cfg_apply_set, ?cfg_apply_add;
    try (rewrite ?get_set_ne, ?get_add_ne; [exact Hc | unfold task_key; congruence]).
  destruct (decide (name = metric)) as [->|Hne].
  - rewrite set_clobber. apply get_write_eq.
  - rewrite get_set_ne; [exact Hc | unfold task_key; congruence].
Qed.

(** The parasitics file stays what line 145 made it. *)
Lemma parasitics_stable :
  stable (setup_op L)
    (fun c => Schema.get (cfg c) (task_key L ["var"; "parasitics"]) sc
              = VStr "inputs/sc_parasitics.tcl" /\
              Schema.is_set (cfg c) (task_key L ["var"; "parasitics"]) sc = true).
Proof.
  intros c o Ho [Hc Hs]. split; [|now apply is_set_stable].
  destruct Ho; rewrite ?cfg_apply_set, ?cfg_apply_add;
    try (rewrite ?get_set_ne, ?get_add_ne; [exact Hc | unfold task_key; congruence]).
  - destruct (decide (name = "parasitics")) as [->|Hne].
    + rewrite set_noclobber; [exact Hc | exact Hs].
    + rewrite get_set_ne; [exact Hc | unfold task_key; congruence].
  - rewrite set_clobber. apply get_write_eq.
  - rewrite get_add_ne; [exact Hc|]. unfold task_key. intros [= ->].
    revert H. change (~ "parasitics" ∈ ["pdn_config"; "global_connect"]). by_decide.
Qed.

Lemma stable_and P (F G : chip -> Prop) :
  stable P F -> stable P G -> stable P (fun c => F c /\ G c).
Proof. intros HF HG c o Ho [H1 H2]. split; [now apply HF | now apply HG]. Qed.

Lemma stable_forall {X} P (l : list X) (G : X -> chip -> Prop) :
  (forall x, stable P (G x)) -> stable P (fun c => forall x, x ∈ l -> G x c).
Proof. intros HG c o Ho H x Hx. apply HG; auto. Qed.

(** A loop each of whose iterations establishes a stable fact establishes
    them all. *)
Lemma for_each_establish {X} (P : op -> Prop) (I : chip -> Prop)
    (G : X -> chip -> Prop) (l : list X) (body : X -> M unit) :
  (forall x, x ∈ l -> triple I (body x) (fun _ c => I c /\ G x c)) ->
  (forall x, x ∈ l -> footprint P (body x)) ->
  (forall y, stable P (G y)) ->
  triple I (for_each l body) (fun _ c => I c /\ forall y, y ∈ l -> G y c).
Proof.
  intros Hbody Hfp Hstab. induction l as [|x l IH]; simpl.
  - apply triple_ret. intros c Hc. split; [exact Hc|]. intros y Hy. inversion Hy.
  - eapply triple_bind; [apply Hbody; now left|]. intros [].
    eapply triple_conseq;
      [| |apply (triple_frame P (G x) I (for_each l body)
                   (fun _ c => I c /\ forall y, y ∈ l -> G y c))].
    + intros c Hc. exact Hc.
    + intros [] c [[Hc Hl] Hx]. split; [exact Hc|]. intros y Hy.
      apply elem_of_cons in Hy as [->|Hy]; auto.
    + apply footprint_for_each. intros y Hy. apply Hfp. now right.
    + apply Hstab.
    + apply IH; intros y Hy; [apply Hbody | apply Hfp]; now right.
Qed.


(** A fact established by a statement survives what follows when the
    effects of what follows cannot break it. *)
Lemma triple_then (P : op -> Prop) (I F G : chip -> Prop) (s1 s2 : M unit) :
  triple I s1 (fun _ c => I c /\ F c) ->
  triple I s2 (fun _ c => I c /\ G c) ->
  footprint P s2 -> stable P F ->
  triple I (bind s1 (fun _ => s2)) (fun _ c => I c /\ F c /\ G c).
Proof.
  intros H1 H2 Hfp Hstab. eapply triple_bind; [exact H1|]. intros [].
  eapply triple_conseq; [| |apply (triple_frame P F I s2 (fun _ c => I c /\ G c))];
    auto.
  intros [] c [[Hc HG] HF]. auto.
Qed.

Lemma runs_true (I : chip -> Prop) (s : M unit) :
  runs I s -> triple I s (fun _ c => I c /\ True).
Proof. intros H. eapply triple_conseq; [| |exact H]; auto. Qed.

Lemma add_require_establish (segs : list value) (path : string) :
  join_path segs = Ok path ->
  triple inputs (add_require L segs) (fun _ c => inputs c /\ path ∈ requires L c).
Proof.
  intros Hpath c Hc. unfold add_require, bind, lift. rewrite Hpath.
  exists tt. split; [reflexivity|].
  change (chip_add (task_key L ["require"]) path (node_scope L) c).1
    with (apply_op c (OAdd (task_key L ["require"]) path (node_scope L))).
  split.
  - apply (same_inputs_stable L m0); [|exact Hc]. right. left. apply op_require.
  - unfold requires, require_key. rewrite cfg_apply_add. fold sc.
    rewrite stored_add. apply elem_of_app. right. now left.
Qed.

Lemma add_require_footprint (segs : list value) :
  footprint (setup_op L) (add_require L segs).
Proof. unfold add_require. footprint_auto. setup_op_tac. Qed.

(** Lines 155-158: the four requirements on the PDK. *)
Lemma setup_pdk_requires_establish :
  triple inputs (setup_pdk_requires L)
    (fun _ c => inputs c /\
       forall name,
         name ∈ ["rclayer_signal"; "rclayer_clock"; "pin_layer_horizontal";
                 "pin_layer_vertical"] ->
         PyStr.join "," ["pdk"; p; "var"; "openroad"; name; st] ∈ requires L c).
Proof.
  assert (Hone : forall name,
            triple inputs
              (add_require L [VStr "pdk"; pdkname L; VStr "var"; VStr "openroad";
                              VStr name; stackup L])
              (fun _ c => inputs c /\
                 PyStr.join "," ["pdk"; p; "var"; "openroad"; name; st] ∈ requires L c)).
  { intros name. apply add_require_establish. unfold join_path. now rewrite Hpdk, Hstack. }
  unfold setup_pdk_requires.
  eapply triple_conseq; [intros c Hc; exact Hc| |].
  2:{ apply (triple_then (setup_op L)); [apply Hone| |footprint_auto; apply add_require_footprint|apply require_stable].
      apply (triple_then (setup_op L)); [apply Hone| |footprint_auto; apply add_require_footprint|apply require_stable].
      apply (triple_then (setup_op L)); [apply Hone|apply Hone|apply add_require_footprint|apply require_stable]. }
  intros [] c (Hc & H1 & H2 & H3 & H4). split; [exact Hc|].
  intros name Hname.
  repeat (apply elem_of_cons in Hname as [->|Hname]; [assumption|]). inversion Hname.
Qed.

(** Lines 167-182: each variable is required. *)
Lemma setup_variables_establish :
  triple inputs (setup_variables L)
    (fun _ c => inputs c /\
       forall variable, variable ∈ variables ->
         PyStr.join "," (task_key L ["var"; variable]) ∈ requires L c).
Proof.
  unfold setup_variables.
  apply (for_each_establish (setup_op L) inputs
           (fun variable c => PyStr.join "," (task_key L ["var"; variable]) ∈ requires L c)).
  - intros x _. unfold variable_body.
    eapply triple_bind; [apply runs_valid|]. intros present.
    eapply triple_bind.
    { by_runs. }
    intros []. apply triple_add. intros c Hc. split.
    + apply (same_inputs_stable L m0); [|exact Hc]. right. left. apply op_require.
    + unfold requires, require_key. rewrite cfg_apply_add. fold sc.
      rewrite stored_add. apply elem_of_app. right. now left.
  - intros x _. apply variable_body_footprint.
  - intros y. apply require_stable.
Qed.

(** Lines 192-232: every default variable is set. *)
Lemma setup_defaults_establish :
  triple inputs (setup_defaults L)
    (fun _ c => inputs c /\
       forall name, name ∈ map fst (default_vars VNone VNone) ->
         Schema.is_set (cfg c) (task_key L ["var"; name]) sc = true).
Proof.
  unfold setup_defaults.
  eapply triple_bind; [apply runs_lift; solve_lift|]. intros min_key.
  eapply triple_bind; [apply runs_get|]. intros minlayer.
  eapply triple_bind; [apply runs_lift; solve_lift|]. intros max_key.
  eapply triple_bind; [apply runs_get|]. intros maxlayer.
  eapply triple_conseq; [intros c Hc; exact Hc| |].
  2:{ apply (for_each_establish (setup_op L) inputs
               (fun (entry : string * value) c =>
                  Schema.is_set (cfg c) (task_key L ["var"; entry.1]) sc = true)).
      - intros entry _. apply triple_set. intros c Hc. split.
        + apply (same_inputs_stable L m0); [|exact Hc]. right. left. apply op_var.
        + rewrite cfg_apply_set. apply is_set_set.
      - intros entry _. footprint_auto. apply op_var.
      - intros entry. apply is_set_stable. }
  intros [] c [Hc Hall]. split; [exact Hc|]. intros name Hname.
  change (map fst (default_vars VNone VNone))
    with (map fst (default_vars minlayer maxlayer)) in Hname.
  apply list_elem_of_fmap in Hname as (entry & -> & Hentry). now apply Hall.
Qed.

(** Lines 247-251: both patterns are set. *)
Lemma setup_regex_establish :
  triple inputs (setup_regex L)
    (fun _ c => inputs c /\
       forall name, name ∈ ["warnings"; "errors"] ->
         Schema.is_set (cfg c) (task_key L ["regex"; name]) sc = true).
Proof.
  unfold setup_regex.
  eapply triple_conseq; [intros c Hc; exact Hc| |].
  2:{ apply (triple_then (setup_op L) inputs
               (fun c => Schema.is_set (cfg c) (task_key L ["regex"; "warnings"]) sc = true)
               (fun c => Schema.is_set (cfg c) (task_key L ["regex"; "errors"]) sc = true)).
      - apply triple_set. intros c Hc. split.
        + apply (same_inputs_stable L m0); [|exact Hc]. right. left. apply op_regex.
        + rewrite cfg_apply_set. apply is_set_set.
      - apply triple_set. intros c Hc. split.
        + apply (same_inputs_stable L m0); [|exact Hc]. right. left. apply op_regex.
        + rewrite cfg_apply_set. apply is_set_set.
      - footprint_auto. apply op_regex.
      - apply is_set_stable. }
  intros [] c (Hc & H1 & H2). split; [exact Hc|]. intros name Hname.
  repeat (apply elem_of_cons in Hname as [->|Hname]; [assumption|]). inversion Hname.
Qed.

(** Lines 253-258: every metric is bound to the metrics file. *)
Lemma setup_reports_establish :
  triple inputs (setup_reports L)
    (fun _ c => inputs c /\
       forall metric, metric ∈ report_metrics ->
         Schema.get (cfg c) (task_key L ["report"; metric]) sc
         = VStr "reports/metrics.json").
Proof.
  unfold setup_reports.
  apply (for_each_establish (setup_op L) inputs
           (fun metric c => Schema.get (cfg c) (task_key L ["report"; metric]) sc
                            = VStr "reports/metrics.json")).
  - intros metric _. apply triple_set. intros c Hc. split.
    + apply (same_inputs_stable L m0); [|exact Hc]. right. left. apply op_report.
    + rewrite cfg_apply_set, set_clobber. apply get_write_eq.
  - intros metric _. footprint_auto. apply op_report.
  - intros metric. apply report_stable.
Qed.

(** Lines 142-145: the parasitics file. *)
Lemma setup_corner_vars_establish :
  triple inputs (setup_corner_vars L)
    (fun _ c => inputs c /\
       (Schema.get (cfg c) (task_key L ["var"; "parasitics"]) sc
        = VStr "inputs/sc_parasitics.tcl" /\
        Schema.is_set (cfg c) (task_key L ["var"; "parasitics"]) sc = true)).
Proof.
  pose proof runs_setup_corner_vars as Hruns. unfold setup_corner_vars in *.
  unfold setup_corner_vars.
  eapply triple_bind; [apply runs_corners|]. intros tc.
  eapply triple_bind; [by_runs|]. intros [].
  eapply triple_bind.
  { apply runs_reads_result. intros c Hc. exists pcs.
    now rewrite (get_pex_corners_same_inputs m0). }
  intros pxc.
  eapply triple_bind; [by_runs|]. intros [].
  eapply triple_bind.
  { apply runs_reads_result. intros c Hc. exists pc.
    now rewrite (get_power_corner_same_inputs m0). }
  intros pwc.
  eapply triple_bind; [by_runs|]. intros [].
  apply triple_set. intros c Hc. split; [|split].
  - apply (same_inputs_stable L m0); [|exact Hc]. right. left. apply op_parasitics.
  - rewrite cfg_apply_set, set_clobber. apply get_write_eq.
  - rewrite cfg_apply_set. apply is_set_set.
Qed.

Lemma stable_true P : stable P (fun _ => True).
Proof. intros c o _ _. exact I. Qed.

Ltac suffix_footprint := footprint_auto; auto with setup_fp.

(** Lines 113-258 complete and leave the node configured. *)
Lemma setup_rest_configures :
  triple inputs (setup_rest h L) (fun _ c => inputs c /\ configured L p st c).
Proof.
  unfold setup_rest.
  eapply triple_conseq; [intros c Hc; exact Hc| |].
  2:{ apply (triple_then (setup_op L));
        [apply runs_true, runs_setup_libs| |suffix_footprint|apply stable_true].
      apply (triple_then (setup_op L));
        [apply setup_corner_vars_establish| |suffix_footprint|apply parasitics_stable].
      apply (triple_then (setup_op L));
        [apply runs_true, runs_setup_tiecells| |suffix_footprint|apply stable_true].
      apply (triple_then (setup_op L));
        [apply setup_pdk_requires_establish| |suffix_footprint
        |apply stable_forall; intros x; apply require_stable].
      apply (triple_then (setup_op L));
        [apply setup_variables_establish| |suffix_footprint
        |apply stable_forall; intros x; apply require_stable].
      apply (triple_then (setup_op L));
        [apply runs_true, runs_setup_pdk_copy| |suffix_footprint|apply stable_true].
      apply (triple_then (setup_op L));
        [apply setup_defaults_establish| |suffix_footprint
        |apply stable_forall; intros x; apply is_set_stable].
      apply (triple_then (setup_op L));
        [apply runs_true, runs_setup_pdn| |suffix_footprint|apply stable_true].
      apply (triple_then (setup_op L));
        [apply setup_regex_establish|apply setup_reports_establish|suffix_footprint
        |apply stable_forall; intros x; apply is_set_stable]. }
  intros [] c (Hc & _ & Hp & _ & Hr & Hv & _ & Hd' & _ & Hx & Hrep).
  split; [exact Hc|]. unfold configured. fold sc. auto 10.
Qed.

(** No write touches the log. *)
Lemma logged_stable (P : op -> Prop) (lg : list string) :
  (forall o, P o -> forall msg, o <> OLog msg) ->
  stable P (fun c => logged c = lg).
Proof.
  intros HP c o Ho Hc. destruct o; simpl; auto. exfalso. now apply (HP _ Ho msg).
Qed.

Lemma head_op_no_log o : head_op L o -> forall msg, o <> OLog msg.
Proof. intros Ho msg. destruct Ho; discriminate. Qed.

Lemma setup_op_no_log o : setup_op L o -> forall msg, o <> OLog msg.
Proof. intros Ho msg. destruct Ho; discriminate. Qed.

Lemma runs_setup_fixed : runs inputs (setup_fixed L).
Proof. unfold setup_fixed. runs_auto. Qed.

Lemma runs_compute_threads : runs inputs (reads_result (compute_threads h L)).
Proof.
  apply runs_reads_result. intros c Hc. exists threads.
  now rewrite (compute_threads_same_inputs h L m0).
Qed.

Lemma runs_setup_io v : runs inputs (setup_io L v).
Proof. unfold setup_io. runs_auto. Qed.

Lemma runs_setup_nodisplay : runs inputs (setup_nodisplay L).
Proof. unfold setup_nodisplay. runs_auto. Qed.

Lemma setup_fixed_footprint : footprint (head_op L) (setup_fixed L).
Proof. unfold setup_fixed. footprint_auto; head_op_tac. Qed.

Lemma setup_io_footprint v : footprint (head_op L) (setup_io L v).
Proof. unfold setup_io. footprint_auto; head_op_tac. Qed.

(** Lines 110-111 on a delay model other than 'nldm': one error is logged,
    nothing is raised, the manifest is untouched. *)
Lemma check_delaymodel_logs c :
  check_delaymodel L c
  = (Chip (cfg c)
       (logged c ++ [d +:+ " delay model is not supported by openroad, only nldm"]),
     Ok tt).
Proof.
  unfold check_delaymodel, delaymodel_message. rewrite Hd. simpl.
  destruct (String.eqb_spec d "nldm") as [->|_]; [congruence | reflexivity].
Qed.

(** Lines 83-258 complete, log the one error and leave the node
    configured. *)
Lemma setup_body_configures (lg : list string) :
  triple (fun c => inputs c /\ logged c = lg) (setup_body h L)
    (fun _ c =>
       (inputs c /\ configured L p st c) /\
       logged c = lg ++ [d +:+ " delay model is not supported by openroad, only nldm"]).
Proof.
  unfold setup_body.
  eapply triple_bind.
  { apply (triple_frame (head_op L) (fun c => logged c = lg) inputs);
      [apply setup_fixed_footprint | apply logged_stable, head_op_no_log
      | apply runs_setup_fixed]. }
  intros [].
  eapply triple_bind.
  { apply (triple_frame (head_op L) (fun c => logged c = lg) inputs);
      [apply footprint_reads_result | apply logged_stable, head_op_no_log
      | apply runs_compute_threads]. }
  intros v.
  eapply triple_bind.
  { apply (triple_frame (head_op L) (fun c => logged c = lg) inputs);
      [apply setup_io_footprint | apply logged_stable, head_op_no_log
      | apply runs_setup_io]. }
  intros [].
  eapply triple_bind.
  { apply (triple_frame (setup_op L) (fun c => logged c = lg) inputs);
      [apply setup_nodisplay_footprint | apply logged_stable, setup_op_no_log
      | apply runs_setup_nodisplay]. }
  intros [].
  eapply (triple_bind _ _
            (fun _ c => inputs c /\
               logged c = lg ++ [d +:+ " delay model is not supported by openroad, only nldm"])).
  { intros c [Hc Hlg]. exists tt. rewrite check_delaymodel_logs. simpl.
    rewrite Hlg. auto. }
  intros [].
  apply (triple_frame (setup_op L)
           (fun c => logged c
                     = lg ++ [d +:+ " delay model is not supported by openroad, only nldm"])
           inputs);
    [apply setup_rest_footprint | apply logged_stable, setup_op_no_log
    | apply setup_rest_configures].
Qed.

End DelayModel.
(** C8.  The delay model being a string other than 'nldm', and the chip
    being one on which the rest of [setup] does not raise (a non-empty
    logic library list, a macro library list, a PDK name, a non-empty
    stackup, a library architecture; the thread count and the corner
    helpers compute), [setup] completes: it logs the one error
    "<delaymodel> delay model is not supported by openroad, only nldm",
    raises nothing, and leaves the node configured by lines 113-258
    (parasitics file, requirements, default variables, log patterns,
    report bindings). *)
Theorem setup_survives_delaymodel (h : host) (mode : string) (c : chip)
    (p st lt d lib pc : string) (libs ml cs pcs : list string) (threads : value) :
  let m := cfg c in
  Schema.get m ["asic"; "logiclib"] global = VList (lib :: libs) ->
  Schema.get m ["asic"; "macrolib"] global = VList ml ->
  Schema.get m ["option"; "pdk"] global = VStr p ->
  Schema.get m ["option"; "stackup"] global = VStr st ->
  st <> EmptyString ->
  Schema.get m ["library"; lib; "asic"; "libarch"] global = VStr lt ->
  Schema.get m ["asic"; "delaymodel"] global = VStr d ->
  d <> "nldm" ->
  (forall L, (read_locals h mode c).2 = Ok L -> compute_threads h L m = Ok threads) ->
  get_corners m = Ok cs ->
  get_pex_corners m = Ok pcs ->
  get_power_corner m = Ok pc ->
  exists L,
    (read_locals h mode c).2 = Ok L /\
    (setup h mode c).2 = Ok tt /\
    logged (setup h mode c).1
    = logged c ++ [d +:+ " delay model is not supported by openroad, only nldm"] /\
    configured L p st (setup h mode c).1.
Proof.
  intros m Hlibs Hml Hpdk Hstack Hst Hlt Hd Hnot Hthreads Hcs Hpcs Hpc. subst m.
  destruct (read_locals_returns h mode c lib libs Hlibs) as (L & HL & Htl & Hmain).
  destruct (read_locals_ok h mode c L HL)
    as (_ & _ & _ & _ & _ & HLpdk & _ & _ & HLml & HLstack & HLd & HLlt & _).
  exists L. split; [exact HL|]. rewrite (setup_unfold h mode c L HL).
  destruct (setup_body_configures h L (cfg c) st p lt d lib pc libs ml cs pcs) with
    (threads := threads) (lg := logged c) (c := c) as ([] & Hok & (_ & Hconf) & Hlog).
  - now rewrite HLstack.
  - exact Hst.
  - now rewrite HLpdk.
  - now rewrite HLlt, Hmain.
  - now rewrite HLd.
  - now rewrite HLml.
  - exact Htl.
  - exact Hcs.
  - exact Hpcs.
  - exact Hpc.
  - now apply Hthreads.
  - exact Hnot.
  - split; [apply same_inputs_refl | reflexivity].
  - auto.
Qed.

Lemma setup_survives_delaymodel_witness :
  exists L,
    (read_locals sample_host "batch" sample_chip).2 = Ok L /\
    (setup sample_host "batch" sample_chip).2 = Ok tt /\
    logged (setup sample_host "batch" sample_chip).1
    = logged sample_chip ++ ["ccs delay model is not supported by openroad, only nldm"] /\
    configured L "freepdk45" "10M" (setup sample_host "batch" sample_chip).1.
Proof.
  apply (setup_survives_delaymodel sample_host "batch" sample_chip
           "freepdk45" "10M" "10t" "ccs" "nangate45" "slow" [] [] ["slow"] ["maximum"]
           (VInt 4)); try (vm_compute; reflexivity); try discriminate.
  intros L HL. vm_compute in HL. injection HL as <-. vm_compute. reflexivity.
Defined.
Lemma chain_flow_typed (n : node) :
  exists l, select_of chain_flow (flow_of chain_flow) n = Ok l.
Proof.
  destruct n as [s i]. unfold select_of.
  change (as_str (flow_of chain_flow)) with (Ok "asicflow" : result string).
  cbn [fst snd]. unfold Schema.get, Schema.leaf_of, chain_flow. cbn [leaves list_to_map foldr uncurry].
  rewrite !lookup_insert.
  repeat case_decide; cbn [fst snd] in *; simplify_eq;
    try (eexists; vm_compute; reflexivity).
Qed.

Lemma get_flowgraph_path_least_witness :
  (forall n, exists l, select_of chain_flow (flow_of chain_flow) n = Ok l) /\
  exists S : gset node,
    (forall fuel, (length (start_nodes sample_host chain_flow None)
                   + size (universe chain_flow (start_nodes sample_host chain_flow None))
                   < fuel)%nat ->
                  get_flowgraph_path fuel sample_host chain_flow None = Some (Ok S)) /\
    (forall n, n ∈ start_nodes sample_host chain_flow None -> n ∈ S) /\
    select_closed chain_flow (flow_of chain_flow) S /\
    (forall T : gset node,
       (forall n, n ∈ start_nodes sample_host chain_flow None -> n ∈ T) ->
       select_closed chain_flow (flow_of chain_flow) T -> S ⊆ T).
Proof.
  split; [exact chain_flow_typed|].
  exact (proj1 (get_flowgraph_path_least sample_host chain_flow None chain_flow_typed)).
Defined.

Lemma post_process_drvs_witness :
  (forall name raw, name ∈ [setup_ws; hold_ws] -> metrics_d !! name = Some raw ->
                    exists s, py_float raw = Ok s) /\
  (forall name raw, name ∈ drv_counters -> metrics_d !! name = Some raw ->
                    exists n, py_int raw = Ok n) /\
  (post_process metrics_d chip_w).2 = Ok tt /\
  Schema.get (cfg (post_process metrics_d chip_w).1) ["metric"; "drvs"]
    (arg_scope (cfg chip_w)) = VInt 5.
Proof.
  assert (Hlook : forall name raw,
            name ∈ [setup_ws; hold_ws] ++ drv_counters ->
            metrics_d !! name = Some raw ->
            raw = JInt 2 \/ raw = JInt 3).
  { intros name raw Hin. unfold drv_counters in Hin. cbn [app] in Hin.
    repeat (apply elem_of_cons in Hin as [->|Hin];
            [match goal with
             | |- ?m !! ?k = Some _ -> _ =>
                 let v := eval vm_compute in (m !! k) in
                 assert (E : m !! k = v) by (vm_compute; reflexivity);
                 rewrite E; clear E;
                 intros Hraw; first [discriminate Hraw | injection Hraw as <-; auto]
             end|]).
    inversion Hin. }
  assert (H1 : forall name raw, name ∈ [setup_ws; hold_ws] ->
                 metrics_d !! name = Some raw -> exists s, py_float raw = Ok s).
  { intros name raw Hin Hraw.
    destruct (Hlook name raw) as [-> | ->];
      [apply elem_of_app; now left | exact Hraw | |]; eexists; vm_compute; reflexivity. }
  assert (H2 : forall name raw, name ∈ drv_counters ->
                 metrics_d !! name = Some raw -> exists n, py_int raw = Ok n).
  { intros name raw Hin Hraw.
    destruct (Hlook name raw) as [-> | ->];
      [apply elem_of_app; now right | exact Hraw | |]; eexists; reflexivity. }
  split; [exact H1|]. split; [exact H2|].
  destruct (post_process_drvs metrics_d chip_w H1 H2) as (Hok & Hdrvs & _).
  split; [exact Hok|].
  assert (Hp : present_counters metrics_d = [JInt 2; JInt 3]) by (vm_compute; reflexivity).
  assert (Hs : drvs_sum metrics_d = 5) by (vm_compute; reflexivity).
  rewrite Hp, Hs in Hdrvs. exact Hdrvs.
Defined.
Lemma set_noclobber_keeps_witness :
  "place_density" ∈ variables /\
  Schema.is_set (cfg sample_chip)
    ["tool"; "openroad"; "task"; "place"; "var"; "place_density"]
    (Some "place", Some "0") = true /\
  Schema.get (cfg (setup sample_host "batch" sample_chip).1)
    ["tool"; "openroad"; "task"; "place"; "var"; "place_density"]
    (Some "place", Some "0") = VStr "0.15".
Proof.
  split; [by_decide|]. split; [vm_compute; reflexivity|].
  destruct (proj2 (proj2 (proj2 set_noclobber_keeps)) sample_host "batch" sample_chip
              "place_density") as [_ H].
  - by_decide.
  - vm_compute. reflexivity.
  - etransitivity; [exact H|]. vm_compute. reflexivity.
Defined.

(* ===================================================================== *)
(** * report.py: more on the winning path *)
(* ===================================================================== *)

Section WinningPathAlgebra.

Variable h : host.
Variable m : manifest.

Hypothesis typed : forall n, exists l, select_of m (flow_of m) n = Ok l.

(** The least closed set over the end nodes, as a property of sets. *)
Let least_over (ends : list node) (S : gset node) : Prop :=
  (forall n, n ∈ ends -> n ∈ S) /\
  select_closed m (flow_of m) S /\
  (forall T : gset node,
     (forall n, n ∈ ends -> n ∈ T) -> select_closed m (flow_of m) T -> S ⊆ T).

Lemma least_over_unique (ends : list node) (S S' : gset node) :
  least_over ends S -> least_over ends S' -> S = S'.
Proof.
  intros (H1 & H2 & H3) (H1' & H2' & H3'). apply set_eq. intros x. split.
  - apply (H3 S' H1' H2').
  - apply (H3' S H1 H2).
Qed.

Lemma path_fuel (ends : list node) :
  exists S,
    (forall fuel, (length ends + size (universe m ends) < fuel)%nat ->
                  get_flowgraph_path fuel h m (Some ends) = Some (Ok S)) /\
    least_over ends S.
Proof.
  destruct (search_back_spec m (flow_of m) ends typed
              (S (length ends + size (universe m ends))) (list_to_set ends) ends)
    as (S & HS & Hends & Hclosed & Hleast).
  - intros n Hn. now apply elem_of_list_to_set.
  - intros n Hn. now apply elem_of_list_to_set.
  - intros n Hn. left. now apply elem_of_list_to_set in Hn.
  - intros T HT _ n Hn. apply elem_of_list_to_set in Hn. now apply HT.
  - assert (size (universe m ends ∖ list_to_set ends) <= size (universe m ends))%nat
      by (apply subseteq_size; set_solver).
    lia.
  - exists S. split; [|repeat split; auto].
    intros fuel Hfuel. unfold get_flowgraph_path. cbn [start_nodes].
    rewrite enqueue_fold. cbn [fst snd app].
    assert (E : (∅ : gset node) ∪ list_to_set ends = list_to_set ends) by set_solver.
    rewrite E. apply (search_back_mono _ _ _ _ _ _ _ HS). lia.
Qed.

(** Whatever fuel it was run with, a path returned is the least closed set
    over the end nodes. *)
Lemma winning_path_least_over (ends : list node) (S : gset node) :
  winning_path h m ends S <-> least_over ends S.
Proof.
  destruct (path_fuel ends) as (S0 & Hfuel & Hleast). split.
  - intros [fuel Hrun].
    set (big := Nat.max fuel (length ends + size (universe m ends) + 1)%nat).
    assert (H0 : get_flowgraph_path big h m (Some ends) = Some (Ok S0))
      by (apply Hfuel; lia).
    assert (H1 : get_flowgraph_path big h m (Some ends) = Some (Ok S)).
    { unfold get_flowgraph_path in *. apply (search_back_mono _ _ fuel); [exact Hrun | lia]. }
    rewrite H0 in H1. injection H1 as <-. exact Hleast.
  - intros HS. rewrite (least_over_unique ends S S0 HS Hleast).
    exists (length ends + size (universe m ends) + 1)%nat. apply Hfuel. lia.
Qed.

Lemma select_closed_union (S1 S2 : gset node) :
  select_closed m (flow_of m) S1 -> select_closed m (flow_of m) S2 ->
  select_closed m (flow_of m) (S1 ∪ S2).
Proof.
  intros H1 H2 n l x Hn Hl Hx. apply elem_of_union in Hn as [Hn|Hn].
  - apply elem_of_union. left. eauto.
  - apply elem_of_union. right. eauto.
Qed.

Lemma path_union (ends1 ends2 : list node) (S1 S2 : gset node) :
  winning_path h m ends1 S1 -> winning_path h m ends2 S2 ->
  winning_path h m (ends1 ++ ends2) (S1 ∪ S2).
Proof.
  intros H1 H2. apply winning_path_least_over in H1 as (A1 & B1 & C1).
  apply winning_path_least_over in H2 as (A2 & B2 & C2).
  apply winning_path_least_over. split; [|split].
  - intros n Hn. apply elem_of_app in Hn as [Hn|Hn]; apply elem_of_union; auto.
  - now apply select_closed_union.
  - intros T HT Hclosed. apply union_subseteq. split.
    + apply C1; [|exact Hclosed]. intros n Hn. apply HT, elem_of_app. now left.
    + apply C2; [|exact Hclosed]. intros n Hn. apply HT, elem_of_app. now right.
Qed.

Lemma path_same_ends (ends ends' : list node) (S : gset node) :
  (forall n, n ∈ ends <-> n ∈ ends') ->
  winning_path h m ends S -> winning_path h m ends' S.
Proof.
  intros Hsame H. apply winning_path_least_over in H as (A & B & C).
  apply winning_path_least_over. split; [|split].
  - intros n Hn. apply A, Hsame, Hn.
  - exact B.
  - intros T HT Hclosed. apply C; [|exact Hclosed]. intros n Hn. apply HT, Hsame, Hn.
Qed.

Lemma path_again (ends : list node) (S : gset node) :
  winning_path h m ends S -> winning_path h m (elements S) S.
Proof.
  intros H. apply winning_path_least_over in H as (A & B & C).
  apply winning_path_least_over. split; [|split].
  - intros n Hn. now apply elem_of_elements in Hn.
  - exact B.
  - intros T HT _ n Hn. apply HT. now apply elem_of_elements.
Qed.

Lemma path_mono (ends ends' : list node) (S S' : gset node) :
  (forall n, n ∈ ends -> n ∈ ends') ->
  winning_path h m ends S -> winning_path h m ends' S' -> S ⊆ S'.
Proof.
  intros Hsub H H'. apply winning_path_least_over in H as (A & B & C).
  apply winning_path_least_over in H' as (A' & B' & C').
  apply C; [|exact B']. intros n Hn. apply A', Hsub, Hn.
Qed.

End WinningPathAlgebra.

(** X1.  The path from two lists of end nodes put together is the union of the
    paths from each: the 'select' leaves of the flow holding lists of
    nodes, [get_flowgraph_path] returns a set from each list, and from the
    concatenation it returns their union and nothing else. *)
Theorem winning_path_union (h : host) (m : manifest) (ends1 ends2 : list node) :
  (forall n, exists l, select_of m (flow_of m) n = Ok l) ->
  exists S1 S2 : gset node,
    winning_path h m ends1 S1 /\
    winning_path h m ends2 S2 /\
    winning_path h m (ends1 ++ ends2) (S1 ∪ S2) /\
    (forall S, winning_path h m (ends1 ++ ends2) S -> S = S1 ∪ S2).
Proof.
  intros typed.
  destruct (path_fuel h m typed ends1) as (S1 & H1 & L1).
  destruct (path_fuel h m typed ends2) as (S2 & H2 & L2).
  assert (W1 : winning_path h m ends1 S1) by now apply winning_path_least_over.
  assert (W2 : winning_path h m ends2 S2) by now apply winning_path_least_over.
  pose proof (path_union h m typed ends1 ends2 S1 S2 W1 W2) as W.
  exists S1, S2. repeat split; try assumption.
  intros S HS. apply (winning_path_least_over h m typed) in HS.
  apply (winning_path_least_over h m typed) in W.
  destruct HS as (A & B & C), W as (A' & B' & C'). apply set_eq. intros x. split.
  - apply (C _ A' B').
  - apply (C' _ A B).
Qed.

Lemma winning_path_union_witness :
  exists S1 S2 : gset node,
    winning_path sample_host chain_flow [("syn", "0")] S1 /\
    winning_path sample_host chain_flow [("place", "0")] S2 /\
    winning_path sample_host chain_flow ([("syn", "0")] ++ [("place", "0")]) (S1 ∪ S2) /\
    (forall S, winning_path sample_host chain_flow ([("syn", "0")] ++ [("place", "0")]) S ->
               S = S1 ∪ S2).
Proof.
  exact (winning_path_union sample_host chain_flow [("syn", "0")] [("place", "0")]
           chain_flow_typed).
Defined.

(** X2.  The path depends on the end nodes as a set: two lists with the same
    members (in any order, with any repetition) give the same path, and
    more end nodes give a larger path. *)
Theorem winning_path_ends_set (h : host) (m : manifest) (ends ends' : list node)
    (S S' : gset node) :
  (forall n, exists l, select_of m (flow_of m) n = Ok l) ->
  winning_path h m ends S ->
  winning_path h m ends' S' ->
  ((forall n, n ∈ ends -> n ∈ ends') -> S ⊆ S') /\
  ((forall n, n ∈ ends <-> n ∈ ends') -> S = S').
Proof.
  intros typed W W'. split.
  - intros Hsub. exact (path_mono h m typed ends ends' S S' Hsub W W').
  - intros Hsame. apply set_eq. intros x. split.
    + apply (path_mono h m typed ends ends' S S'); [|exact W|exact W'].
      intros n. apply Hsame.
    + apply (path_mono h m typed ends' ends S' S); [|exact W'|exact W].
      intros n. apply Hsame.
Qed.

Lemma winning_path_ends_set_witness :
  (forall n, exists l, select_of chain_flow (flow_of chain_flow) n = Ok l) /\
  winning_path sample_host chain_flow [("place", "0"); ("syn", "1")]
    {[("import", "0"); ("syn", "1"); ("place", "0")]} /\
  winning_path sample_host chain_flow [("syn", "1"); ("place", "0"); ("syn", "1")]
    {[("import", "0"); ("syn", "1"); ("place", "0")]} /\
  ((forall n : node, n ∈ [("place", "0"); ("syn", "1")] ->
                     n ∈ [("syn", "1"); ("place", "0"); ("syn", "1")]) ->
   ({[("import", "0"); ("syn", "1"); ("place", "0")]} : gset node)
   ⊆ {[("import", "0"); ("syn", "1"); ("place", "0")]}).
Proof.
  assert (W : winning_path sample_host chain_flow [("place", "0"); ("syn", "1")]
                {[("import", "0"); ("syn", "1"); ("place", "0")]})
    by (exists 5%nat; vm_compute; reflexivity).
  assert (W' : winning_path sample_host chain_flow
                 [("syn", "1"); ("place", "0"); ("syn", "1")]
                 {[("import", "0"); ("syn", "1"); ("place", "0")]})
    by (exists 5%nat; vm_compute; reflexivity).
  split; [exact chain_flow_typed|]. split; [exact W|]. split; [exact W'|].
  exact (proj1 (winning_path_ends_set sample_host chain_flow _ _ _ _
                  chain_flow_typed W W')).
Defined.

(** X3.  Searching again from the nodes of a path gives the same path: a path
    is closed, so its own nodes as end nodes select nothing new. *)
Theorem winning_path_idempotent (h : host) (m : manifest) (ends : list node)
    (S : gset node) :
  (forall n, exists l, select_of m (flow_of m) n = Ok l) ->
  winning_path h m ends S ->
  winning_path h m (elements S) S /\
  (forall S', winning_path h m (elements S) S' -> S' = S).
Proof.
  intros typed W. pose proof (path_again h m typed ends S W) as W2.
  split; [exact W2|]. intros S' W'.
  apply (winning_path_least_over h m typed) in W2, W'.
  destruct W2 as (A & B & C), W' as (A' & B' & C'). apply set_eq. intros x. split.
  - apply (C' _ A B).
  - apply (C _ A' B').
Qed.

Lemma winning_path_idempotent_witness :
  winning_path sample_host chain_flow [("place", "0")]
    {[("import", "0"); ("syn", "1"); ("place", "0")]} /\
  winning_path sample_host chain_flow
    (elements ({[("import", "0"); ("syn", "1"); ("place", "0")]} : gset node))
    {[("import", "0"); ("syn", "1"); ("place", "0")]}.
Proof.
  assert (W : winning_path sample_host chain_flow [("place", "0")]
                {[("import", "0"); ("syn", "1"); ("place", "0")]})
    by (exists 4%nat; vm_compute; reflexivity).
  split; [exact W|].
  exact (proj1 (winning_path_idempotent sample_host chain_flow _ _ chain_flow_typed W)).
Defined.
(* ===================================================================== *)
(** * report.py: more on searching the manifest *)
(* ===================================================================== *)

(** Induction on a Python object, with the hypothesis on every value of a
    dictionary. *)
Lemma pyobj_nested_ind (P : pyobj -> Prop) :
  (forall v, P (PVal v)) ->
  (forall items, Forall (fun kv => P kv.2) items -> P (PDict items)) ->
  forall o, P o.
Proof.
  intros Hval Hdict. fix IH 1. intros [items|v]; [|apply Hval].
  apply Hdict. induction items as [|[k v] items IHitems]; constructor.
  - apply IH.
  - exact IHitems.
Qed.

Lemma search_keys_nil key : search_manifest_keys [] key = [].
Proof. reflexivity. Qed.

Lemma search_keys_cons key k v rest :
  search_manifest_keys ((k, v) :: rest) key
  = if PyStr.contains key k then (k, v) :: search_manifest_keys rest key
    else match v with
         | PDict d =>
             match search_manifest_keys d key with
             | [] => search_manifest_keys rest key
             | result => (k, PDict result) :: search_manifest_keys rest key
             end
         | PVal _ => search_manifest_keys rest key
         end.
Proof. destruct v; reflexivity. Qed.

Lemma search_values_nil value : search_manifest_values [] value = [].
Proof. reflexivity. Qed.

Lemma search_values_cons value k v rest :
  search_manifest_values ((k, v) :: rest) value
  = match v with
    | PDict d =>
        match search_manifest_values d value with
        | [] => search_manifest_values rest value
        | result => (k, PDict result) :: search_manifest_values rest value
        end
    | PVal (VStr s) =>
        if PyStr.contains value s then (k, v) :: search_manifest_values rest value
        else search_manifest_values rest value
    | PVal _ => search_manifest_values rest value
    end.
Proof. destruct v as [d|[]]; reflexivity. Qed.

Lemma distinct_keys_cons k v rest :
  distinct_keys (PDict ((k, v) :: rest)) = true ->
  (k ∉ map fst rest) /\ distinct_keys v = true /\ distinct_keys (PDict rest) = true.
Proof.
  cbn [distinct_keys]. intros H. apply andb_true_iff in H as [Hnd H].
  apply bool_decide_eq_true_1 in Hnd. cbn [map fst] in Hnd. apply NoDup_cons in Hnd as [Hk Hnd].
  apply andb_true_iff in H as [Hv Hrest]. split; [exact Hk|]. split; [exact Hv|].
  apply andb_true_iff. split; [now apply bool_decide_eq_true_2 | exact Hrest].
Qed.

Lemma lookup_item_None key items :
  key ∉ map fst items -> lookup_item key items = None.
Proof.
  induction items as [|[k v] items IH]; [reflexivity|]. cbn [map fst lookup_item].
  intros Hk. destruct (String.eqb_spec k key) as [->|Hne].
  - exfalso. apply Hk. now left.
  - apply IH. intros Hin. apply Hk. now right.
Qed.

Lemma search_keys_keys key items :
  forall k, k ∈ map fst (search_manifest_keys items key) -> k ∈ map fst items.
Proof.
  induction items as [|[k0 v] items IH]; intros k; [now rewrite search_keys_nil|].
  rewrite search_keys_cons. cbn [map fst].
  destruct (PyStr.contains key k0).
  - cbn [map fst]. intros Hk. apply elem_of_cons in Hk as [->|Hk]; [now left | right; auto].
  - destruct v as [d|?]; [|right; auto].
    destruct (search_manifest_keys d key); [right; auto|].
    cbn [map fst]. intros Hk. apply elem_of_cons in Hk as [->|Hk]; [now left | right; auto].
Qed.

Lemma search_values_keys value items :
  forall k, k ∈ map fst (search_manifest_values items value) -> k ∈ map fst items.
Proof.
  induction items as [|[k0 v] items IH]; intros k; [now rewrite search_values_nil|].
  rewrite search_values_cons. cbn [map fst].
  destruct v as [d|[]]; try (right; auto; fail).
  - destruct (search_manifest_values d value); [right; auto|].
    cbn [map fst]. intros Hk. apply elem_of_cons in Hk as [->|Hk]; [now left | right; auto].
  - destruct (PyStr.contains value s); [|right; auto].
    cbn [map fst]. intros Hk. apply elem_of_cons in Hk as [->|Hk]; [now left | right; auto].
Qed.

(** What [search_manifest_keys] holds under a key of a dictionary with
    distinct keys. *)
Lemma lookup_search_keys key k items :
  NoDup (map fst items) ->
  lookup_item k (search_manifest_keys items key)
  = match lookup_item k items with
    | None => None
    | Some v =>
        if PyStr.contains key k then Some v
        else match v with
             | PDict d => match search_manifest_keys d key with
                          | [] => None
                          | result => Some (PDict result)
                          end
             | PVal _ => None
             end
    end.
Proof.
  induction items as [|[k0 v] items IH]; [reflexivity|].
  cbn [map fst]. intros Hnd. apply NoDup_cons in Hnd as [Hk0 Hnd].
  rewrite search_keys_cons. cbn [lookup_item].
  destruct (String.eqb_spec k0 k) as [->|Hne].
  - assert (Hnone : lookup_item k (search_manifest_keys items key) = None).
    { apply lookup_item_None. intros Hin. apply Hk0. now apply (search_keys_keys key). }
    destruct (PyStr.contains key k).
    + cbn [lookup_item]. now rewrite String.eqb_refl.
    + destruct v as [d|?]; [|exact Hnone].
      destruct (search_manifest_keys d key); [exact Hnone|].
      cbn [lookup_item]. now rewrite String.eqb_refl.
  - apply String.eqb_neq in Hne.
    destruct (PyStr.contains key k0).
    + cbn [lookup_item]. rewrite Hne. now apply IH.
    + destruct v as [d|?]; [|now apply IH].
      destruct (search_manifest_keys d key); [now apply IH|].
      cbn [lookup_item]. rewrite Hne. now apply IH.
Qed.

Lemma lookup_search_values value k items :
  NoDup (map fst items) ->
  lookup_item k (search_manifest_values items value)
  = match lookup_item k items with
    | None => None
    | Some (PDict d) => match search_manifest_values d value with
                        | [] => None
                        | result => Some (PDict result)
                        end
    | Some (PVal (VStr s)) => if PyStr.contains value s then Some (PVal (VStr s)) else None
    | Some (PVal _) => None
    end.
Proof.
  induction items as [|[k0 v] items IH]; [reflexivity|].
  cbn [map fst]. intros Hnd. apply NoDup_cons in Hnd as [Hk0 Hnd].
  rewrite search_values_cons. cbn [lookup_item].
  destruct (String.eqb_spec k0 k) as [->|Hne].
  - assert (Hnone : lookup_item k (search_manifest_values items value) = None).
    { apply lookup_item_None. intros Hin. apply Hk0. now apply (search_values_keys value). }
    destruct v as [d|[]]; try exact Hnone.
    + destruct (search_manifest_values d value); [exact Hnone|].
      cbn [lookup_item]. now rewrite String.eqb_refl.
    + destruct (PyStr.contains value s); [|exact Hnone].
      cbn [lookup_item]. now rewrite String.eqb_refl.
  - apply String.eqb_neq in Hne.
    destruct v as [d|[]]; try (now apply IH).
    + destruct (search_manifest_values d value); [now apply IH|].
      cbn [lookup_item]. rewrite Hne. now apply IH.
    + destruct (PyStr.contains value s); [|now apply IH].
      cbn [lookup_item]. rewrite Hne. now apply IH.
Qed.

Lemma distinct_keys_NoDup items :
  distinct_keys (PDict items) = true -> NoDup (map fst items).
Proof.
  cbn [distinct_keys]. intros H. apply andb_true_iff in H as [H _].
  now apply bool_decide_eq_true_1 in H.
Qed.

Lemma distinct_keys_item k items v :
  distinct_keys (PDict items) = true -> lookup_item k items = Some v ->
  distinct_keys v = true.
Proof.
  induction items as [|[k0 v0] items IH]; [discriminate|].
  intros Hd. apply distinct_keys_cons in Hd as (_ & Hv & Hrest).
  cbn [lookup_item]. destruct (String.eqb k0 k); [now intros [= <-] | now apply IH].
Qed.

Lemma lookup_path_nil path v : lookup_path path (PDict []) = Some (PVal v) -> False.
Proof. destruct path; discriminate. Qed.
Lemma search_keys_paths_aux key path :
  forall manifest v,
    distinct_keys (PDict manifest) = true ->
    (lookup_path path (PDict (search_manifest_keys manifest key)) = Some (PVal v) <->
     lookup_path path (PDict manifest) = Some (PVal v) /\
     exists k, k ∈ path /\ PyStr.contains key k = true).
Proof.
  induction path as [|k path IH]; intros manifest v Hd.
  - cbn [lookup_path]. split; [discriminate | intros [H _]; discriminate].
  - cbn [lookup_path]. rewrite (lookup_search_keys key k manifest (distinct_keys_NoDup _ Hd)).
    destruct (lookup_item k manifest) as [o|] eqn:Ho.
    2:{ split; [discriminate | intros [H _]; discriminate]. }
    pose proof (distinct_keys_item k manifest o Hd Ho) as Hdo.
    destruct (PyStr.contains key k) eqn:Hk.
    + split; [intros H; split; [exact H | exists k; split; [now left | exact Hk]]
             | now intros [H _]].
    + assert (Hpath : (exists k', k' ∈ k :: path /\ PyStr.contains key k' = true) <->
                      (exists k', k' ∈ path /\ PyStr.contains key k' = true)).
      { split; intros (k' & Hin & Hc).
        - apply elem_of_cons in Hin as [->|Hin]; [congruence | eauto].
        - exists k'. split; [now right | exact Hc]. }
      rewrite Hpath. destruct o as [d|w].
      * destruct (search_manifest_keys d key) as [|e r] eqn:Hr.
        -- split; [discriminate|]. intros H. apply (IH d v Hdo) in H.
           rewrite Hr in H. now apply lookup_path_nil in H.
        -- rewrite <- Hr. apply IH. exact Hdo.
      * split; [discriminate|]. intros [H (k' & Hin & _)].
        destruct path; [inversion Hin | discriminate].
Qed.

Lemma search_values_paths_aux value path :
  forall manifest v,
    distinct_keys (PDict manifest) = true ->
    (lookup_path path (PDict (search_manifest_values manifest value)) = Some (PVal v) <->
     lookup_path path (PDict manifest) = Some (PVal v) /\
     exists s, v = VStr s /\ PyStr.contains value s = true).
Proof.
  induction path as [|k path IH]; intros manifest v Hd.
  - cbn [lookup_path]. split; [discriminate | intros [H _]; discriminate].
  - cbn [lookup_path].
    rewrite (lookup_search_values value k manifest (distinct_keys_NoDup _ Hd)).
    destruct (lookup_item k manifest) as [o|] eqn:Ho.
    2:{ split; [discriminate | intros [H _]; discriminate]. }
    pose proof (distinct_keys_item k manifest o Hd Ho) as Hdo.
    destruct o as [d|w].
    + destruct (search_manifest_values d value) as [|e r] eqn:Hr.
      * split; [discriminate|]. intros H. apply (IH d v Hdo) in H.
        rewrite Hr in H. now apply lookup_path_nil in H.
      * rewrite <- Hr. apply IH. exact Hdo.
    + destruct path as [|k' path].
      * cbn [lookup_path]. destruct w as [| | | |s| |];
          try (split; [discriminate | intros [[= <-] (s' & Hs & _)]; discriminate]).
        destruct (PyStr.contains value s) eqn:Hs.
        -- split; [intros [= <-]; split; [reflexivity | eauto] | now intros [H _]].
        -- split; [discriminate|]. intros [[= <-] (s' & [= <-] & Hc)]. congruence.
      * assert (Hnone : forall w', lookup_path (k' :: path) (PVal w') = None) by reflexivity.
        rewrite Hnone. split; [|intros [H _]; discriminate].
        destruct w as [| | | |s| |]; try discriminate.
        destruct (PyStr.contains value s); [|discriminate]. rewrite Hnone. discriminate.
Qed.

(** Every dictionary nested in the result of [search_manifest_values] has
    an item. *)
Lemma search_values_no_empty value path :
  forall manifest d,
    distinct_keys (PDict manifest) = true ->
    path <> [] ->
    lookup_path path (PDict (search_manifest_values manifest value)) = Some (PDict d) ->
    d <> [].
Proof.
  induction path as [|k path IH]; intros manifest d Hd Hne; [contradiction|].
  cbn [lookup_path].
  rewrite (lookup_search_values value k manifest (distinct_keys_NoDup _ Hd)).
  destruct (lookup_item k manifest) as [o|] eqn:Ho; [|discriminate].
  pose proof (distinct_keys_item k manifest o Hd Ho) as Hdo.
  destruct o as [d'|w].
  - destruct (search_manifest_values d' value) as [|e r] eqn:Hr; [discriminate|].
    destruct path as [|k' path].
    + cbn [lookup_path]. intros [= <-]. discriminate.
    + rewrite <- Hr. apply IH; [exact Hdo | discriminate].
  - destruct w as [| | | |s| |]; try discriminate.
    destruct (PyStr.contains value s); [|discriminate].
    destruct path; discriminate.
Qed.
Lemma search_keys_twice key :
  forall o, match o with
            | PDict d => search_manifest_keys (search_manifest_keys d key) key
                         = search_manifest_keys d key
            | PVal _ => True
            end.
Proof.
  apply pyobj_nested_ind; [trivial|]. intros items HF.
  induction HF as [|[k v] items Hv HF IH]; [reflexivity|].
  rewrite search_keys_cons. destruct (PyStr.contains key k) eqn:Hk.
  - rewrite search_keys_cons, Hk. now f_equal.
  - destruct v as [d|w]; [|exact IH]. cbn [snd] in Hv.
    destruct (search_manifest_keys d key) as [|e r] eqn:Hr; [exact IH|].
    rewrite search_keys_cons, Hk, Hv. now f_equal.
Qed.

Lemma search_values_twice value :
  forall o, match o with
            | PDict d => search_manifest_values (search_manifest_values d value) value
                         = search_manifest_values d value
            | PVal _ => True
            end.
Proof.
  apply pyobj_nested_ind; [trivial|]. intros items HF.
  induction HF as [|[k v] items Hv HF IH]; [reflexivity|].
  rewrite search_values_cons. destruct v as [d|w].
  - cbn [snd] in Hv.
    destruct (search_manifest_values d value) as [|e r] eqn:Hr; [exact IH|].
    rewrite search_values_cons, Hv. now f_equal.
  - destruct w as [| | | |s| |]; try exact IH.
    destruct (PyStr.contains value s) eqn:Hs; [|exact IH].
    rewrite search_values_cons, Hs. now f_equal.
Qed.

(** Filtering by key what was filtered by key and then by value changes
    nothing. *)
Lemma search_keys_after_values key value :
  forall o, match o with
            | PDict d =>
                search_manifest_keys
                  (search_manifest_values (search_manifest_keys d key) value) key
                = search_manifest_values (search_manifest_keys d key) value
            | PVal _ => True
            end.
Proof.
  apply pyobj_nested_ind; [trivial|]. intros items HF.
  induction HF as [|[k v] items Hv HF IH]; [reflexivity|].
  rewrite search_keys_cons. destruct (PyStr.contains key k) eqn:Hk.
  - rewrite search_values_cons. destruct v as [d|w].
    + destruct (search_manifest_values d value) as [|e r] eqn:Hr; [exact IH|].
      rewrite search_keys_cons, Hk. now f_equal.
    + destruct w as [| | | |s| |]; try exact IH.
      destruct (PyStr.contains value s) eqn:Hs; [|exact IH].
      rewrite search_keys_cons, Hk. now f_equal.
  - destruct v as [d|w]; [|exact IH]. cbn [snd] in Hv.
    destruct (search_manifest_keys d key) as [|e r] eqn:Hr; [exact IH|].
    rewrite search_values_cons.
    destruct (search_manifest_values (e :: r) value) as [|e' r'] eqn:Hr'; [exact IH|].
    rewrite search_keys_cons, Hk, Hv. now f_equal.
Qed.

(** X4.  Searching the result of a search with the same terms gives the same
    result: the filters of [search_manifest] are idempotent, separately and
    together. *)
Theorem search_manifest_idempotent (manifest : pydict)
    (key_search value_search : option string) :
  search_manifest (search_manifest manifest key_search value_search)
    key_search value_search
  = search_manifest manifest key_search value_search.
Proof.
  unfold search_manifest.
  destruct (given key_search) as [key|], (given value_search) as [value|].
  - rewrite (search_keys_after_values key value (PDict manifest)).
    apply (search_values_twice value (PDict _)).
  - apply (search_keys_twice key (PDict manifest)).
  - apply (search_values_twice value (PDict manifest)).
  - reflexivity.
Qed.

(** X5.  In a manifest whose dictionaries have distinct keys,
    [search_manifest_keys] keeps exactly the leaves that sit under a key
    containing the search term: a value is found at a path of the result
    if and only if it is found at that path of the manifest and a key of
    the path contains the term. *)
Theorem search_manifest_keys_leaves (manifest : pydict) (key : string)
    (path : list string) (v : value) :
  distinct_keys (PDict manifest) = true ->
  (lookup_path path (PDict (search_manifest_keys manifest key)) = Some (PVal v) <->
   lookup_path path (PDict manifest) = Some (PVal v) /\
   exists k, k ∈ path /\ PyStr.contains key k = true).
Proof. apply search_keys_paths_aux. Qed.

(** X6.  In a manifest whose dictionaries have distinct keys,
    [search_manifest_values] keeps exactly the string leaves that contain
    the search term, at their paths, and no dictionary it leaves below the
    top is empty. *)
Theorem search_manifest_values_leaves (manifest : pydict) (value : string)
    (path : list string) :
  distinct_keys (PDict manifest) = true ->
  (forall v,
     lookup_path path (PDict (search_manifest_values manifest value)) = Some (PVal v) <->
     lookup_path path (PDict manifest) = Some (PVal v) /\
     exists s, v = VStr s /\ PyStr.contains value s = true) /\
  (forall d,
     path <> [] ->
     lookup_path path (PDict (search_manifest_values manifest value)) = Some (PDict d) ->
     d <> []).
Proof.
  intros Hd. split.
  - intros v. now apply search_values_paths_aux.
  - intros d. now apply search_values_no_empty.
Qed.
Lemma search_manifest_keys_leaves_witness :
  distinct_keys (PDict sample_manifest) = true /\
  (lookup_path ["option"; "flow"; "value"]
     (PDict (search_manifest_keys sample_manifest "flow")) = Some (PVal (VStr "asicflow")) <->
   lookup_path ["option"; "flow"; "value"] (PDict sample_manifest)
   = Some (PVal (VStr "asicflow")) /\
   exists k, k ∈ ["option"; "flow"; "value"] /\ PyStr.contains "flow" k = true).
Proof.
  split; [vm_compute; reflexivity|].
  apply (search_manifest_keys_leaves sample_manifest "flow" ["option"; "flow"; "value"]
           (VStr "asicflow")).
  vm_compute. reflexivity.
Defined.

Lemma search_manifest_values_leaves_witness :
  distinct_keys (PDict sample_manifest) = true /\
  (forall v,
     lookup_path ["option"; "jobname"; "value"]
       (PDict (search_manifest_values sample_manifest "job")) = Some (PVal v) <->
     lookup_path ["option"; "jobname"; "value"] (PDict sample_manifest) = Some (PVal v) /\
     exists s, v = VStr s /\ PyStr.contains "job" s = true).
Proof.
  split; [vm_compute; reflexivity|].
  apply (search_manifest_values_leaves sample_manifest "job" ["option"; "jobname"; "value"]).
  vm_compute. reflexivity.
Defined.

Lemma count_loop_acc (l : pydict) (acc : Z) :
  (fix loop (l : pydict) (acc : Z) : Z :=
     match l with
     | [] => acc
     | (_, v) :: rest =>
         match v with
         | PDict _ => loop rest (acc + get_total_manifest_parameter_count_obj v)
         | PVal _ => loop rest acc
         end
     end) l acc
  = acc + foldr (fun kv s => get_total_manifest_parameter_count_obj kv.2 + s) 0 l.
Proof.
  revert acc. induction l as [|[k v] l IH]; intros acc; [cbn; lia|].
  cbn [foldr snd]. destruct v as [d|w].
  - rewrite IH. lia.
  - rewrite IH. cbn [get_total_manifest_parameter_count_obj]. lia.
Qed.

Lemma count_cons k v rest :
  get_total_manifest_parameter_count ((k, v) :: rest)
  = 1 + get_total_manifest_parameter_count_obj v
    + get_total_manifest_parameter_count rest.
Proof.
  unfold get_total_manifest_parameter_count.
  cbn [get_total_manifest_parameter_count_obj]. rewrite !count_loop_acc.
  cbn [foldr snd length]. destruct v; [|cbn [get_total_manifest_parameter_count_obj]]; lia.
Qed.

Lemma count_nonneg :
  forall o, 0 <= get_total_manifest_parameter_count_obj o.
Proof.
  apply pyobj_nested_ind; [intros; cbn; lia|]. intros items HF.
  change (0 <= get_total_manifest_parameter_count items).
  induction HF as [|[k v] items Hv HF IH]; [cbn; lia|].
  rewrite count_cons. cbn [snd] in Hv. lia.
Qed.

Lemma count_search_keys key :
  forall o, match o with
            | PDict d => get_total_manifest_parameter_count (search_manifest_keys d key)
                         <= get_total_manifest_parameter_count d
            | PVal _ => True
            end.
Proof.
  apply pyobj_nested_ind; [trivial|]. intros items HF.
  induction HF as [|[k v] items Hv HF IH]; [reflexivity|].
  rewrite search_keys_cons, count_cons.
  pose proof (count_nonneg v) as Hnn.
  destruct (PyStr.contains key k).
  - rewrite count_cons. lia.
  - destruct v as [d|w]; [|lia]. cbn [snd] in Hv.
    destruct (search_manifest_keys d key) as [|e r] eqn:Hr; [lia|].
    rewrite count_cons.
    change (get_total_manifest_parameter_count_obj (PDict (e :: r)))
      with (get_total_manifest_parameter_count (e :: r)).
    change (get_total_manifest_parameter_count_obj (PDict d))
      with (get_total_manifest_parameter_count d). lia.
Qed.

Lemma count_search_values value :
  forall o, match o with
            | PDict d => get_total_manifest_parameter_count (search_manifest_values d value)
                         <= get_total_manifest_parameter_count d
            | PVal _ => True
            end.
Proof.
  apply pyobj_nested_ind; [trivial|]. intros items HF.
  induction HF as [|[k v] items Hv HF IH]; [reflexivity|].
  rewrite search_values_cons, count_cons.
  pose proof (count_nonneg v) as Hnn.
  destruct v as [d|w].
  - cbn [snd] in Hv.
    destruct (search_manifest_values d value) as [|e r] eqn:Hr; [lia|].
    rewrite count_cons.
    change (get_total_manifest_parameter_count_obj (PDict (e :: r)))
      with (get_total_manifest_parameter_count (e :: r)).
    change (get_total_manifest_parameter_count_obj (PDict d))
      with (get_total_manifest_parameter_count d). lia.
  - destruct w as [| | | |s| |]; try lia.
    destruct (PyStr.contains value s); [|lia].
    rewrite count_cons. lia.
Qed.

(** X7.  The parameter count of a manifest is the number of keys of all its
    dictionaries: it is zero on the empty manifest only, and a search never
    returns a manifest with a larger count than the one searched. *)
Theorem parameter_count_search (manifest : pydict)
    (key_search value_search : option string) :
  0 <= get_total_manifest_parameter_count
         (search_manifest manifest key_search value_search)
    <= get_total_manifest_parameter_count manifest /\
  (get_total_manifest_parameter_count manifest = 0 <-> manifest = []).
Proof.
  split.
  - split; [apply (count_nonneg (PDict _))|]. unfold search_manifest.
    destruct (given key_search) as [key|], (given value_search) as [value|].
    + pose proof (count_search_values value (PDict (search_manifest_keys manifest key))).
      pose proof (count_search_keys key (PDict manifest)). cbn beta iota in *. lia.
    + apply (count_search_keys key (PDict manifest)).
    + apply (count_search_values value (PDict manifest)).
    + lia.
  - split; [|intros ->; reflexivity].
    destruct manifest as [|[k v] rest]; [reflexivity|].
    rewrite count_cons. pose proof (count_nonneg v). pose proof (count_nonneg (PDict rest)).
    unfold get_total_manifest_parameter_count. lia.
Qed.
(* ===================================================================== *)
(** * report.py: get_logs_and_reports *)
(* ===================================================================== *)

Section RemoveUnlisted.

Variable filters : list string.

Lemma list_remove_sublist x l : sublist (list_remove x l) l.
Proof.
  induction l as [|y l IH]; [constructor|]. cbn [list_remove].
  destruct (String.eqb y x); [now apply sublist_cons | now apply sublist_skip].
Qed.

Lemma list_remove_length x l : (length (list_remove x l) <= length l)%nat.
Proof. apply sublist_length, list_remove_sublist. Qed.

Lemma list_remove_other x y l : y <> x -> y ∈ l -> y ∈ list_remove x l.
Proof.
  intros Hne. induction l as [|z l IH]; [auto|]. cbn [list_remove].
  destruct (String.eqb_spec z x) as [->|Hz].
  - intros Hin. apply elem_of_cons in Hin as [?|?]; [contradiction | assumption].
  - intros Hin. apply elem_of_cons in Hin as [->|?]; [now left | right; auto].
Qed.

Lemma list_remove_fresh x pre rest :
  x ∉ pre -> list_remove x (pre ++ x :: rest) = pre ++ rest.
Proof.
  induction pre as [|y pre IH]; intros Hx; cbn [app list_remove].
  - now rewrite String.eqb_refl.
  - destruct (String.eqb_spec y x) as [->|Hne].
    + exfalso. apply Hx. now left.
    + f_equal. apply IH. intros Hin. apply Hx. now right.
Qed.

(** The loop ends: a number of iterations above what is left of the list
    is enough, and what it returns is a sub-list of the list that lost no
    listed name. *)
Lemma remove_unlisted_returns (fuel : nat) (l : list string) (i : nat) :
  (length l - i < fuel)%nat ->
  exists r, remove_unlisted fuel filters l i = Some r /\
            sublist r l /\
            (forall x, x ∈ filters -> x ∈ l -> x ∈ r).
Proof.
  revert l i. induction fuel as [|fuel IH]; intros l i Hfuel; [lia|].
  cbn [remove_unlisted]. destruct (l !! i) as [x|] eqn:Hx.
  - apply lookup_lt_Some in Hx as Hi.
    destruct (decide (x ∈ filters)) as [Hin|Hout].
    + rewrite bool_decide_eq_true_2 by exact Hin. apply IH. lia.
    + rewrite bool_decide_eq_false_2 by exact Hout.
      destruct (IH (list_remove x l) (S i)) as (r & Hr & Hsub & Hkeep).
      { pose proof (list_remove_length x l). lia. }
      exists r. split; [exact Hr|]. split.
      * etransitivity; [exact Hsub | apply list_remove_sublist].
      * intros y Hy Hyl. apply Hkeep; [exact Hy|].
        apply list_remove_other; [|exact Hyl]. intros ->. contradiction.
  - exists l. repeat split; auto.
Qed.

(** On a list without repeated names the loop is [passed_over]. *)
Lemma remove_unlisted_passed_over (fuel : nat) (pre suf : list string) :
  NoDup (pre ++ suf) ->
  (length suf < fuel)%nat ->
  remove_unlisted fuel filters (pre ++ suf) (length pre)
  = Some (pre ++ passed_over filters suf).
Proof.
  revert pre suf. induction fuel as [|fuel IH]; intros pre suf Hnd Hfuel; [lia|].
  cbn [remove_unlisted]. destruct suf as [|x rest].
  - rewrite lookup_ge_None_2 by (rewrite app_nil_r; lia). reflexivity.
  - rewrite list_lookup_middle by reflexivity. cbn [passed_over].
    cbn [length] in Hfuel.
    destruct (decide (x ∈ filters)) as [Hin|Hout].
    + rewrite bool_decide_eq_true_2 by exact Hin.
      replace (pre ++ x :: rest) with ((pre ++ [x]) ++ rest) in * by now rewrite <- app_assoc.
      replace (S (length pre)) with (length (pre ++ [x])) by (rewrite length_app; cbn; lia).
      rewrite IH; [|exact Hnd|lia]. now rewrite <- app_assoc.
    + rewrite bool_decide_eq_false_2 by exact Hout.
      assert (Hx : x ∉ pre).
      { apply NoDup_app in Hnd as (_ & Hdisj & _). intros Hin. apply (Hdisj x Hin). now left. }
      rewrite (list_remove_fresh x pre rest Hx).
      assert (Hnd' : NoDup (pre ++ rest)).
      { apply NoDup_app in Hnd as (H1 & H2 & H3). apply NoDup_cons in H3 as [_ H3].
        apply NoDup_app. repeat split; [exact H1 | | exact H3].
        intros y Hy Hyr. apply (H2 y Hy). now right. }
      destruct rest as [|y rest'].
      * destruct fuel as [|fuel']; [lia|]. cbn [remove_unlisted].
        rewrite lookup_ge_None_2 by (rewrite app_nil_r; lia). reflexivity.
      * replace (pre ++ y :: rest') with ((pre ++ [y]) ++ rest') in *
          by now rewrite <- app_assoc.
        replace (S (length pre)) with (length (pre ++ [y])) by (rewrite length_app; cbn; lia).
        cbn [length] in Hfuel.
        rewrite IH; [|exact Hnd'|lia]. now rewrite <- app_assoc.
Qed.

Lemma remove_unlisted_spec (fuel : nat) (l : list string) :
  (length l < fuel)%nat ->
  exists r, remove_unlisted fuel filters l 0 = Some r /\
            sublist r l /\
            (forall x, x ∈ filters -> x ∈ l -> x ∈ r) /\
            (NoDup l -> r = passed_over filters l).
Proof.
  intros Hfuel.
  destruct (remove_unlisted_returns fuel l 0) as (r & Hr & Hsub & Hkeep); [lia|].
  exists r. repeat split; auto.
  intros Hnd. pose proof (remove_unlisted_passed_over fuel [] l Hnd Hfuel) as H.
  cbn [app length] in H. congruence.
Qed.

Lemma remove_unlisted_fuel (fuel fuel' : nat) (l : list string) (i : nat) r :
  remove_unlisted fuel filters l i = Some r -> (fuel <= fuel')%nat ->
  remove_unlisted fuel' filters l i = Some r.
Proof.
  revert fuel' l i. induction fuel as [|fuel IH]; intros fuel' l i; [discriminate|].
  destruct fuel' as [|fuel']; [lia|]. cbn [remove_unlisted].
  destruct (l !! i); [|auto]. intros H Hle.
  destruct (bool_decide _); apply (IH fuel'); auto; lia.
Qed.

End RemoveUnlisted.

(** X8.  [get_logs_and_reports] raises [IndexError] when no walked directory
    matches a folder filter.  Otherwise it returns the matching items, the
    first one with its folders and files gone through the removal loops,
    the others as walked.  A removal loop returns a sub-list that keeps
    every listed name; since it removes from the list it iterates over, it
    passes over the name that follows each name it removes: on names
    without repetition it returns [passed_over], which can keep unlisted
    names ('tmp' after 'logs'). *)
Theorem get_logs_and_reports_spec (all_paths : list walk_item) (step : string) :
  match filter (fun item => wanted item = true) all_paths with
  | [] => forall fuel, get_logs_and_reports fuel all_paths step = Some (Raise IndexError)
  | (path_name, folders, files) :: rest =>
      exists folders' files',
        (forall fuel, (length folders < fuel)%nat -> (length files < fuel)%nat ->
           get_logs_and_reports fuel all_paths step
           = Some (Ok ((path_name, folders', files') :: rest))) /\
        (sublist folders' folders /\
         (forall x, x ∈ folder_filters -> x ∈ folders -> x ∈ folders') /\
         (NoDup folders -> folders' = passed_over folder_filters folders)) /\
        (sublist files' files /\
         (forall x, x ∈ file_filters step -> x ∈ files -> x ∈ files') /\
         (NoDup files -> files' = passed_over (file_filters step) files))
  end /\
  passed_over folder_filters ["logs"; "tmp"; "inputs"] = ["tmp"; "inputs"].
Proof.
  split; [|reflexivity].
  destruct (filter _ all_paths) as [|[[path_name folders] files] rest] eqn:Hf.
  - intros fuel. unfold get_logs_and_reports. now rewrite Hf.
  - destruct (remove_unlisted_spec folder_filters (S (length folders)) folders)
      as (folders' & Hfo & Pfo); [lia|].
    destruct (remove_unlisted_spec (file_filters step) (S (length files)) files)
      as (files' & Hfi & Pfi); [lia|].
    exists folders', files'. split; [|split; assumption].
    intros fuel H1 H2. unfold get_logs_and_reports. rewrite Hf.
    rewrite (remove_unlisted_fuel _ _ fuel _ _ _ Hfo) by lia.
    rewrite (remove_unlisted_fuel _ _ fuel _ _ _ Hfi) by lia.
    reflexivity.
Qed.
(* ===================================================================== *)
(** * report.py: get_flowgraph_edges *)
(* ===================================================================== *)

Lemma dict_set_fresh {K V} `{EqDecision K} (d : list (K * V)) (key : K) (v : V) :
  key ∉ map fst d -> dict_set d key v = d ++ [(key, v)].
Proof.
  induction d as [|[k w] d IH]; [reflexivity|]. cbn [map fst dict_set app].
  intros Hk. destruct (decide (k = key)) as [->|Hne].
  - exfalso. apply Hk. now left.
  - f_equal. apply IH. intros Hin. apply Hk. now right.
Qed.

Lemma dict_set_last {K V} `{EqDecision K} (d : list (K * V)) (key : K) (w v : V) :
  key ∉ map fst d -> dict_set (d ++ [(key, w)]) key v = d ++ [(key, v)].
Proof.
  induction d as [|[k u] d IH]; cbn [map fst dict_set app].
  - intros _. now rewrite decide_True.
  - intros Hk. destruct (decide (k = key)) as [->|Hne].
    + exfalso. apply Hk. now left.
    + f_equal. apply IH. intros Hin. apply Hk. now right.
Qed.

Section Edges.

Variable m : manifest.
Variable flow : string.

Let inputs_of (n : node) : result (list node) :=
  unpack_pairs (Schema.get m ["flowgraph"; flow; n.1; n.2; "input"] global).

Lemma edges_of_index_fresh step index edges l :
  (step, index) ∉ map fst edges ->
  inputs_of (step, index) = Ok l ->
  edges_of_index m flow step edges index = Ok (edges ++ [((step, index), l)]).
Proof.
  intros Hk Hl. unfold edges_of_index. unfold inputs_of in Hl. cbn [fst snd] in Hl.
  rewrite Hl. rewrite (dict_set_fresh edges _ _ Hk). now rewrite dict_set_last.
Qed.

Lemma edges_of_step step (indices : list string) :
  forall edges,
    NoDup indices ->
    (forall i, i ∈ indices -> (step, i) ∉ map fst edges) ->
    (forall i, i ∈ indices -> exists l, inputs_of (step, i) = Ok l) ->
    exists added,
      fold_result (fun edges index => edges_of_index m flow step edges index)
        indices edges = Ok (edges ++ added) /\
      map fst added = map (fun i => (step, i)) indices /\
      (forall n l, (n, l) ∈ added -> inputs_of n = Ok l).
Proof.
  induction indices as [|i indices IH]; intros edges Hnd Hfresh Hok.
  - exists []. cbn. rewrite app_nil_r. repeat split. intros n l H. inversion H.
  - apply NoDup_cons in Hnd as [Hi Hnd].
    destruct (Hok i) as [l Hl]; [now left|].
    cbn [fold_result]. rewrite (edges_of_index_fresh step i edges l); [|apply Hfresh; now left|exact Hl].
    destruct (IH (edges ++ [((step, i), l)]) Hnd) as (added & Hfold & Hkeys & Hvals).
    + intros i' Hi'. rewrite map_app. cbn [map fst]. intros Hin.
      apply elem_of_app in Hin as [Hin|Hin].
      * apply (Hfresh i'); [now right | exact Hin].
      * apply list_elem_of_singleton in Hin. injection Hin as ->. contradiction.
    + intros i' Hi'. apply Hok. now right.
    + exists (((step, i), l) :: added). rewrite Hfold. repeat split.
      * now rewrite <- app_assoc.
      * cbn [map fst]. now rewrite Hkeys.
      * intros n l' Hin. apply elem_of_cons in Hin as [[= -> ->]|Hin]; [exact Hl | eauto].
Qed.

Lemma edges_of_steps (indices_of : string -> list string) (steps : list string) :
  forall edges,
    NoDup steps ->
    (forall s, NoDup (indices_of s)) ->
    (forall s i, s ∈ steps -> (s, i) ∉ map fst edges) ->
    (forall s i, s ∈ steps -> i ∈ indices_of s -> exists l, inputs_of (s, i) = Ok l) ->
    exists added,
      fold_result (fun edges step =>
          fold_result (fun edges index => edges_of_index m flow step edges index)
            (indices_of step) edges) steps edges = Ok (edges ++ added) /\
      map fst added = flat_map (fun s => map (fun i => (s, i)) (indices_of s)) steps /\
      (forall n l, (n, l) ∈ added -> inputs_of n = Ok l).
Proof.
  induction steps as [|s steps IH]; intros edges Hnd Hind Hfresh Hok.
  - exists []. cbn. rewrite app_nil_r. repeat split. intros n l H. inversion H.
  - apply NoDup_cons in Hnd as [Hs Hnd]. cbn [fold_result].
    destruct (edges_of_step s (indices_of s) edges (Hind s)) as (a1 & Hf1 & Hk1 & Hv1).
    { intros i _. apply Hfresh. now left. }
    { intros i Hi. apply Hok; [now left | exact Hi]. }
    rewrite Hf1.
    destruct (IH (edges ++ a1) Hnd Hind) as (a2 & Hf2 & Hk2 & Hv2).
    + intros s' i Hs'. rewrite map_app, Hk1. intros Hin.
      apply elem_of_app in Hin as [Hin|Hin].
      * apply (Hfresh s' i); [now right | exact Hin].
      * apply list_elem_of_fmap in Hin as (i' & [= -> ->] & _). contradiction.
    + intros s' i Hs'. apply Hok. now right.
    + exists (a1 ++ a2). rewrite Hf2. repeat split.
      * now rewrite <- app_assoc.
      * cbn [flat_map]. now rewrite map_app, Hk1, Hk2.
      * intros n l Hin. apply elem_of_app in Hin as [Hin|Hin]; eauto.
Qed.

Lemma flow_nodes_NoDup : NoDup (flow_nodes m flow).
Proof.
  unfold flow_nodes.
  assert (H : forall steps, NoDup steps ->
            NoDup (flat_map (fun step => map (fun index => (step, index))
                               (Schema.getkeys m ["flowgraph"; flow; step])) steps)).
  { induction steps as [|s steps IH]; intros Hnd; [constructor|].
    apply NoDup_cons in Hnd as [Hs Hnd]. cbn [flat_map]. apply NoDup_app. repeat split.
    - apply NoDup_fmap_2; [intros x y [= ->]; reflexivity | apply NoDup_elements].
    - intros n Hn Hn'. apply list_elem_of_fmap in Hn as (i & -> & _).
      apply list_elem_of_In, in_flat_map in Hn' as (s' & Hs' & Hin).
      apply list_elem_of_In, list_elem_of_fmap in Hin as (i' & [= <- _] & _).
      apply Hs. now apply list_elem_of_In.
    - now apply IH. }
  apply H, NoDup_elements.
Qed.

End Edges.

(** X9.  When the 'input' leaf of every node of the flow unpacks into pairs,
    [get_flowgraph_edges] returns a dictionary whose keys are the nodes of
    the flow, each step with each of its indices, each once and in
    flowgraph order; a node is mapped to the nodes of its 'input' leaf. *)
Theorem get_flowgraph_edges_spec (m : manifest) (flow : string) :
  Schema.get m ["option"; "flow"] global = VStr flow ->
  (forall n, n ∈ flow_nodes m flow ->
     exists l, unpack_pairs (Schema.get m ["flowgraph"; flow; n.1; n.2; "input"] global)
               = Ok l) ->
  exists edges,
    get_flowgraph_edges m = Ok edges /\
    map fst edges = flow_nodes m flow /\
    NoDup (map fst edges) /\
    (forall n l,
       (n, l) ∈ edges <->
       n ∈ flow_nodes m flow /\
       unpack_pairs (Schema.get m ["flowgraph"; flow; n.1; n.2; "input"] global) = Ok l).
Proof.
  intros Hflow Hok.
  destruct (edges_of_steps m flow
              (fun step => Schema.getkeys m ["flowgraph"; flow; step])
              (Schema.getkeys m ["flowgraph"; flow]) [])
    as (edges & Hfold & Hkeys & Hvals).
  - apply NoDup_elements.
  - intros s. apply NoDup_elements.
  - intros s i _ Hin. inversion Hin.
  - intros s i Hs Hi. apply (Hok (s, i)). unfold flow_nodes.
    apply list_elem_of_In, in_flat_map. exists s. split; [now apply list_elem_of_In|].
    apply list_elem_of_In, list_elem_of_fmap. now exists i.
  - exists edges. unfold get_flowgraph_edges. rewrite Hflow. cbn [as_str].
    split; [exact Hfold|]. fold (flow_nodes m flow) in Hkeys.
    split; [exact Hkeys|]. split; [rewrite Hkeys; apply flow_nodes_NoDup|].
    intros n l. split.
    + intros Hin. split; [|now apply Hvals].
      rewrite <- Hkeys. apply list_elem_of_fmap. now exists (n, l).
    + intros [Hn Hl]. rewrite <- Hkeys in Hn.
      apply list_elem_of_fmap in Hn as ([n' l'] & -> & Hin).
      cbn [fst] in *. pose proof (Hvals _ _ Hin) as Hl'.
      rewrite Hl in Hl'. now injection Hl' as ->.
Qed.

Lemma get_flowgraph_edges_spec_witness :
  exists edges,
    get_flowgraph_edges (cfg sample_chip) = Ok edges /\
    map fst edges = flow_nodes (cfg sample_chip) "asicflow" /\
    NoDup (map fst edges) /\
    (forall n l,
       (n, l) ∈ edges <->
       n ∈ flow_nodes (cfg sample_chip) "asicflow" /\
       unpack_pairs (Schema.get (cfg sample_chip)
                       ["flowgraph"; "asicflow"; n.1; n.2; "input"] global) = Ok l).
Proof.
  apply (get_flowgraph_edges_spec (cfg sample_chip) "asicflow").
  - vm_compute. reflexivity.
  - intros n Hn.
    assert (E : flow_nodes (cfg sample_chip) "asicflow" = [("place", "1"); ("place", "0")])
      by (vm_compute; reflexivity).
    rewrite E in Hn.
    repeat (apply elem_of_cons in Hn as [->|Hn]; [eexists; vm_compute; reflexivity|]).
    inversion Hn.
Defined.
(* ===================================================================== *)
(** * openroad.py: more on post_process *)
(* ===================================================================== *)

Lemma metric_op_frame sc names k l :
  (forall name, name ∈ names -> k <> ["metric"; name]) ->
  stable (metric_op sc names) (fun c => leaves (cfg c) !! k = l).
Proof.
  intros Hk c o (name & v & -> & Hin) H. rewrite cfg_apply_set, set_clobber.
  rewrite leaves_write_ne; [exact H|]. intros <-. now apply (Hk name).
Qed.

Lemma metric_op_schema sc names s :
  stable (metric_op sc names) (fun c => schema (cfg c) = s).
Proof. intros c o (name & v & -> & Hin) H. exact H. Qed.

Lemma metric_op_logged sc names lg :
  stable (metric_op sc names) (fun c => logged c = lg).
Proof. intros c o (name & v & -> & Hin) H. exact H. Qed.

Lemma metric_op_mono sc (names names' : list string) o :
  (forall name, name ∈ names -> name ∈ names') ->
  metric_op sc names o -> metric_op sc names' o.
Proof. intros Hsub (name & v & -> & Hin). exists name, v. auto. Qed.

Lemma copy_loop_footprint metrics sc (table : list (string * string)) :
  footprint (metric_op sc (map fst table)) (for_each table (copy_metric metrics sc)).
Proof.
  apply footprint_for_each. intros [metric name] Hin. unfold copy_metric.
  footprint_auto. exists metric. eexists. split; [reflexivity|].
  apply list_elem_of_fmap. exists (metric, name). auto.
Qed.

Lemma derived_footprint metrics sc :
  footprint (metric_op sc ["setupwns"; "holdwns"; "drvs"])
    (bind (derive_wns metrics sc setup_ws "setupwns") (fun _ =>
     bind (derive_wns metrics sc hold_ws "holdwns") (fun _ => record_drvs metrics sc))).
Proof.
  apply footprint_bind; [|intros _].
  - eapply footprint_weaken; [|apply derive_wns_footprint].
    intros o. apply metric_op_mono. intros name Hn.
    apply list_elem_of_singleton in Hn as ->. now left.
  - eapply footprint_weaken; [|apply derive_hold_drvs_footprint].
    intros o. apply metric_op_mono. intros name Hn. now right.
Qed.

(** The copy loop leaves each reported entry of its table under its metric,
    the metric names of the table being distinct. *)
Lemma copy_loop_get metrics sc (table : list (string * string)) :
  NoDup (map fst table) ->
  forall c metric key raw,
    (metric, key) ∈ table -> metrics !! key = Some raw ->
    Schema.get (cfg (for_each table (copy_metric metrics sc) c).1) ["metric"; metric] sc
    = value_of_jval raw.
Proof.
  induction table as [|[m0 k0] table IH]; intros Hnd c metric key raw Hin Hraw;
    [inversion Hin|].
  cbn [map fst] in Hnd. apply NoDup_cons in Hnd as [Hm0 Hnd].
  cbn [for_each].
  assert (Hhead : exists c0, copy_metric metrics sc (m0, k0) c = (c0, Ok tt) /\
            (metrics !! k0 = Some raw ->
             Schema.get (cfg c0) ["metric"; m0] sc = value_of_jval raw)).
  { unfold copy_metric. destruct (metrics !! k0) as [v|].
    - eexists. split; [reflexivity|]. intros [= ->]. cbn [cfg fst].
      rewrite set_clobber. apply get_write_eq.
    - eexists. split; [reflexivity | discriminate]. }
  destruct Hhead as (c0 & Hc0 & Hget). rewrite (bind_ok _ _ _ _ _ Hc0).
  apply elem_of_cons in Hin as [[= -> ->]|Hin].
  - apply (footprint_stable (metric_op sc (map fst table))
             (fun c => Schema.get (cfg c) ["metric"; m0] sc = value_of_jval raw)).
    + apply copy_loop_footprint.
    + now apply metric_op_get_stable.
    + now apply Hget.
  - now apply (IH Hnd c0 metric key raw).
Qed.

Lemma copy_loop_leaf metrics sc (table : list (string * string)) :
  NoDup (map fst table) ->
  forall c metric key,
    (metric, key) ∈ table -> metrics !! key = None ->
    leaves (cfg (for_each table (copy_metric metrics sc) c).1) !! ["metric"; metric]
    = leaves (cfg c) !! ["metric"; metric].
Proof.
  induction table as [|[m0 k0] table IH]; intros Hnd c metric key Hin Hraw;
    [inversion Hin|].
  cbn [map fst] in Hnd. apply NoDup_cons in Hnd as [Hm0 Hnd].
  cbn [for_each].
  apply elem_of_cons in Hin as [[= -> ->]|Hin].
  - assert (Hc0 : copy_metric metrics sc (m0, k0) c = (c, Ok tt))
      by (unfold copy_metric; now rewrite Hraw).
    rewrite (bind_ok _ _ _ _ _ Hc0).
    apply (footprint_stable (metric_op sc (map fst table))
             (fun c' => leaves (cfg c') !! ["metric"; m0] = leaves (cfg c) !! ["metric"; m0])).
    + apply copy_loop_footprint.
    + now apply metric_op_leaf_stable.
    + reflexivity.
  - assert (Hne : m0 <> metric).
    { intros ->. apply Hm0, list_elem_of_fmap. now exists (metric, key). }
    assert (Hhead : exists c0, copy_metric metrics sc (m0, k0) c = (c0, Ok tt) /\
              leaves (cfg c0) !! ["metric"; metric] = leaves (cfg c) !! ["metric"; metric]).
    { unfold copy_metric. destruct (metrics !! k0) as [v|].
      - eexists. split; [reflexivity|]. cbn [cfg fst]. rewrite set_clobber.
        apply leaves_write_ne. congruence.
      - eexists. split; reflexivity. }
    destruct Hhead as (c0 & Hc0 & Hleaf). rewrite (bind_ok _ _ _ _ _ Hc0).
    rewrite (IH Hnd c0 metric key Hin Hraw). exact Hleaf.
Qed.

Lemma metric_table_names :
  NoDup (map fst metric_table) /\
  forall name, name ∈ map fst metric_table -> name ∉ ["setupwns"; "holdwns"; "drvs"].
Proof.
  split; [by_decide|]. apply Forall_forall. by_decide.
Qed.

(** X10.  Each entry of the report that the table of [post_process] names is
    copied under its metric for the node, whether [post_process] then
    completes or raises; a metric of the table whose entry is missing keeps
    its leaf. *)
Theorem post_process_copies (metrics : gmap string jval) (c : chip)
    (metric key : string) :
  (metric, key) ∈ metric_table ->
  let c' := (post_process metrics c).1 in
  match metrics !! key with
  | Some raw =>
      Schema.get (cfg c') ["metric"; metric] (arg_scope (cfg c)) = value_of_jval raw
  | None => leaves (cfg c') !! ["metric"; metric] = leaves (cfg c) !! ["metric"; metric]
  end.
Proof.
  intros Hin c'. subst c'. destruct metric_table_names as [Hnd Hother].
  assert (Hm : metric ∉ ["setupwns"; "holdwns"; "drvs"]).
  { apply Hother, list_elem_of_fmap. now exists (metric, key). }
  rewrite post_process_unfold. set (sc := arg_scope (cfg c)).
  pose proof (copy_metrics_ok metrics sc metric_table c) as Hok.
  destruct (for_each metric_table (copy_metric metrics sc) c) as [c1 r] eqn:E.
  cbn [snd] in Hok. subst r. rewrite (bind_state _ _ _ _ _ E).
  destruct (metrics !! key) as [raw|] eqn:Hraw.
  - apply (footprint_stable (metric_op sc ["setupwns"; "holdwns"; "drvs"])
             (fun c => Schema.get (cfg c) ["metric"; metric] sc = value_of_jval raw)).
    + apply derived_footprint.
    + now apply metric_op_get_stable.
    + pose proof (copy_loop_get metrics sc metric_table Hnd c metric key raw Hin Hraw) as H.
      now rewrite E in H.
  - apply (footprint_stable (metric_op sc ["setupwns"; "holdwns"; "drvs"])
             (fun c' => leaves (cfg c') !! ["metric"; metric]
                        = leaves (cfg c) !! ["metric"; metric])).
    + apply derived_footprint.
    + now apply metric_op_leaf_stable.
    + pose proof (copy_loop_leaf metrics sc metric_table Hnd c metric key Hin Hraw) as H.
      now rewrite E in H.
Qed.

Lemma post_process_copies_witness :
  ("vias", "sc__step__route__vias") ∈ metric_table /\
  Schema.get (cfg (post_process {[ "sc__step__route__vias" := JInt 7 ]} chip_w).1)
    ["metric"; "vias"] (arg_scope (cfg chip_w)) = VInt 7.
Proof.
  assert (Hin : ("vias", "sc__step__route__vias") ∈ metric_table) by now left.
  split; [exact Hin|].
  pose proof (post_process_copies {[ "sc__step__route__vias" := JInt 7 ]} chip_w
                "vias" "sc__step__route__vias" Hin) as H.
  cbv zeta in H.
  assert (E : ({[ "sc__step__route__vias" := JInt 7 ]} : gmap string jval)
              !! "sc__step__route__vias" = Some (JInt 7)) by apply lookup_singleton_eq.
  rewrite E in H. exact H.
Defined.

Lemma apply_ops_stable (P : op -> Prop) (I : chip -> Prop) ops c :
  Forall P ops -> stable P I -> I c -> I (apply_ops c ops).
Proof.
  intros Hops HI. unfold apply_ops. revert c.
  induction Hops as [|o ops Ho Hops IH]; intros c Hc; [exact Hc|].
  cbn [fold_left]. apply IH. now apply HI.
Qed.

Lemma post_process_footprint metrics c :
  exists ops,
    Forall (metric_op (arg_scope (cfg c))
              (map fst metric_table ++ ["setupwns"; "holdwns"; "drvs"])) ops /\
    (post_process metrics c).1 = apply_ops c ops.
Proof.
  rewrite post_process_unfold. set (sc := arg_scope (cfg c)).
  assert (Hfp : footprint (metric_op sc (map fst metric_table ++ ["setupwns"; "holdwns"; "drvs"]))
            (bind (for_each metric_table (copy_metric metrics sc)) (fun _ =>
             bind (derive_wns metrics sc setup_ws "setupwns") (fun _ =>
             bind (derive_wns metrics sc hold_ws "holdwns") (fun _ =>
               record_drvs metrics sc))))).
  { apply footprint_bind; [|intros _].
    - eapply footprint_weaken; [|apply copy_loop_footprint].
      intros o. apply metric_op_mono. intros name Hn. apply elem_of_app. now left.
    - eapply footprint_weaken; [|apply derived_footprint].
      intros o. apply metric_op_mono. intros name Hn. apply elem_of_app. now right. }
  apply Hfp.
Qed.

(** X11.  [post_process] writes nothing but the metrics of its table and the
    three it derives ('setupwns', 'holdwns', 'drvs'): every other leaf, the
    schema and the log are as before, whether it completes or raises; and
    on an empty report it changes nothing at all. *)
Theorem post_process_frame (metrics : gmap string jval) (c : chip) :
  let c' := (post_process metrics c).1 in
  (forall k,
     (forall name, name ∈ map fst metric_table ++ ["setupwns"; "holdwns"; "drvs"] ->
                   k <> ["metric"; name]) ->
     leaves (cfg c') !! k = leaves (cfg c) !! k) /\
  schema (cfg c') = schema (cfg c) /\
  logged c' = logged c /\
  post_process ∅ c = (c, Ok tt).
Proof.
  intros c'. subst c'.
  destruct (post_process_footprint metrics c) as (ops & Hops & ->).
  set (names := map fst metric_table ++ ["setupwns"; "holdwns"; "drvs"]) in *.
  assert (Hst : forall (I : chip -> Prop),
            stable (metric_op (arg_scope (cfg c)) names) I -> I c -> I (apply_ops c ops)).
  { intros I HI. now apply (apply_ops_stable _ I ops c Hops). }
  split; [|split; [|split]].
  - intros k Hk.
    apply (Hst (fun c' => leaves (cfg c') !! k = leaves (cfg c) !! k));
      [now apply metric_op_frame | reflexivity].
  - apply (Hst (fun c' => schema (cfg c') = schema (cfg c)));
      [apply metric_op_schema | reflexivity].
  - apply (Hst (fun c' => logged c' = logged c)); [apply metric_op_logged | reflexivity].
  - destruct c as [m lg]. reflexivity.
Qed.

Lemma derive_wns_raises metrics sc raw_name metric raw e c :
  metrics !! raw_name = Some raw -> py_float raw = Raise e ->
  derive_wns metrics sc raw_name metric c = (c, Raise e).
Proof. intros Hr Hs. unfold derive_wns. rewrite Hr. unfold bind, lift. now rewrite Hs. Qed.

(** X12.  A slack entry of the report that [float()] rejects (a JSON null, an
    integer beyond the floats) makes [post_process] raise the exception of
    the conversion: at the setup slack, before any derived metric is
    written; at the hold slack (the setup slack being absent or a number),
    before 'holdwns' and 'drvs' are written. *)
Theorem post_process_bad_slack (metrics : gmap string jval) (c : chip)
    (raw : jval) (e : exn) :
  py_float raw = Raise e ->
  let c' := (post_process metrics c).1 in
  (metrics !! setup_ws = Some raw ->
   (post_process metrics c).2 = Raise e /\
   forall name, name ∈ ["setupwns"; "holdwns"; "drvs"] ->
     leaves (cfg c') !! ["metric"; name] = leaves (cfg c) !! ["metric"; name]) /\
  (metrics !! hold_ws = Some raw ->
   (forall r, metrics !! setup_ws = Some r -> exists s, py_float r = Ok s) ->
   (post_process metrics c).2 = Raise e /\
   forall name, name ∈ ["holdwns"; "drvs"] ->
     leaves (cfg c') !! ["metric"; name] = leaves (cfg c) !! ["metric"; name]).
Proof.
  intros He c'. subst c'.
  destruct (post_process_after_copy metrics c) as (c1 & -> & Hc1).
  set (sc := arg_scope (cfg c)).
  assert (Hnames : forall name, name ∈ ["setupwns"; "holdwns"; "drvs"] ->
                                name ∉ map fst metric_table).
  { apply Forall_forall. by_decide. }
  split.
  - intros Hraw.
    rewrite (bind_raise _ _ _ _ _ (derive_wns_raises _ sc _ "setupwns" _ _ c1 Hraw He)).
    split; [reflexivity|]. intros name Hn. cbn [fst]. apply Hc1; [now apply Hnames | reflexivity].
  - intros Hraw Hsetup.
    assert (Hc2 : exists c2, derive_wns metrics sc setup_ws "setupwns" c1 = (c2, Ok tt) /\
              forall name, name ∈ ["holdwns"; "drvs"] ->
                leaves (cfg c2) !! ["metric"; name] = leaves (cfg c1) !! ["metric"; name]).
    { destruct (metrics !! setup_ws) as [r|] eqn:Hr.
      - destruct (Hsetup r eq_refl) as [s Hs]. eexists. split.
        + apply (derive_wns_present _ _ _ _ r s); assumption.
        + intros name Hn. cbn [cfg]. apply leaves_write_ne. intros [= <-].
          revert Hn. apply (bool_decide_eq_false_1 _). vm_compute. reflexivity.
      - eexists. split; [now apply derive_wns_absent | reflexivity]. }
    destruct Hc2 as (c2 & Hc2 & Hl2). rewrite (bind_ok _ _ _ _ _ Hc2).
    rewrite (bind_raise _ _ _ _ _ (derive_wns_raises _ sc _ "holdwns" _ _ c2 Hraw He)).
    split; [reflexivity|]. intros name Hn. cbn [fst]. rewrite (Hl2 name Hn).
    apply Hc1; [|reflexivity]. apply Hnames. now right.
Qed.

Lemma post_process_bad_slack_witness :
  py_float JNull = Raise TypeError /\
  (({[ setup_ws := JNull ]} : gmap string jval) !! setup_ws = Some JNull ->
   (post_process {[ setup_ws := JNull ]} chip_w).2 = Raise TypeError /\
   forall name, name ∈ ["setupwns"; "holdwns"; "drvs"] ->
     leaves (cfg (post_process {[ setup_ws := JNull ]} chip_w).1) !! ["metric"; name]
     = leaves (cfg chip_w) !! ["metric"; name]).
Proof.
  split; [reflexivity|].
  exact (proj1 (post_process_bad_slack {[ setup_ws := JNull ]} chip_w JNull TypeError
                  eq_refl)).
Defined.
(* ===================================================================== *)
(** * openroad.py: more on setup *)
(* ===================================================================== *)

Lemma setup_op_task L o : setup_op L o -> task_op L o.
Proof. intros Ho k Hk. destruct Ho; injection Hk as <-; eexists; reflexivity. Qed.

Lemma tail_op_task L o : tail_op L o -> task_op L o.
Proof.
  intros [Ho| ->]; [now apply setup_op_task|]. intros k Hk. discriminate Hk.
Qed.

Lemma setup_io_task L threads : footprint (task_op L) (setup_io L threads).
Proof.
  unfold setup_io. footprint_auto; intros k [= <-]; eexists; reflexivity.
Qed.

(** What follows the fixed settings in [setup] writes under the task of
    the node only. *)
Lemma setup_after_fixed_task h L :
  footprint (task_op L)
    (bind (reads_result (compute_threads h L)) (fun threads =>
     bind (setup_io L threads) (fun _ =>
     bind (setup_nodisplay L) (fun _ =>
     bind (check_delaymodel L) (fun _ => setup_rest h L))))).
Proof.
  apply footprint_bind; [apply footprint_reads_result | intros threads].
  apply footprint_bind; [apply setup_io_task | intros _].
  eapply footprint_weaken; [apply tail_op_task | apply setup_tail_footprint].
Qed.

Lemma task_op_leaf L k l :
  (forall rest, k <> task_key L rest) ->
  stable (task_op L) (fun c => leaves (cfg c) !! k = l).
Proof.
  intros Hk c o Ho H. destruct o as [k' v sc cl|k' v sc|msg]; [| |exact H].
  - destruct (Ho k' eq_refl) as [rest ->]. rewrite cfg_apply_set.
    rewrite leaves_set_ne; [exact H|]. intros E. now apply (Hk rest).
  - destruct (Ho k' eq_refl) as [rest ->]. rewrite cfg_apply_add.
    rewrite leaves_add_ne; [exact H|]. intros E. now apply (Hk rest).
Qed.

Lemma task_op_get L k sc v :
  (forall rest, k <> task_key L rest) ->
  stable (task_op L) (fun c => Schema.get (cfg c) k sc = v).
Proof.
  intros Hk c o Ho H. destruct o as [k' v' sc' cl|k' v' sc'|msg]; [| |exact H].
  - destruct (Ho k' eq_refl) as [rest ->]. rewrite cfg_apply_set.
    rewrite get_set_ne; [exact H|]. intros E. now apply (Hk rest).
  - destruct (Ho k' eq_refl) as [rest ->]. rewrite cfg_apply_add.
    rewrite get_add_ne; [exact H|]. intros E. now apply (Hk rest).
Qed.

Lemma setup_op_log_keys L o k :
  setup_op_log L o -> op_key o = Some k -> exists rest, k = "tool" :: "openroad" :: rest.
Proof.
  intros [Ho|[Ho| ->]] Hk; [| |discriminate Hk].
  - destruct Ho; injection Hk as <-; eexists; reflexivity.
  - destruct Ho; injection Hk as <-; eexists; reflexivity.
Qed.

Lemma setup_op_log_leaf L k l :
  (forall rest, k <> "tool" :: "openroad" :: rest) ->
  stable (setup_op_log L) (fun c => leaves (cfg c) !! k = l).
Proof.
  intros Hk c o Ho H. destruct o as [k' v sc cl|k' v sc|msg]; [| |exact H].
  - destruct (setup_op_log_keys L _ k' Ho eq_refl) as [rest ->]. rewrite cfg_apply_set.
    rewrite leaves_set_ne; [exact H|]. intros E. now apply (Hk rest).
  - destruct (setup_op_log_keys L _ k' Ho eq_refl) as [rest ->]. rewrite cfg_apply_add.
    rewrite leaves_add_ne; [exact H|]. intros E. now apply (Hk rest).
Qed.

Lemma logged_grows (P : op -> Prop) (lg : list string) :
  stable P (fun c => exists msgs, logged c = lg ++ msgs).
Proof.
  intros c o _ [msgs H]. destruct o; cbn [apply_op logged]; eauto.
  exists (msgs ++ [msg]). now rewrite H, app_assoc.
Qed.

(** X13.  [setup] writes under ['tool', 'openroad'] only: the schema and every
    leaf elsewhere are as before, and it takes nothing out of the log,
    whatever the mode and whether it completes or raises. *)
Theorem setup_frame (h : host) (mode : string) (c : chip) :
  let c' := (setup h mode c).1 in
  schema (cfg c') = schema (cfg c) /\
  (forall k, (forall rest, k <> "tool" :: "openroad" :: rest) ->
             leaves (cfg c') !! k = leaves (cfg c) !! k) /\
  exists msgs, logged c' = logged c ++ msgs.
Proof.
  intros c'. subst c'.
  destruct (setup_run h mode c) as [[e ->]|(L & HL & ->)].
  - cbn [fst]. repeat split. exists []. now rewrite app_nil_r.
  - pose proof (setup_body_footprint h L) as Hfp. split; [|split].
    + apply (footprint_stable _ (fun c' => schema (cfg c') = schema (cfg c)) _ c Hfp);
        [apply schema_stable | reflexivity].
    + intros k Hk.
      apply (footprint_stable _ (fun c' => leaves (cfg c') !! k = leaves (cfg c) !! k) _ c Hfp);
        [now apply setup_op_log_leaf | reflexivity].
    + apply (footprint_stable _ (fun c' => exists msgs, logged c' = logged c ++ msgs) _ c Hfp);
        [apply logged_grows | exists []; now rewrite app_nil_r].
Qed.

(** X14.  [setup] needs a logic library: on an empty list [targetlibs[0]] raises
    [IndexError], on an unset one [TypeError], in both cases before
    anything is written or logged. *)
Theorem setup_needs_logiclib (h : host) (mode : string) (c : chip) :
  match Schema.get (cfg c) ["asic"; "logiclib"] global with
  | VList [] => setup h mode c = (c, Raise IndexError)
  | VNone => setup h mode c = (c, Raise TypeError)
  | _ => True
  end.
Proof.
  unfold setup, read_locals, bind, reads, chip_get, lift, ret. cbn [fst snd].
  destruct (Schema.get (cfg c) ["asic"; "logiclib"] global) as [| | | | |[|lib libs]|];
    try exact I; reflexivity.
Qed.

Lemma task_key_length L rest : (4 <= length (task_key L rest))%nat.
Proof. unfold task_key. cbn [length]. lia. Qed.

Lemma fixed_key_not_task L name rest : ["tool"; tool; name] <> task_key L rest.
Proof.
  intros E. pose proof (task_key_length L rest) as H. rewrite <- E in H. cbn in H. lia.
Qed.

Lemma setup_body_unfold h L c :
  setup_body h L c
  = bind (setup_fixed L) (fun _ =>
    bind (reads_result (compute_threads h L)) (fun threads =>
    bind (setup_io L threads) (fun _ =>
    bind (setup_nodisplay L) (fun _ =>
    bind (check_delaymodel L) (fun _ => setup_rest h L))))) c.
Proof. reflexivity. Qed.

(** What [setup_fixed] leaves in the four settings of the tool. *)
Lemma setup_fixed_values L c :
  let c1 := (setup_fixed L c).1 in
  Schema.get (cfg c1) ["tool"; tool; "exe"] global = VStr tool /\
  Schema.get (cfg c1) ["tool"; tool; "vswitch"] global = VStr "-version" /\
  (forall name v, (name, v) ∈ [("version", ">=v2.0-6445"); ("format", "tcl")] ->
     (clobber L = true \/ Schema.is_set (cfg c) ["tool"; tool; name] global = false ->
      Schema.get (cfg c1) ["tool"; tool; name] global = VStr v) /\
     (clobber L = false -> Schema.is_set (cfg c) ["tool"; tool; name] global = true ->
      Schema.get (cfg c1) ["tool"; tool; name] global
      = Schema.get (cfg c) ["tool"; tool; name] global)).
Proof.
  intros c1. subst c1. unfold setup_fixed, bind, chip_set, ret. cbn [fst snd cfg].
  set (m := cfg c).
  split; [|split].
  - rewrite !get_set_ne by discriminate. rewrite set_clobber. apply get_write_eq.
  - rewrite !get_set_ne by discriminate. rewrite set_clobber. apply get_write_eq.
  - intros name v Hin.
    apply elem_of_cons in Hin as [[= -> ->]|Hin];
      [|apply list_elem_of_singleton in Hin; injection Hin as -> ->].
    + rewrite get_set_ne by discriminate.
      set (m2 := Schema.set (Schema.set m _ _ _ _) _ _ _ _).
      assert (Hset2 : Schema.is_set m2 ["tool"; tool; "version"] global
                      = Schema.is_set m ["tool"; tool; "version"] global)
        by (unfold m2; now rewrite !is_set_set_ne by discriminate).
      assert (Hget2 : Schema.get m2 ["tool"; tool; "version"] global
                      = Schema.get m ["tool"; tool; "version"] global)
        by (unfold m2; now rewrite !get_set_ne by discriminate).
      split.
      * intros [Hc|Hu].
        -- rewrite Hc, set_clobber. apply get_write_eq.
        -- rewrite set_unset by now rewrite Hset2. apply get_write_eq.
      * intros Hc Hs. rewrite Hc, set_noclobber by now rewrite Hset2. exact Hget2.
    + set (m3 := Schema.set (Schema.set (Schema.set m _ _ _ _) _ _ _ _) _ _ _ _).
      assert (Hset3 : Schema.is_set m3 ["tool"; tool; "format"] global
                      = Schema.is_set m ["tool"; tool; "format"] global)
        by (unfold m3; now rewrite !is_set_set_ne by discriminate).
      assert (Hget3 : Schema.get m3 ["tool"; tool; "format"] global
                      = Schema.get m ["tool"; tool; "format"] global)
        by (unfold m3; now rewrite !get_set_ne by discriminate).
      split.
      * intros [Hc|Hu].
        -- rewrite Hc, set_clobber. apply get_write_eq.
        -- rewrite set_unset by now rewrite Hset3. apply get_write_eq.
      * intros Hc Hs. rewrite Hc, set_noclobber by now rewrite Hset3. exact Hget3.
Qed.

(** X15.  Once [setup] has read its locals (the logic library list is not
    empty), the settings fixed for the tool are in the manifest when it
    returns or raises: 'exe' is 'openroad' and 'vswitch' is '-version'
    whatever was there; 'version' and 'format' are '>=v2.0-6445' and 'tcl'
    in the show and screenshot modes or when they were unset, and are kept
    as they were otherwise. *)
Theorem setup_tool_settings (h : host) (mode : string) (c : chip) (lib : string)
    (libs : list string) :
  Schema.get (cfg c) ["asic"; "logiclib"] global = VList (lib :: libs) ->
  let m := cfg c in
  let task := chip_get_task h m (Schema.get m ["arg"; "step"] global)
                (Schema.get m ["arg"; "index"] global) in
  let m' := cfg (setup h mode c).1 in
  Schema.get m' ["tool"; "openroad"; "exe"] global = VStr "openroad" /\
  Schema.get m' ["tool"; "openroad"; "vswitch"] global = VStr "-version" /\
  (forall name v, (name, v) ∈ [("version", ">=v2.0-6445"); ("format", "tcl")] ->
     (is_show_screenshot mode task = true \/
      Schema.is_set m ["tool"; "openroad"; name] global = false ->
      Schema.get m' ["tool"; "openroad"; name] global = VStr v) /\
     (is_show_screenshot mode task = false ->
      Schema.is_set m ["tool"; "openroad"; name] global = true ->
      Schema.get m' ["tool"; "openroad"; name] global
      = Schema.get m ["tool"; "openroad"; name] global)).
Proof.
  intros Hlibs m task m'. subst m task m'.
  destruct (read_locals_returns h mode c lib libs Hlibs) as (L & HL & _).
  destruct (read_locals_ok h mode c L HL)
    as (Hstep & Hindex & _ & Htask & _ & _ & _ & _ & _ & _ & _ & _ & Hclobber).
  rewrite Htask, Hstep, Hindex in Hclobber. rewrite <- Hclobber.
  rewrite (setup_unfold h mode c L HL), setup_body_unfold.
  destruct (setup_fixed_run L c) as (Hok & _).
  destruct (setup_fixed L c) as [c1 r] eqn:E. cbn [snd] in Hok. subst r.
  rewrite (bind_state _ _ _ _ _ E).
  pose proof (setup_fixed_values L c) as Hv. cbv zeta in Hv. rewrite E in Hv. cbn [fst] in Hv.
  destruct Hv as (Hexe & Hvs & Hrest).
  assert (Hkeep : forall name v,
            Schema.get (cfg c1) ["tool"; tool; name] global = v ->
            Schema.get (cfg (bind (reads_result (compute_threads h L)) (fun threads =>
                             bind (setup_io L threads) (fun _ =>
                             bind (setup_nodisplay L) (fun _ =>
                             bind (check_delaymodel L) (fun _ => setup_rest h L)))) c1).1)
              ["tool"; tool; name] global = v).
  { intros name v Hget.
    apply (footprint_stable (task_op L)
             (fun c => Schema.get (cfg c) ["tool"; tool; name] global = v));
      [apply setup_after_fixed_task | | exact Hget].
    apply task_op_get. intros rest. apply fixed_key_not_task. }
  split; [now apply Hkeep|]. split; [now apply Hkeep|].
  intros name v Hin. destruct (Hrest name v Hin) as [Hw Hk]. split.
  - intros Hcase. apply Hkeep. now apply Hw.
  - intros Hc Hs. apply Hkeep. now apply Hk.
Qed.

Lemma setup_tool_settings_witness :
  Schema.get (cfg (setup sample_host "batch" sample_chip).1)
    ["tool"; "openroad"; "exe"] global = VStr "openroad" /\
  Schema.get (cfg (setup sample_host "batch" sample_chip).1)
    ["tool"; "openroad"; "vswitch"] global = VStr "-version".
Proof.
  destruct (setup_tool_settings sample_host "batch" sample_chip "nangate45" [])
    as (H1 & H2 & _); [vm_compute; reflexivity|].
  split; [exact H1 | exact H2].
Defined.

(** X16.  When the processor count of the host is unknown ([os.cpu_count()] is
    [None]) and the run is local on a step of the flow, the division at
    line 92 raises [TypeError]: [setup] stops there, having written the
    settings fixed for the tool and nothing under the task of the node. *)
Theorem setup_unknown_cpu_count (h : host) (mode : string) (c : chip)
    (lib f s : string) (libs : list string) :
  Schema.get (cfg c) ["asic"; "logiclib"] global = VList (lib :: libs) ->
  os_cpu_count h = None ->
  truthy (Schema.get (cfg c) ["option"; "remote"] global) = false ->
  Schema.get (cfg c) ["option"; "flow"] global = VStr f ->
  Schema.get (cfg c) ["arg"; "step"] global = VStr s ->
  s ∈ Schema.getkeys (cfg c) ["flowgraph"; f] ->
  (setup h mode c).2 = Raise TypeError /\
  (forall k, length k <> 3%nat ->
             leaves (cfg (setup h mode c).1) !! k = leaves (cfg c) !! k) /\
  logged (setup h mode c).1 = logged c.
Proof.
  intros Hlibs Hcpu Hremote Hflow Hstep Hin.
  destruct (read_locals_returns h mode c lib libs Hlibs) as (L & HL & _).
  destruct (read_locals_ok h mode c L HL) as (HLstep & _ & _ & _ & HLflow & _).
  rewrite (setup_unfold h mode c L HL), setup_body_unfold.
  destruct (setup_fixed_run L c) as (Hok & Hsame & Hframe).
  assert (Hlog : logged (setup_fixed L c).1 = logged c) by reflexivity.
  destruct (setup_fixed L c) as [c1 r] eqn:E. cbn [fst snd] in *. subst r.
  rewrite (bind_ok _ _ _ _ _ E).
  assert (Hthreads : compute_threads h L (cfg c1) = Raise TypeError).
  { rewrite (compute_threads_same_inputs h L (cfg c) (cfg c1) Hsame).
    unfold compute_threads. rewrite Hremote, HLflow, Hflow, HLstep, Hstep. cbn.
    rewrite bool_decide_eq_true_2 by exact Hin.
    unfold threads_per_index. now rewrite Hcpu. }
  assert (Hr : reads_result (compute_threads h L) c1 = (c1, Raise TypeError))
    by (unfold reads_result; now rewrite Hthreads).
  rewrite (bind_raise _ _ _ _ _ Hr). cbn [fst snd]. auto.
Qed.

Lemma setup_unknown_cpu_count_witness :
  (setup (Host None (chip_top sample_host) (chip_get_task sample_host)
            (chip_find_files sample_host) (chip_get_flowgraph_exit_nodes sample_host))
     "batch" sample_chip).2 = Raise TypeError.
Proof.
  refine (proj1 (setup_unknown_cpu_count _ "batch" sample_chip "nangate45" "asicflow" "place" []
                   _ _ _ _ _ _)); try (vm_compute; reflexivity).
  by_decide.
Defined.
(* ===================================================================== *)
(** * openroad.py: the corner helpers *)
(* ===================================================================== *)

Section Corners.

Variable m : manifest.

Let libcorner (constraint : string) : value :=
  Schema.get m ["constraint"; "timing"; constraint; "libcorner"] (arg_scope m).
Let pexcorner (constraint : string) : value :=
  Schema.get m ["constraint"; "timing"; constraint; "pexcorner"] (arg_scope m).

Lemma corners_fold (l : list string) (s s' : gset string) :
  fold_result (fun (corners : gset string) constraint =>
      if truthy (libcorner constraint)
      then match as_list (libcorner constraint) with
           | Ok l => Ok (list_to_set l ∪ corners)
           | Raise e => Raise e
           end
      else Ok corners) l s = Ok s' ->
  forall c, c ∈ s' <->
            c ∈ s \/ exists constraint lst,
                       constraint ∈ l /\ libcorner constraint = VList lst /\ c ∈ lst.
Proof.
  revert s. induction l as [|x l IH]; intros s.
  - intros [= <-] c. split; [auto|]. intros [H|(x & lst & H & _)]; [exact H | inversion H].
  - cbn [fold_result]. destruct (truthy (libcorner x)) eqn:Ht.
    + destruct (libcorner x) as [| | | | |lst|] eqn:Hx; try discriminate. cbn [as_list].
      intros H c. rewrite (IH _ H c). split.
      * intros [Hc|(y & lst' & Hy & Hl & Hc)].
        -- apply elem_of_union in Hc as [Hc|Hc]; [|now left].
           right. exists x, lst. split; [now left|]. split; [exact Hx|].
           now apply elem_of_list_to_set in Hc.
        -- right. exists y, lst'. split; [now right | auto].
      * intros [Hc|(y & lst' & Hy & Hl & Hc)].
        -- left. apply elem_of_union. now right.
        -- apply elem_of_cons in Hy as [->|Hy].
           ++ left. apply elem_of_union. left. apply elem_of_list_to_set.
              rewrite Hx in Hl. now injection Hl as ->.
           ++ right. exists y, lst'. auto.
    + intros H c. rewrite (IH _ H c). split.
      * intros [Hc|(y & lst' & Hy & Hl & Hc)]; [now left|].
        right. exists y, lst'. split; [now right | auto].
      * intros [Hc|(y & lst' & Hy & Hl & Hc)]; [now left|].
        apply elem_of_cons in Hy as [->|Hy].
        -- rewrite Hl in Ht. destruct lst'; [inversion Hc | discriminate].
        -- right. exists y, lst'. auto.
Qed.

Lemma pex_corners_fold (l : list string) (s s' : gset string) :
  fold_result (fun (corners : gset string) constraint =>
      if truthy (pexcorner constraint)
      then match as_str (pexcorner constraint) with
           | Ok p => Ok ({[p]} ∪ corners)
           | Raise e => Raise e
           end
      else Ok corners) l s = Ok s' ->
  forall p, p ∈ s' <->
            p ∈ s \/ exists constraint,
                       constraint ∈ l /\ pexcorner constraint = VStr p /\ p <> EmptyString.
Proof.
  revert s. induction l as [|x l IH]; intros s.
  - intros [= <-] c. split; [auto|]. intros [H|(x & H & _)]; [exact H | inversion H].
  - cbn [fold_result]. destruct (truthy (pexcorner x)) eqn:Ht.
    + destruct (pexcorner x) as [| | | |q| |] eqn:Hx; try discriminate. cbn [as_str].
      assert (Hq : q <> EmptyString) by (destruct q; [discriminate Ht | discriminate]).
      intros H p. rewrite (IH _ H p). split.
      * intros [Hc|(y & Hy & Hl & Hc)].
        -- apply elem_of_union in Hc as [Hc|Hc]; [|now left].
           apply elem_of_singleton in Hc as ->.
           right. exists x. split; [now left | auto].
        -- right. exists y. split; [now right | auto].
      * intros [Hc|(y & Hy & Hl & Hc)].
        -- left. apply elem_of_union. now right.
        -- apply elem_of_cons in Hy as [->|Hy].
           ++ left. apply elem_of_union. left. apply elem_of_singleton.
              rewrite Hx in Hl. now injection Hl as ->.
           ++ right. exists y. auto.
    + intros H p. rewrite (IH _ H p). split.
      * intros [Hc|(y & Hy & Hl & Hc)]; [now left|].
        right. exists y. split; [now right | auto].
      * intros [Hc|(y & Hy & Hl & Hc)]; [now left|].
        apply elem_of_cons in Hy as [->|Hy].
        -- rewrite Hl in Ht. destruct p; [contradiction | discriminate].
        -- right. exists y. auto.
Qed.

Lemma get_corners_members cs :
  get_corners m = Ok cs ->
  NoDup cs /\
  forall c, c ∈ cs <->
            exists constraint lst,
              constraint ∈ Schema.getkeys m ["constraint"; "timing"] /\
              libcorner constraint = VList lst /\ c ∈ lst.
Proof.
  unfold get_corners.
  destruct (fold_result _ (Schema.getkeys m ["constraint"; "timing"]) ∅) as [s|] eqn:Hf;
    [|discriminate].
  intros [= <-]. split; [apply NoDup_elements|]. intros c.
  rewrite elem_of_elements, (corners_fold _ _ _ Hf c). split.
  - intros [H|H]; [now apply elem_of_empty in H | exact H].
  - auto.
Qed.

Lemma get_pex_corners_members ps :
  get_pex_corners m = Ok ps ->
  NoDup ps /\
  forall p, p ∈ ps <->
            exists constraint,
              constraint ∈ Schema.getkeys m ["constraint"; "timing"] /\
              pexcorner constraint = VStr p /\ p <> EmptyString.
Proof.
  unfold get_pex_corners.
  destruct (fold_result _ (Schema.getkeys m ["constraint"; "timing"]) ∅) as [s|] eqn:Hf;
    [|discriminate].
  intros [= <-]. split; [apply NoDup_elements|]. intros c.
  rewrite elem_of_elements, (pex_corners_fold _ _ _ Hf c). split.
  - intros [H|H]; [now apply elem_of_empty in H | exact H].
  - auto.
Qed.

Lemma corner_by_check_found check (l : list string) c :
  corner_by_check_loop m (arg_scope m) check l = Ok (Some c) ->
  exists constraint lst,
    constraint ∈ l /\ libcorner constraint = VList (c :: lst) /\
    value_contains check
      (Schema.get m ["constraint"; "timing"; constraint; "check"] (arg_scope m)) = Ok true.
Proof.
  induction l as [|x l IH]; [discriminate|]. cbn [corner_by_check_loop].
  destruct (value_contains check _) as [[|]|] eqn:Hc; [| |discriminate].
  - fold (libcorner x). destruct (truthy (libcorner x)) eqn:Ht.
    + destruct (libcorner x) as [| | | | |lst|] eqn:Hx; try discriminate. cbn [as_list].
      destruct lst as [|c0 lst]; [discriminate|]. cbn [py_first]. intros [= <-].
      exists x, lst. split; [now left|]. split; [exact Hx | exact Hc].
    + intros H. destruct (IH H) as (y & lst & Hy & Hl & Hv).
      exists y, lst. split; [now right | auto].
  - intros H. destruct (IH H) as (y & lst & Hy & Hl & Hv).
    exists y, lst. split; [now right | auto].
Qed.

End Corners.

(** X17.  The library corners [get_corners] returns are the members of the
    'libcorner' lists of the timing scenarios, each once; the parasitic
    corners [get_pex_corners] returns are the non-empty 'pexcorner' names
    of the scenarios, each once. *)
Theorem corners_members (m : manifest) :
  (forall cs, get_corners m = Ok cs ->
     NoDup cs /\
     forall c, c ∈ cs <->
       exists constraint lst,
         constraint ∈ Schema.getkeys m ["constraint"; "timing"] /\
         Schema.get m ["constraint"; "timing"; constraint; "libcorner"] (arg_scope m)
         = VList lst /\ c ∈ lst) /\
  (forall ps, get_pex_corners m = Ok ps ->
     NoDup ps /\
     forall p, p ∈ ps <->
       exists constraint,
         constraint ∈ Schema.getkeys m ["constraint"; "timing"] /\
         Schema.get m ["constraint"; "timing"; constraint; "pexcorner"] (arg_scope m)
         = VStr p /\ p <> EmptyString).
Proof.
  split; [apply get_corners_members | apply get_pex_corners_members].
Qed.

(** X18.  The corner [get_corner_by_check] picks is one of the library corners:
    the first corner of the first scenario that lists the check and has
    corners, else the first of [get_corners]; with no timing scenario at
    all it raises [IndexError]. *)
Theorem get_corner_by_check_member (m : manifest) (check : string) :
  (forall c cs, get_corner_by_check m check = Ok c -> get_corners m = Ok cs -> c ∈ cs) /\
  (forall c, corner_by_check_loop m (arg_scope m) check
               (Schema.getkeys m ["constraint"; "timing"]) = Ok (Some c) ->
     get_corner_by_check m check = Ok c /\
     exists constraint lst,
       constraint ∈ Schema.getkeys m ["constraint"; "timing"] /\
       Schema.get m ["constraint"; "timing"; constraint; "libcorner"] (arg_scope m)
       = VList (c :: lst) /\
       value_contains check
         (Schema.get m ["constraint"; "timing"; constraint; "check"] (arg_scope m))
       = Ok true) /\
  (Schema.getkeys m ["constraint"; "timing"] = [] ->
   get_corner_by_check m check = Raise IndexError /\ get_corners m = Ok []).
Proof.
  split; [|split].
  - intros c cs Hc Hcs. destruct (get_corners_members m cs Hcs) as [_ Hmem].
    unfold get_corner_by_check in Hc.
    destruct (corner_by_check_loop _ _ _ _) as [[c0|]|] eqn:Hloop; [| |discriminate].
    + injection Hc as ->. apply corner_by_check_found in Hloop as (x & lst & Hx & Hl & _).
      apply Hmem. exists x, (c :: lst). split; [exact Hx|]. split; [exact Hl | now left].
    + rewrite Hcs in Hc. destruct cs as [|c0 cs]; [discriminate|].
      injection Hc as ->. now left.
  - intros c Hloop. split.
    + unfold get_corner_by_check. now rewrite Hloop.
    + now apply corner_by_check_found.
  - intros Hnone. unfold get_corner_by_check, get_corners. rewrite Hnone. cbn.
    rewrite elements_empty. split; reflexivity.
Qed.

Lemma corners_members_witness :
  get_corners (cfg sample_chip) = Ok ["slow"] /\
  NoDup ["slow"] /\
  get_pex_corners (cfg sample_chip) = Ok ["maximum"] /\
  NoDup ["maximum"].
Proof.
  assert (H1 : get_corners (cfg sample_chip) = Ok ["slow"]) by (vm_compute; reflexivity).
  assert (H2 : get_pex_corners (cfg sample_chip) = Ok ["maximum"])
    by (vm_compute; reflexivity).
  split; [exact H1|].
  split; [exact (proj1 (proj1 (corners_members (cfg sample_chip)) _ H1))|].
  split; [exact H2|].
  exact (proj1 (proj2 (corners_members (cfg sample_chip)) _ H2)).
Defined.

Lemma get_corner_by_check_member_witness :
  get_corner_by_check (cfg sample_chip) "setup" = Ok "slow" /\
  get_corners (cfg sample_chip) = Ok ["slow"] /\
  "slow" ∈ ["slow"].
Proof.
  assert (H1 : get_corner_by_check (cfg sample_chip) "setup" = Ok "slow")
    by (vm_compute; reflexivity).
  assert (H2 : get_corners (cfg sample_chip) = Ok ["slow"]) by (vm_compute; reflexivity).
  split; [exact H1|]. split; [exact H2|].
  exact (proj1 (get_corner_by_check_member (cfg sample_chip) "setup") _ _ H1 H2).
Defined.
(* ===================================================================== *)
(** * openroad.py: more on the version check *)
(* ===================================================================== *)

Lemma split_ws_from_blank (s : string) :
  PyStr.all_chars PyStr.is_space s = true -> PyStr.split_ws_from EmptyString s = [].
Proof.
  induction s as [|c s IH]; [reflexivity|]. cbn [PyStr.all_chars PyStr.split_ws_from].
  intros H. apply andb_true_iff in H as [Hc Hs]. rewrite Hc. cbn [PyStr.is_empty].
  now apply IH.
Qed.

(** X19.  [parse_version] raises on blank output only, and then [IndexError]: on
    an output that is empty or all whitespace [stdout.split()[-1]] has no
    item to take; on any other output a version is returned. *)
Theorem parse_version_blank (stdout : string) :
  if PyStr.all_chars PyStr.is_space stdout
  then parse_version stdout = Raise IndexError
  else exists version, parse_version stdout = Ok version.
Proof.
  unfold parse_version, py_last, PyStr.split_ws.
  destruct (PyStr.all_chars PyStr.is_space stdout) eqn:Hblank.
  - now rewrite (split_ws_from_blank stdout Hblank).
  - destruct (last (PyStr.split_ws_from EmptyString stdout)) as [token|] eqn:Hlast.
    + destruct (1 <? _); [eexists; reflexivity|].
      pose proof (split_on_nonempty dash token) as Hne.
      destruct (PyStr.split_on dash token); [contradiction | eexists; reflexivity].
    + apply last_None in Hlast. apply split_ws_from_nil in Hlast as [_ H]. congruence.
Qed.

Lemma lstrip_char_contains c d (s : string) :
  c <> d -> PyStr.contains_char d (PyStr.lstrip_char c s) = PyStr.contains_char d s.
Proof.
  intros Hne. induction s as [|e s IH]; [reflexivity|]. cbn [PyStr.lstrip_char].
  destruct (Ascii.eqb_spec e c) as [->|He]; [|reflexivity].
  cbn [PyStr.contains_char]. destruct (Ascii.eqb_spec c d); [contradiction | exact IH].
Qed.

Lemma lstrip_char_twice c (s : string) :
  PyStr.lstrip_char c (PyStr.lstrip_char c s) = PyStr.lstrip_char c s.
Proof.
  induction s as [|e s IH]; [reflexivity|]. cbn [PyStr.lstrip_char].
  destruct (Ascii.eqb e c) eqn:He; [exact IH|]. cbn [PyStr.lstrip_char]. now rewrite He.
Qed.

(** X20.  Normalizing a normalized version changes nothing, and a normalized
    version is the sentinel "0" or has a '.' and no leading 'v'. *)
Theorem normalize_version_idempotent (version : string) :
  normalize_version (normalize_version version) = normalize_version version /\
  (normalize_version version = "0" \/
   PyStr.contains_char dot (normalize_version version) = true /\
   PyStr.starts_with "v" (normalize_version version) = false).
Proof.
  unfold normalize_version.
  destruct (PyStr.contains_char dot version) eqn:Hdot; [|split; [reflexivity | now left]].
  assert (Hdot' : PyStr.contains_char dot (PyStr.lstrip_char "v" version) = true)
    by (rewrite lstrip_char_contains; [exact Hdot | discriminate]).
  rewrite Hdot'. split; [apply lstrip_char_twice|]. right. split; [reflexivity|].
  destruct (lstrip_char_spec "v"%char version) as (n & _ & H). exact H.
Qed.
(* ===================================================================== *)
(** * openroad.py: the lists setup appends to *)
(* ===================================================================== *)

Lemma stored_add_ne (m : manifest) k v sc k' sc' :
  k <> k' -> Schema.stored (Schema.add m k v sc) k' sc' = Schema.stored m k' sc'.
Proof. intros H. unfold Schema.add. now apply stored_write_ne. Qed.

Lemma stored_add_eq (m : manifest) k v sc :
  Schema.seq_of (Schema.stored (Schema.add m k v sc) k sc)
  = Schema.seq_of (Schema.stored m k sc) ++ [v].
Proof. unfold Schema.add. now rewrite stored_write_eq. Qed.

Lemma stored_set_other (m : manifest) k v sc clobber k' sc' :
  k <> k' -> Schema.stored (Schema.set m k v sc clobber) k' sc' = Schema.stored m k' sc'.
Proof.
  intros H. destruct (set_cases m k v sc clobber) as [-> | ->];
    [reflexivity | now apply stored_write_ne].
Qed.

Lemma stored_leaf (m m' : manifest) k sc :
  schema m = schema m' -> leaves m !! k = leaves m' !! k ->
  Schema.stored m k sc = Schema.stored m' k sc.
Proof.
  intros Hs Hl. unfold Schema.stored, Schema.leaf_of, Schema.default_of. now rewrite Hs, Hl.
Qed.

(** No effect of [setup] takes a requirement away. *)
Lemma requires_grow L (base : list string) :
  stable (setup_op_log L)
    (fun c => exists added,
       Schema.seq_of (Schema.stored (cfg c) (task_key L ["require"]) (node_scope L))
       = base ++ added).
Proof.
  intros c o Ho [added H].
  destruct Ho as [Ho|[Ho| ->]]; [| |exists added; exact H].
  - destruct Ho; rewrite ?cfg_apply_set, ?cfg_apply_add;
      rewrite ?stored_set_other, ?stored_add_ne by (unfold task_key; congruence); eauto.
    apply elem_of_cons in H0 as [->|H0]; [|apply elem_of_cons in H0 as [->|H0];
      [|apply elem_of_cons in H0 as [->|H0]; [|apply list_elem_of_singleton in H0 as ->]]];
      rewrite stored_set_other by (unfold task_key; congruence); eauto.
  - destruct Ho; rewrite ?cfg_apply_set, ?cfg_apply_add;
      rewrite ?stored_set_other, ?stored_add_ne by (unfold task_key; congruence); eauto.
    exists (added ++ [v]). rewrite stored_add_eq, H. now rewrite app_assoc.
Qed.

(** X21.  Whatever the mode, and whether it completes or raises, [setup] only
    appends to the requirements of the node: the list it leaves starts with
    the list it found. *)
Theorem setup_requirements_grow (h : host) (mode : string) (c : chip) :
  let m := cfg c in
  let task := chip_get_task h m (Schema.get m ["arg"; "step"] global)
                (Schema.get m ["arg"; "index"] global) in
  let key := ["tool"; "openroad"; "task"; task; "require"] in
  exists added,
    Schema.seq_of (Schema.stored (cfg (setup h mode c).1) key (arg_scope m))
    = Schema.seq_of (Schema.stored m key (arg_scope m)) ++ added.
Proof.
  intros m task key. subst m task key.
  destruct (setup_run h mode c) as [[e ->]|(L & HL & ->)].
  - exists []. now rewrite app_nil_r.
  - destruct (read_locals_ok h mode c L HL) as (Hstep & Hindex & Hsc & Htask & _).
    rewrite <- Hstep, <- Hindex, <- Htask, <- Hsc.
    apply (footprint_stable (setup_op_log L)
             (fun c' => exists added,
                Schema.seq_of (Schema.stored (cfg c') (task_key L ["require"]) (node_scope L))
                = Schema.seq_of (Schema.stored (cfg c) (task_key L ["require"]) (node_scope L))
                  ++ added)).
    + apply setup_body_footprint.
    + apply requires_grow.
    + exists []. now rewrite app_nil_r.
Qed.

Lemma outputs_stable L (v : list string) :
  stable (tail_op L)
    (fun c => Schema.seq_of (Schema.stored (cfg c) (task_key L ["output"]) (node_scope L))
              = v).
Proof.
  intros c o Ho H. destruct Ho as [Ho| ->]; [|exact H].
  destruct Ho; rewrite ?cfg_apply_set, ?cfg_apply_add;
    rewrite ?stored_set_other, ?stored_add_ne by (unfold task_key; congruence); exact H.
Qed.

Lemma setup_io_outputs L threads c :
  Schema.seq_of (Schema.stored (cfg (setup_io L threads c).1) (task_key L ["output"])
                   (node_scope L))
  = Schema.seq_of (Schema.stored (cfg c) (task_key L ["output"]) (node_scope L))
    ++ [design L +:+ ".sdc"; design L +:+ ".vg"; design L +:+ ".def"; design L +:+ ".odb"].
Proof.
  unfold setup_io, bind, chip_set, chip_add. cbn [fst snd cfg].
  rewrite !stored_add_eq. rewrite !stored_set_other by (unfold task_key; congruence).
  now rewrite <- !app_assoc.
Qed.

(** X22.  Once [setup] has read its locals and computed the thread count, it has
    appended the four outputs of the node, <design>.sdc, .vg, .def and
    .odb, in this order, to the outputs it found, whether it then completes
    or raises: the outputs are appended, not set, so every run of [setup]
    lists them once more. *)
Theorem setup_appends_outputs (h : host) (mode : string) (c : chip) (lib : string)
    (libs : list string) (threads : value) :
  Schema.get (cfg c) ["asic"; "logiclib"] global = VList (lib :: libs) ->
  (forall L, (read_locals h mode c).2 = Ok L ->
             compute_threads h L (cfg c) = Ok threads) ->
  let m := cfg c in
  let task := chip_get_task h m (Schema.get m ["arg"; "step"] global)
                (Schema.get m ["arg"; "index"] global) in
  let key := ["tool"; "openroad"; "task"; task; "output"] in
  let design := chip_top h m in
  Schema.seq_of (Schema.stored (cfg (setup h mode c).1) key (arg_scope m))
  = Schema.seq_of (Schema.stored m key (arg_scope m))
    ++ [design +:+ ".sdc"; design +:+ ".vg"; design +:+ ".def"; design +:+ ".odb"].
Proof.
  intros Hlibs Hthreads m task key design. subst m task key design.
  destruct (read_locals_returns h mode c lib libs Hlibs) as (L & HL & _).
  destruct (read_locals_ok h mode c L HL) as (Hstep & Hindex & Hsc & Htask & _).
  assert (Hdesign : design L = chip_top h (cfg c)).
  { revert HL. unfold read_locals, bind, reads, chip_get, lift, ret. cbn [fst snd].
    rewrite Hlibs. cbn. now intros [= <-]. }
  rewrite <- Hstep, <- Hindex, <- Htask, <- Hsc, <- Hdesign.
  rewrite (setup_unfold h mode c L HL), setup_body_unfold.
  destruct (setup_fixed_run L c) as (Hok & Hsame & Hframe).
  destruct (setup_fixed L c) as [c1 r] eqn:E. cbn [fst snd] in *. subst r.
  rewrite (bind_state _ _ _ _ _ E).
  assert (Hr : reads_result (compute_threads h L) c1 = (c1, Ok threads)).
  { unfold reads_result.
    now rewrite (compute_threads_same_inputs h L (cfg c) (cfg c1) Hsame), (Hthreads L HL). }
  rewrite (bind_state _ _ _ _ _ Hr).
  assert (Hio : setup_io L threads c1 = ((setup_io L threads c1).1, Ok tt)) by reflexivity.
  rewrite (bind_state _ _ _ _ _ Hio).
  apply (footprint_stable (tail_op L)
           (fun c' => Schema.seq_of (Schema.stored (cfg c') (task_key L ["output"])
                                       (node_scope L)) = _)).
  - apply setup_tail_footprint.
  - apply outputs_stable.
  - rewrite setup_io_outputs. f_equal. f_equal. apply stored_leaf.
    + apply Hsame.
    + apply Hframe. unfold task_key. cbn. lia.
Qed.

Lemma setup_appends_outputs_witness :
  Schema.seq_of (Schema.stored (cfg (setup sample_host "batch" sample_chip).1)
                   ["tool"; "openroad"; "task"; "place"; "output"]
                   (Some "place", Some "0"))
  = [] ++ ["gcd.sdc"; "gcd.vg"; "gcd.def"; "gcd.odb"].
Proof.
  refine (setup_appends_outputs sample_host "batch" sample_chip "nangate45" [] (VInt 4)
            _ _); [vm_compute; reflexivity|].
  intros L HL. vm_compute in HL. injection HL as <-. vm_compute. reflexivity.
Defined.
